(** * Reap: resumable batch organiser of images into location folders

    A shallow embedding of [src/main.py] and the proofs of the properties
    its specification states about it.

    Layout of the development:
    - [PyStr]  : the few operations of Python strings and lists the script uses;
    - [Json]   : the text format of the catalog and of the state file
                 ([json.dump] of the state object, [json.load] of any text);
    - [Fs]     : the file system the script runs against, with the faults the
                 operating system may answer with;
    - [Reap]   : the functions of [src/main.py], in a state-and-exit monad;
    - [Scenario] : a small catalog, pool and state file to run the script on;
    - [Setup]  : the configuration, asked from the environment and the
                 terminal;
    - [Notions] : what the properties are stated with;
    - the lemmas about each layer, and the properties of the specification;
    - more properties of the functions of the script.

    Modelling conventions.  Python strings are Rocq [string]s, so a character
    is a code point below 256.  Python integers that come from the
    configuration are [Z]; lengths and loop indices are [nat].

    The reach of the model.  A JSON text is decoded when its strings hold
    code points below 256 only, written out or escaped.  Paths are
    compared as they are written.  The record of faults says which calls
    of the operating system fail, whatever the reason of the failure. *)

From Stdlib Require Import ZArith Ascii String Lia Sorted Permutation.
From stdpp Require Import base option strings list gmap.

Open Scope string_scope.

(* ===================================================================== *)
(** * Python strings and lists                                            *)
(* ===================================================================== *)

Module PyStr.

(** Characters that cannot be written inside a Rocq string without an
    escape are named by their decimal code. *)
Definition dquote : ascii := "034"%char.
Definition bslash : ascii := "092"%char.
Definition newline : ascii := "010"%char.

Definition chr_eqb (a b : ascii) : bool := Ascii.eqb a b.

(** [s.replace(old, new)] for one-character [old] and [new]. *)
Fixpoint replace_char (old new : ascii) (s : string) : string :=
  match s with
  | EmptyString => EmptyString
  | String c r =>
      String (if chr_eqb c old then new else c) (replace_char old new r)
  end.

(** [c in s] for a character. *)
Fixpoint mem_char (c : ascii) (s : string) : bool :=
  match s with
  | EmptyString => false
  | String d r => chr_eqb c d || mem_char c r
  end.

(** [s.lower()].  Only the letters A to Z have a lower-case form that is
    an ASCII character; the other code points below 256 are mapped by
    Python to code points outside ASCII, and are left as they are here. *)
Definition lower_char (c : ascii) : ascii :=
  let n := N_of_ascii c in
  if (65 <=? n)%N && (n <=? 90)%N then ascii_of_N (n + 32) else c.

Fixpoint lower (s : string) : string :=
  match s with
  | EmptyString => EmptyString
  | String c r => String (lower_char c) (lower r)
  end.

(** [l[:n]] for a Python integer [n]: a negative bound counts from the
    end of the list. *)
Definition slice_to {A} (n : Z) (l : list A) : list A :=
  if (0 <=? n)%Z then take (Z.to_nat n) l
  else take (length l - Z.to_nat (- n)) l.

(** [l.index(x)]: position of the first occurrence ([None] is
    [ValueError]). *)
Fixpoint index (x : string) (l : list string) : option nat :=
  match l with
  | [] => None
  | y :: r => if String.eqb y x then Some 0 else S <$> index x r
  end.

(** [x in l] on a list of strings. *)
Definition mem (x : string) (l : list string) : bool :=
  existsb (String.eqb x) l.

(** [sorted(l)] on strings: Python compares strings by code points, which
    is [String.leb]; the order is total, so every stable sort returns the
    same list. *)
Fixpoint insert_sorted (x : string) (l : list string) : list string :=
  match l with
  | [] => [x]
  | y :: r => if String.leb x y then x :: l else y :: insert_sorted x r
  end.

Definition sorted (l : list string) : list string :=
  foldr insert_sorted [] l.

(** [os.path.join(a, p)] of [posixpath], for two components. *)
Definition starts_with_slash (p : string) : bool :=
  match p with String c _ => chr_eqb c "/" | EmptyString => false end.

Fixpoint ends_with_slash (a : string) : bool :=
  match a with
  | EmptyString => false
  | String c EmptyString => chr_eqb c "/"
  | String _ r => ends_with_slash r
  end.

Definition path_join (a p : string) : string :=
  if starts_with_slash p then p
  else if String.eqb a "" || ends_with_slash a then a ++ p
  else a ++ "/" ++ p.

(** [os.path.splitext(f)[1]] of [posixpath]: the extension starts at the
    last dot of the last path component, unless that component has only
    dots before it. *)
Fixpoint rfind_from (c : ascii) (s : string) (pos : nat) (found : option nat)
  : option nat :=
  match s with
  | EmptyString => found
  | String d r =>
      rfind_from c r (S pos) (if chr_eqb d c then Some pos else found)
  end.

Definition rfind (c : ascii) (s : string) : option nat :=
  rfind_from c s 0 None.

Fixpoint all_dots (s : string) : bool :=
  match s with
  | EmptyString => true
  | String c r => chr_eqb c "." && all_dots r
  end.

Definition splitext_ext (p : string) : string :=
  let file_start := match rfind "/" p with Some i => S i | None => 0 end in
  match rfind "." p with
  | Some dot =>
      if decide (file_start <= dot) then
        if all_dots (substring file_start (dot - file_start) p) then ""
        else substring dot (String.length p - dot) p
      else ""
  | None => ""
  end.

(** [os.path.split(p)] of [posixpath]: directory part and last component. *)
Fixpoint rstrip_slash_rev (r : list ascii) : list ascii :=
  match r with
  | c :: r' => if chr_eqb c "/" then rstrip_slash_rev r' else r
  | [] => []
  end.

Definition path_split (p : string) : string * string :=
  let i := match rfind "/" p with Some i => S i | None => 0 end in
  let head := substring 0 i p in
  let tail := substring i (String.length p - i) p in
  let stripped :=
    string_of_list_ascii
      (rev (rstrip_slash_rev (rev (list_ascii_of_string head)))) in
  (if String.eqb stripped "" then head else stripped, tail).

End PyStr.

(* ===================================================================== *)
(** * JSON text                                                           *)
(* ===================================================================== *)

Module Json.
Import PyStr.

(** A decoded document.  A number keeps the text it was written with; an
    object keeps its members in document order. *)
#[warnings="-register-all"] Inductive json :=
| JNull
| JBool (b : bool)
| JNum (lexeme : string)
| JStr (s : string)
| JArr (items : list json)
| JObj (members : list (string * json)).

(** [d.get(k)] on the [dict] built from the members: when a key is
    repeated, the last member wins. *)
Fixpoint dict_get (k : string) (members : list (string * json))
  : option json :=
  match members with
  | [] => None
  | (k', v) :: rest =>
      match dict_get k rest with
      | Some v' => Some v'
      | None => if String.eqb k' k then Some v else None
      end
  end.

(** The view of a document as a list of strings, the shape the data model
    gives to the catalog and to the processed list. *)
Fixpoint as_strings (items : list json) : option (list string) :=
  match items with
  | [] => Some []
  | JStr s :: r => cons s <$> as_strings r
  | _ :: _ => None
  end.

Definition as_string_list (v : json) : option (list string) :=
  match v with
  | JArr items => as_strings items
  | _ => None
  end.

(** ** Encoding: [json.dump(obj, file, indent=4)] *)

Definition hex_digit (n : N) : ascii :=
  if (n <? 10)%N then ascii_of_N (48 + n) else ascii_of_N (87 + n).

(** One character of a string, as [ensure_ascii=True] writes it. *)
Definition encode_char (c : ascii) : string :=
  let n := N_of_ascii c in
  if (n =? 34)%N then String bslash (String dquote "")
  else if (n =? 92)%N then String bslash (String bslash "")
  else if (n =? 10)%N then String bslash "n"
  else if (n =? 13)%N then String bslash "r"
  else if (n =? 9)%N then String bslash "t"
  else if (n =? 8)%N then String bslash "b"
  else if (n =? 12)%N then String bslash "f"
  else if (32 <=? n)%N && (n <=? 126)%N then String c ""
  else String bslash
         ("u00" ++ String (hex_digit (n / 16))
                     (String (hex_digit (n mod 16)) "")).

Fixpoint encode_body (s : string) : string :=
  match s with
  | EmptyString => EmptyString
  | String c r => encode_char c ++ encode_body r
  end.

Definition encode_string (s : string) : string :=
  String dquote (encode_body s ++ String dquote "").

Fixpoint spaces (n : nat) : string :=
  match n with O => "" | S k => String " " (spaces k) end.

(** A line break followed by the indentation of nesting level [level]. *)
Definition newline_indent (level : nat) : string :=
  String newline (spaces (4 * level)).

Fixpoint encode_items (level : nat) (l : list string) : string :=
  match l with
  | [] => ""
  | [s] => encode_string s
  | s :: r =>
      encode_string s ++ "," ++ newline_indent level ++ encode_items level r
  end.

(** A list of strings at nesting level [level]. *)
Definition encode_string_list (level : nat) (l : list string) : string :=
  match l with
  | [] => "[]"
  | _ =>
      "[" ++ newline_indent (S level) ++ encode_items (S level) l
          ++ newline_indent level ++ "]"
  end.

(** The state document: [{'processed_locations': processed_locations}]
    written with [indent=4]. *)
Definition dumps_state (processed_locations : list string) : string :=
  "{" ++ newline_indent 1 ++ encode_string "processed_locations" ++ ": "
      ++ encode_string_list 1 processed_locations
      ++ newline_indent 0 ++ "}".

(** ** Decoding: [json.load(file)]

    The decoder of the Python library is a recursive-descent scanner; the
    same language is recognised here by a pushdown machine that consumes
    the text one character at a time. *)

Inductive frame :=
| FArr (rev_items : list json)
| FObj (rev_members : list (string * json)) (key : option string).

Inductive numphase :=
| NMinus | NZero | NInt | NDot | NFrac | NExp | NExpSign | NExpDigits.

Inductive mode :=
| MValue
| MArrayOpen
| MObjectOpen
| MKey
| MColon
| MAfter
| MDone (v : json)
| MString (iskey : bool) (acc : list ascii)
| MEscape (iskey : bool) (acc : list ascii)
| MUnicode (iskey : bool) (acc : list ascii) (count : nat) (code : N)
| MLiteral (rest : string) (v : json)
| MNumber (ph : numphase) (acc : list ascii).

Definition pstate : Type := mode * list frame.

Definition is_ws (c : ascii) : bool :=
  let n := N_of_ascii c in
  (n =? 32)%N || (n =? 9)%N || (n =? 10)%N || (n =? 13)%N.

Definition is_digit (c : ascii) : bool :=
  let n := N_of_ascii c in (48 <=? n)%N && (n <=? 57)%N.

Definition hex_value (c : ascii) : option N :=
  let n := N_of_ascii c in
  if (48 <=? n)%N && (n <=? 57)%N then Some (n - 48)%N
  else if (97 <=? n)%N && (n <=? 102)%N then Some (n - 87)%N
  else if (65 <=? n)%N && (n <=? 70)%N then Some (n - 55)%N
  else None.

Definition text_of (acc : list ascii) : string :=
  string_of_list_ascii (rev acc).

(** A finished value goes to the enclosing array or object, or is the
    document itself. *)
Definition deliver (v : json) (stk : list frame) : option pstate :=
  match stk with
  | [] => Some (MDone v, [])
  | FArr items :: stk' => Some (MAfter, FArr (v :: items) :: stk')
  | FObj members (Some k) :: stk' =>
      Some (MAfter, FObj ((k, v) :: members) None :: stk')
  | FObj _ None :: _ => None
  end.

Definition step_after (stk : list frame) (c : ascii) : option pstate :=
  if is_ws c then Some (MAfter, stk)
  else
    match stk with
    | FArr items :: stk' =>
        if chr_eqb c "," then Some (MValue, stk)
        else if chr_eqb c "]" then deliver (JArr (rev items)) stk'
        else None
    | FObj members None :: stk' =>
        if chr_eqb c "," then Some (MKey, stk)
        else if chr_eqb c "}" then deliver (JObj (rev members)) stk'
        else None
    | _ => None
    end.

Definition step_done (v : json) (c : ascii) : option pstate :=
  if is_ws c then Some (MDone v, []) else None.

Definition step_delim (st : pstate) (c : ascii) : option pstate :=
  match st with
  | (MAfter, stk) => step_after stk c
  | (MDone v, _) => step_done v c
  | _ => None
  end.

Definition start_value (stk : list frame) (c : ascii) : option pstate :=
  if chr_eqb c dquote then Some (MString false [], stk)
  else if chr_eqb c "{" then Some (MObjectOpen, FObj [] None :: stk)
  else if chr_eqb c "[" then Some (MArrayOpen, FArr [] :: stk)
  else if chr_eqb c "n" then Some (MLiteral "ull" JNull, stk)
  else if chr_eqb c "t" then Some (MLiteral "rue" (JBool true), stk)
  else if chr_eqb c "f" then Some (MLiteral "alse" (JBool false), stk)
  else if chr_eqb c "N" then Some (MLiteral "aN" (JNum "NaN"), stk)
  else if chr_eqb c "I" then Some (MLiteral "nfinity" (JNum "Infinity"), stk)
  else if chr_eqb c "-" then Some (MNumber NMinus [c], stk)
  else if chr_eqb c "0" then Some (MNumber NZero [c], stk)
  else if is_digit c then Some (MNumber NInt [c], stk)
  else None.

Definition finish_string (iskey : bool) (s : string) (stk : list frame)
  : option pstate :=
  if iskey then
    match stk with
    | FObj members None :: stk' => Some (MColon, FObj members (Some s) :: stk')
    | _ => None
    end
  else deliver (JStr s) stk.

Definition step_escape (iskey : bool) (acc : list ascii) (stk : list frame)
           (c : ascii) : option pstate :=
  let plain (d : ascii) := Some (MString iskey (d :: acc), stk) in
  if chr_eqb c dquote then plain dquote
  else if chr_eqb c bslash then plain bslash
  else if chr_eqb c "/" then plain "/"%char
  else if chr_eqb c "b" then plain "008"%char
  else if chr_eqb c "f" then plain "012"%char
  else if chr_eqb c "n" then plain "010"%char
  else if chr_eqb c "r" then plain "013"%char
  else if chr_eqb c "t" then plain "009"%char
  else if chr_eqb c "u" then Some (MUnicode iskey acc 0 0%N, stk)
  else None.

(** The fourth hexadecimal digit completes the code point; one that is
    not below 256 has no counterpart in a Rocq string and is refused. *)
Definition step_unicode (iskey : bool) (acc : list ascii) (count : nat)
           (code : N) (stk : list frame) (c : ascii) : option pstate :=
  match hex_value c with
  | None => None
  | Some d =>
      let code' := (code * 16 + d)%N in
      if decide (count = 3) then
        if (code' <? 256)%N
        then Some (MString iskey (ascii_of_N code' :: acc), stk)
        else None
      else Some (MUnicode iskey acc (S count) code', stk)
  end.

Definition num_complete (ph : numphase) : bool :=
  match ph with
  | NZero | NInt | NFrac | NExpDigits => true
  | NMinus | NDot | NExp | NExpSign => false
  end.

Definition is_exp (c : ascii) : bool := chr_eqb c "e" || chr_eqb c "E".

Definition step_number (ph : numphase) (acc : list ascii)
           (stk : list frame) (c : ascii) : option pstate :=
  let continue (ph' : numphase) := Some (MNumber ph' (c :: acc), stk) in
  let finish :=
    if num_complete ph
    then st ← deliver (JNum (text_of acc)) stk; step_delim st c
    else None in
  match ph with
  | NMinus =>
      if chr_eqb c "0" then continue NZero
      else if is_digit c then continue NInt
      else if chr_eqb c "I"
      then Some (MLiteral "nfinity" (JNum "-Infinity"), stk)
      else None
  | NZero =>
      if chr_eqb c "." then continue NDot
      else if is_exp c then continue NExp
      else finish
  | NInt =>
      if is_digit c then continue NInt
      else if chr_eqb c "." then continue NDot
      else if is_exp c then continue NExp
      else finish
  | NDot => if is_digit c then continue NFrac else None
  | NFrac =>
      if is_digit c then continue NFrac
      else if is_exp c then continue NExp
      else finish
  | NExp =>
      if chr_eqb c "+" || chr_eqb c "-" then continue NExpSign
      else if is_digit c then continue NExpDigits
      else None
  | NExpSign => if is_digit c then continue NExpDigits else None
  | NExpDigits => if is_digit c then continue NExpDigits else finish
  end.

Definition step (st : pstate) (c : ascii) : option pstate :=
  let '(m, stk) := st in
  match m with
  | MValue => if is_ws c then Some st else start_value stk c
  | MArrayOpen =>
      if is_ws c then Some st
      else if chr_eqb c "]" then
        match stk with
        | FArr _ :: stk' => deliver (JArr []) stk'
        | _ => None
        end
      else start_value stk c
  | MObjectOpen =>
      if is_ws c then Some st
      else if chr_eqb c "}" then
        match stk with
        | FObj _ None :: stk' => deliver (JObj []) stk'
        | _ => None
        end
      else if chr_eqb c dquote then Some (MString true [], stk)
      else None
  | MKey =>
      if is_ws c then Some st
      else if chr_eqb c dquote then Some (MString true [], stk)
      else None
  | MColon =>
      if is_ws c then Some st
      else if chr_eqb c ":" then Some (MValue, stk)
      else None
  | MAfter => step_after stk c
  | MDone v => step_done v c
  | MString iskey acc =>
      if chr_eqb c dquote then finish_string iskey (text_of acc) stk
      else if chr_eqb c bslash then Some (MEscape iskey acc, stk)
      else if (N_of_ascii c <? 32)%N then None
      else Some (MString iskey (c :: acc), stk)
  | MEscape iskey acc => step_escape iskey acc stk c
  | MUnicode iskey acc count code => step_unicode iskey acc count code stk c
  | MLiteral rest v =>
      match rest with
      | String c' r =>
          if chr_eqb c c' then
            match r with
            | EmptyString => deliver v stk
            | _ => Some (MLiteral r v, stk)
            end
          else None
      | EmptyString => None
      end
  | MNumber ph acc => step_number ph acc stk c
  end.

Fixpoint run (st : pstate) (s : string) : option pstate :=
  match s with
  | EmptyString => Some st
  | String c r => st' ← step st c; run st' r
  end.

(** At the end of the text the document must be complete. *)
Definition finish (st : pstate) : option json :=
  match st with
  | (MDone v, []) => Some v
  | (MNumber ph acc, []) =>
      if num_complete ph then Some (JNum (text_of acc)) else None
  | _ => None
  end.

(** [json.loads(text)]; [None] is [JSONDecodeError]. *)
Definition loads (text : string) : option json :=
  st ← run (MValue, []) text; finish st.

(** ** Notions used to reason about the machine *)

(** Modes in which white space is skipped. *)
Definition skips_ws (m : mode) : bool :=
  match m with
  | MValue | MArrayOpen | MObjectOpen | MKey | MColon | MAfter => true
  | _ => false
  end.

(** A string literal read where a value may start. *)
Definition starts_value (m : mode) : bool :=
  match m with MValue | MArrayOpen => true | _ => false end.

Definition state_doc (processed_locations : list string) : json :=
  JObj [("processed_locations", JArr (JStr <$> processed_locations))].

(** The states in which the document is complete; from there, only white
    space or the rest of a number can follow. *)
Definition settled (st : pstate) : bool :=
  match st with
  | (MDone _, []) => true
  | (MNumber ph _, []) =>
      match ph with NMinus => false | _ => true end
  | _ => false
  end.

End Json.


(* ===================================================================== *)
(** * The file system                                                     *)
(* ===================================================================== *)

Module Fs.
Import PyStr.

(** An entry is addressed by the path string the script builds for it: no
    normalisation of [.], [..] or repeated separators, no links.  A
    directory carries its listing, in the order [os.listdir] returns it. *)
Inductive node :=
| Dir (names : list string)
| File (data : string).

Abbreviation fs := (gmap string node).

(** What the operating system may answer with, besides what the entries
    themselves decide.  A write that [FailsAfter k] gets [k] characters
    through before the error; a text that short is written whole. *)
Inductive write_fault :=
| WriteOk
| OpenFails
| FailsAfter (k : nat).

Record faults := Faults {
  read_fault : string -> bool;
  write_fault_at : string -> write_fault;
  mkdir_fault : string -> bool;
  copy_fault : string -> string -> bool
}.

Definition no_faults : faults :=
  Faults (fun _ => false) (fun _ => WriteOk) (fun _ => false)
         (fun _ _ => false).

(** [os.path.exists], [os.path.isdir], [os.path.isfile], [os.listdir]. *)
Definition exists_ (p : string) (d : fs) : bool :=
  match d !! p with Some _ => true | None => false end.

Definition isdir (p : string) (d : fs) : bool :=
  match d !! p with Some (Dir _) => true | _ => false end.

Definition isfile (p : string) (d : fs) : bool :=
  match d !! p with Some (File _) => true | _ => false end.

Definition listdir (p : string) (d : fs) : option (list string) :=
  match d !! p with Some (Dir names) => Some names | _ => None end.

(** A new entry also appears in the listing of its directory, when that
    directory is an entry. *)
Definition add_entry (p : string) (nd : node) (d : fs) : fs :=
  let '(parent, name) := path_split p in
  let d' :=
    match d !! parent with
    | Some (Dir names) =>
        if mem name names then d
        else <[parent := Dir (names ++ [name])%list]> d
    | _ => d
    end in
  <[p := nd]> d'.

(** [open(p, 'r').read()]; [None] is [OSError]. *)
Definition read_text (flt : faults) (p : string) (d : fs) : option string :=
  if read_fault flt p then None
  else match d !! p with Some (File data) => Some data | _ => None end.

(** [open(p, 'w')] followed by the writes and the close.  Opening
    truncates the file; the flag tells whether every character got
    through. *)
Definition write_text (flt : faults) (p text : string) (d : fs) : bool * fs :=
  match d !! p with
  | Some (Dir _) => (false, d)
  | _ =>
      match write_fault_at flt p with
      | OpenFails => (false, d)
      | WriteOk => (true, add_entry p (File text) d)
      | FailsAfter k =>
          if decide (k < String.length text)
          then (false, add_entry p (File (substring 0 k text)) d)
          else (true, add_entry p (File text) d)
      end
  end.

(** [os.makedirs(p, exist_ok=...)]; [None] is [OSError].  Missing
    ancestors are not entries of their own. *)
Definition makedirs (flt : faults) (exist_ok : bool) (p : string) (d : fs)
  : option fs :=
  match d !! p with
  | Some (Dir _) => if exist_ok then Some d else None
  | Some (File _) => None
  | None => if mkdir_fault flt p then None else Some (add_entry p (Dir []) d)
  end.

(** [shutil.copy2(src, dst)]; [None] is an error, which leaves the entries
    as they were.  Metadata is not part of the model. *)
Definition copy2 (flt : faults) (src dst : string) (d : fs) : option fs :=
  if copy_fault flt src dst then None
  else
    match d !! src with
    | Some (File data) =>
        let dst' :=
          if isdir dst d then path_join dst (snd (path_split src)) else dst in
        if String.eqb src dst' then None
        else if isdir dst' d then None
        else Some (add_entry dst' (File data) d)
    | _ => None
    end.

End Fs.

(* ===================================================================== *)
(** * The script                                                          *)
(* ===================================================================== *)

Module Reap.
Import PyStr Json Fs.
Local Open Scope list_scope.

Record config := Config {
  source_dir : string;
  target_dir : string;
  locations_json : string;
  state_file : string;
  batch_size : Z;
  images_per_folder : Z
}.

(** One constructor per [print] of the script. *)
Inductive msg :=
| MsgErrorLoadingLocations
| MsgErrorLoadingState
| MsgErrorSavingState
| MsgTotalLocations (n : nat)
| MsgAlreadyProcessed (n : nat)
| MsgAllProcessed
| MsgProcessing (n first last : nat)
| MsgTotalFolders (n : nat)
| MsgNoFolders
| MsgFolderExists (name : string)
| MsgCreated (path : string)
| MsgErrorCreating (name : string)
| MsgSelecting (folder : string)
| MsgNotEnough (folder : string) (needed : Z) (found : nat)
| MsgCopied (image name : string)
| MsgErrorCopying (image name : string)
| MsgFinished (location name : string)
| MsgBatchComplete (n : nat)
| MsgNoSourceDir (path : string)
| MsgNoJsonFile (path : string).

Inductive exn :=
| IndexError
| ValueError
| ZeroDivisionError
| OSError.

(** How a run ends: [main] returns, [sys.exit] is called, an exception
    reaches the top, or a document does not have the shape of the data
    model (a list of strings), where the model says nothing. *)
Inductive outcome :=
| Returned
| Exited (status : Z)
| Raised (e : exn)
| Unmodelled.

Definition exit_status (o : outcome) : Z :=
  match o with
  | Returned => 0
  | Exited status => status
  | Raised _ => 1
  | Unmodelled => 1
  end.

Record world := World {
  files : gmap string node;
  out : list msg
}.

Inductive res (A : Type) :=
| Val (a : A)
| Halt (o : outcome).
Arguments Val {A} a.
Arguments Halt {A} o.

Definition M (A : Type) : Type := world -> res A * world.

Definition ret {A} (a : A) : M A := fun w => (Val a, w).

Definition bind {A B} (m : M A) (k : A -> M B) : M B :=
  fun w =>
    match m w with
    | (Val a, w') => k a w'
    | (Halt o, w') => (Halt o, w')
    end.

Definition halt {A} (o : outcome) : M A := fun w => (Halt o, w).

Definition print (m : msg) : M unit :=
  fun w => (Val tt, World (files w) (out w ++ [m])).

Definition get_files : M (gmap string node) := fun w => (Val (files w), w).

Definition put_files (d : gmap string node) : M unit :=
  fun w => (Val tt, World d (out w)).

Notation "x <- m ;; k" := (bind m (fun x => k))
  (at level 100, m at next level, right associativity, only parsing).
Notation "m ;;; k" := (bind m (fun _ => k))
  (at level 100, right associativity, only parsing).

Section Script.
Variable flt : faults.

(** [load_locations(json_path)].  [read_locations] is the body of its
    [try]: [None] stands for any exception raised there. *)
Definition read_locations (json_path : string) (d : fs) : option json :=
  text ← read_text flt json_path d;
  data ← loads text;
  match data with
  | JObj members => dict_get "locations" members
  | _ => None
  end.

Definition load_locations (json_path : string) : M json :=
  d <- get_files ;;
  match read_locations json_path d with
  | Some locations => ret locations
  | None => print MsgErrorLoadingLocations ;;; halt (Exited 1)
  end.

(** [load_state(state_path)].  [read_state] is the body of its [try]. *)
Definition read_state (state_path : string) (d : fs) : option json :=
  text ← read_text flt state_path d;
  state ← loads text;
  match state with
  | JObj members =>
      Some (default (JArr []) (dict_get "processed_locations" members))
  | _ => None
  end.

Definition load_state (state_path : string) : M json :=
  d <- get_files ;;
  if negb (exists_ state_path d) then ret (JArr [])
  else
    match read_state state_path d with
    | Some processed => ret processed
    | None => print MsgErrorLoadingState ;;; halt (Exited 1)
    end.

(** [save_state(state_path, processed_locations)] *)
Definition save_state (state_path : string) (processed_locations : list string)
  : M unit :=
  d <- get_files ;;
  let '(ok, d') :=
    write_text flt state_path (dumps_state processed_locations) d in
  put_files d' ;;;
  if ok then ret tt
  else print MsgErrorSavingState ;;; halt (Exited 1).

(** An [OSError] that nothing catches ends the run. *)
Definition lift_os {A} (o : option A) : M A :=
  match o with
  | Some a => ret a
  | None => halt (Raised OSError)
  end.

(** [get_original_folders(source_dir)]: the list comprehension, then the
    function in the monad. *)
Definition original_folders_in (source_dir : string) (d : fs)
  : option (list string) :=
  names ← listdir source_dir d;
  Some (List.filter (fun f => isdir (path_join source_dir f) d) names).

Definition get_original_folders (source_dir : string) : M (list string) :=
  d <- get_files ;;
  lift_os (original_folders_in source_dir d).

Definition image_extensions : list string :=
  [".jpg"; ".jpeg"; ".png"; ".gif"; ".bmp"; ".tiff"].

(** [get_image_files(folder_path)] *)
Definition image_files_in (folder_path : string) (d : fs)
  : option (list string) :=
  names ← listdir folder_path d;
  Some (sorted
          (List.filter
             (fun f => isfile (path_join folder_path f) d
                       && mem (lower (splitext_ext f)) image_extensions)
             names)).

Definition get_image_files (folder_path : string) : M (list string) :=
  d <- get_files ;;
  lift_os (image_files_in folder_path d).

Definition invalid_chars : string :=
  ("<>:" ++ String dquote ("/" ++ String bslash "|?*"))%string.

(** [sanitize_folder_name(folder_name)]: one [replace] per invalid
    character, in the order of [invalid_chars]. *)
Fixpoint sanitize_with (chars : string) (folder_name : string) : string :=
  match chars with
  | EmptyString => folder_name
  | String char rest => sanitize_with rest (replace_char char "_" folder_name)
  end.

Definition sanitize_folder_name (folder_name : string) : string :=
  sanitize_with invalid_chars folder_name.

(** The typed view of a loaded document. *)
Definition typed (v : json) : M (list string) :=
  match as_string_list v with
  | Some l => ret l
  | None => halt Unmodelled
  end.

(** Lines 107 to 114 of [main]: the next batch. *)
Definition unprocessed_locations (locations processed_locations : list string)
  : list string :=
  List.filter (fun loc => negb (mem loc processed_locations)) locations.

Definition current_batch (cfg : config)
           (locations processed_locations : list string) : list string :=
  slice_to (batch_size cfg)
           (unprocessed_locations locations processed_locations).

(** Line 151: the original folder of the location at batch index [i]. *)
Definition original_folder_for (original_folders : list string) (i : nat)
  : option string :=
  original_folders !! (i mod length original_folders).

(** Lines 157 to 161: the images taken from a folder. *)
Definition select_images (cfg : config) (images : list string) : list string :=
  if (Z.of_nat (length images) <? images_per_folder cfg)%Z then images
  else slice_to (images_per_folder cfg) images.

(** Lines 164 to 171: the copy loop. *)
Fixpoint copy_images
         (original_folder_path new_folder_path new_folder_name : string)
         (selected_images : list string) : M unit :=
  match selected_images with
  | [] => ret tt
  | image :: rest =>
      let src_image_path := path_join original_folder_path image in
      let dest_image_path := path_join new_folder_path image in
      d <- get_files ;;
      match copy2 flt src_image_path dest_image_path d with
      | Some d' => put_files d' ;;; print (MsgCopied image new_folder_name)
      | None => print (MsgErrorCopying image new_folder_name)
      end ;;;
      copy_images original_folder_path new_folder_path new_folder_name rest
  end.

(** Lines 152 to 176: the folder is new; it is filled from
    [original_folder] and the location is marked. *)
Definition fill_folder (cfg : config) (original_folder location : string)
           (new_folder_name new_folder_path : string)
           (processed_locations : list string) : M (list string) :=
  let original_folder_path := path_join (source_dir cfg) original_folder in
  print (MsgSelecting original_folder) ;;;
  images <- get_image_files original_folder_path ;;
  (if (Z.of_nat (length images) <? images_per_folder cfg)%Z
   then print (MsgNotEnough original_folder
                 (images_per_folder cfg) (length images))
   else ret tt) ;;;
  copy_images original_folder_path new_folder_path new_folder_name
              (select_images cfg images) ;;;
  print (MsgFinished location new_folder_name) ;;;
  ret (processed_locations ++ [location]).

(** The folder of a location (lines 132 to 134). *)
Definition folder_path (cfg : config) (location : string) : string :=
  path_join (target_dir cfg) (sanitize_folder_name location).

(** Lines 131 to 176: the body of the loop, for the location at batch
    index [i].  The result is the list of processed locations after it. *)
Definition process_location (cfg : config) (original_folders : list string)
           (i : nat) (location : string) (processed_locations : list string)
  : M (list string) :=
  let sanitized_location := sanitize_folder_name location in
  let new_folder_name := sanitized_location in
  let new_folder_path := path_join (target_dir cfg) new_folder_name in
  d <- get_files ;;
  if exists_ new_folder_path d then
    print (MsgFolderExists new_folder_name) ;;;
    ret (processed_locations ++ [location])
  else
    match makedirs flt false new_folder_path d with
    | None =>
        print (MsgErrorCreating new_folder_name) ;;;
        ret processed_locations
    | Some d' =>
        put_files d' ;;;
        print (MsgCreated new_folder_path) ;;;
        match length original_folders with
        | O => halt (Raised ZeroDivisionError)
        | S _ =>
            match original_folder_for original_folders i with
            | None => halt (Raised IndexError)
            | Some original_folder =>
                fill_folder cfg original_folder location new_folder_name
                            new_folder_path processed_locations
            end
        end
    end.

(** Line 130: [for i, location in enumerate(current_batch)], from index
    [i] on. *)
Fixpoint process_batch (cfg : config) (original_folders : list string)
         (i : nat) (batch : list string) (processed_locations : list string)
  : M (list string) :=
  match batch with
  | [] => ret processed_locations
  | location :: rest =>
      processed' <- process_location cfg original_folders i location
                                     processed_locations ;;
      process_batch cfg original_folders (S i) rest processed'
  end.

(** Lines 117 to 180 of [main]: the batch is materialised and the
    progress recorded. *)
Definition materialise_batch (cfg : config)
           (batch processed_locations : list string) : M unit :=
  original_folders <- get_original_folders (source_dir cfg) ;;
  print (MsgTotalFolders (length original_folders)) ;;;
  match original_folders with
  | [] => print MsgNoFolders ;;; halt Returned
  | _ :: _ =>
      d <- get_files ;;
      match makedirs flt true (target_dir cfg) d with
      | None => halt (Raised OSError)
      | Some d' => put_files d'
      end ;;;
      processed' <- process_batch cfg original_folders 0 batch
                                  processed_locations ;;
      save_state (state_file cfg) processed' ;;;
      print (MsgBatchComplete (length batch))
  end.

(** Lines 107 to 115 of [main]: the batch is planned, then handed over. *)
Definition run_batch (cfg : config)
           (locations processed_locations : list string) : M unit :=
  match unprocessed_locations locations processed_locations with
  | [] => print MsgAllProcessed ;;; halt Returned
  | _ :: _ =>
      let batch := current_batch cfg locations processed_locations in
      match batch, last batch with
      | first :: _, Some final =>
          match index first locations, index final locations with
          | Some a, Some b => print (MsgProcessing (length batch) a b)
          | _, _ => halt (Raised ValueError)
          end
      | _, _ => halt (Raised IndexError)
      end ;;;
      materialise_batch cfg batch processed_locations
  end.

(** [main(config)] *)
Definition main (cfg : config) : M unit :=
  locations_doc <- load_locations (locations_json cfg) ;;
  locations <- typed locations_doc ;;
  print (MsgTotalLocations (length locations)) ;;;
  processed_doc <- load_state (state_file cfg) ;;
  processed_locations <- typed processed_doc ;;
  print (MsgAlreadyProcessed (length processed_locations)) ;;;
  run_batch cfg locations processed_locations.

(** What a run loads, in the typed view: the catalog and the processed
    list, as lines 99 and 104 obtain them. *)
Definition read_catalog (cfg : config) (d : fs) : option (list string) :=
  read_locations (locations_json cfg) d ≫= as_string_list.

Definition read_processed (cfg : config) (d : fs) : option (list string) :=
  if negb (exists_ (state_file cfg) d) then Some []
  else read_state (state_file cfg) d ≫= as_string_list.

(** The copies a log reports. *)
Definition is_copy (m : msg) : bool :=
  match m with MsgCopied _ _ => true | _ => false end.

Definition copies (log : list msg) : list msg := List.filter is_copy log.

(** The [__main__] block, once the configuration is known: the two path
    checks, then [main]. *)
Definition script (cfg : config) : M unit :=
  d <- get_files ;;
  if negb (exists_ (source_dir cfg) d) then
    print (MsgNoSourceDir (source_dir cfg)) ;;; halt (Exited 1)
  else if negb (exists_ (locations_json cfg) d) then
    print (MsgNoJsonFile (locations_json cfg)) ;;; halt (Exited 1)
  else main cfg.

(** A whole run: how it ends, and the world it leaves. *)
Definition run_of (m : M unit) (w : world) : outcome * world :=
  match m w with
  | (Val _, w') => (Returned, w')
  | (Halt o, w') => (o, w')
  end.

Definition run_main (cfg : config) (w : world) : outcome * world :=
  run_of (main cfg) w.

Definition run_script (cfg : config) (w : world) : outcome * world :=
  run_of (script cfg) w.

End Script.

End Reap.

(* ===================================================================== *)
(** * A scenario                                                          *)
(* ===================================================================== *)

Module Scenario.
Import PyStr Json Fs Reap.
Local Open Scope list_scope.

(** A catalog of three locations, a pool of two folders with images, and
    a state file that records the first location. *)
Definition catalog_text : string :=
  ("{" ++ encode_string "locations" ++ ": ["
       ++ encode_string "A" ++ ", " ++ encode_string "B" ++ ", "
       ++ encode_string "C" ++ "]}")%string.

Definition source_entries : list (string * node) :=
  [("src", Dir ["S1"; "S2"; "notes.txt"]);
   ("src/notes.txt", File "n");
   ("src/S1", Dir ["y.png"; "x.jpg"; "z.gif"]);
   ("src/S1/x.jpg", File "x1");
   ("src/S1/y.png", File "y1");
   ("src/S1/z.gif", File "z1");
   ("src/S2", Dir ["p.JPG"]);
   ("src/S2/p.JPG", File "p2")].

Definition disk : gmap string node :=
  list_to_map
    (("locations.json", File catalog_text)
       :: ("state.json", File (dumps_state ["A"]))
       :: source_entries).

(** The same, with every location recorded. *)
Definition disk_done : gmap string node :=
  <["state.json" := File (dumps_state ["A"; "B"; "C"])]> disk.

(** The same, with the folder of location B already there. *)
Definition disk_with_B : gmap string node :=
  <["out/B" := Dir []]> (<["out" := Dir ["B"]]> disk).

(** A source directory without folders. *)
Definition disk_no_folders : gmap string node :=
  list_to_map
    [("locations.json", File catalog_text);
     ("src", Dir ["notes.txt"]);
     ("src/notes.txt", File "n")].

(** A state file that holds a JSON array. *)
Definition disk_array_state : gmap string node :=
  <["state.json" := File "[]"]> disk.

(** A state file that holds an object without the expected member. *)
Definition disk_other_state : gmap string node :=
  <["state.json" := File "{}"]> disk.

Definition cfg (size : Z) : config :=
  Config "src" "out" "locations.json" "state.json" size 2.

Definition start (d : gmap string node) : world := World d [].

(** The folder of location B cannot be created. *)
Definition faults_mkdir_B : faults :=
  Faults (fun _ => false) (fun _ => WriteOk)
         (fun p => String.eqb p "out/B") (fun _ _ => false).

(** The device fails after ten characters of the state file. *)
Definition faults_write : faults :=
  Faults (fun _ => false)
         (fun p => if String.eqb p "state.json" then FailsAfter 10 else WriteOk)
         (fun _ => false) (fun _ _ => false).

(** The worlds that runs of the script leave. *)
Definition after_first_of_two : world :=
  Eval vm_compute in (run_main no_faults (cfg 1) (start disk)).2.

Definition after_covering : world :=
  Eval vm_compute in (run_main no_faults (cfg 2) (start disk)).2.

Definition after_failed_save : world :=
  Eval vm_compute in
    (save_state faults_write "state.json" ["A"; "B"] (start disk)).2.

(** Nothing is recorded, and the folders of locations A and C are
    there. *)
Definition disk_skips : gmap string node :=
  <["out/A" := Dir []]>
    (<["out/C" := Dir []]>
       (<["out" := Dir ["A"; "C"]]>
          (<["state.json" := File (dumps_state [])]> disk))).

(** The source directory without the catalog file. *)
Definition disk_no_catalog : gmap string node :=
  list_to_map (("state.json", File (dumps_state ["A"])) :: source_entries).

End Scenario.

(* ===================================================================== *)
(** * The configuration                                                   *)
(* ===================================================================== *)

Module Setup.
Import PyStr Fs Reap.
Local Open Scope list_scope.

(** [s.strip()]: the characters below 256 that [str.isspace] accepts. *)
Definition is_space (c : ascii) : bool :=
  let n := N_of_ascii c in
  ((9 <=? n)%N && (n <=? 13)%N) || ((28 <=? n)%N && (n <=? 32)%N)
  || (n =? 133)%N || (n =? 160)%N.

Fixpoint lstrip_chars (l : list ascii) : list ascii :=
  match l with
  | c :: r => if is_space c then lstrip_chars r else l
  | [] => []
  end.

Definition strip (s : string) : string :=
  string_of_list_ascii
    (rev (lstrip_chars (rev (lstrip_chars (list_ascii_of_string s))))).

(** A Python value used as a condition: [None] and the empty string are
    false. *)
Definition truthy (value : option string) : bool :=
  match value with
  | Some s => negb (String.eqb s "")
  | None => false
  end.

(** What the console shows while the configuration is asked for: the
    prompt of an [input], or the line of line 26. *)
Inductive shown :=
| AskWithDefault (prompt_text default : string)
| Ask (prompt_text : string)
| FieldRequired.

(** The terminal: the lines still to be read, and what was shown. *)
Record console := Console {
  stdin : list string;
  screen : list shown
}.

(** [input(prompt)]; [None] is [EOFError], at the end of the input. *)
Definition input (p : shown) (c : console) : option string * console :=
  match stdin c with
  | [] => (None, Console [] (screen c ++ [p]))
  | line :: rest => (Some line, Console rest (screen c ++ [p]))
  end.

(** Lines 25 to 28: the loop of a required field, entered with the answer
    read so far. *)
Fixpoint required_loop (prompt_text user_input : string)
         (lines : list string) (scr : list shown) : option string * console :=
  if negb (String.eqb user_input "") then (Some user_input, Console lines scr)
  else
    match lines with
    | [] => (None, Console [] (scr ++ [FieldRequired; Ask prompt_text]))
    | line :: rest =>
        required_loop prompt_text (strip line) rest
                      (scr ++ [FieldRequired; Ask prompt_text])
    end.

(** [get_env_variable(var_name, prompt_text, default=None)], with the
    environment as [os.getenv] sees it. *)
Definition get_env_variable (env : gmap string string)
           (var_name prompt_text : string) (default : option string)
           (c : console) : option string * console :=
  let value := env !! var_name in
  if negb (truthy value) then
    if truthy default then
      let d := from_option id "" default in
      match input (AskWithDefault prompt_text d) c with
      | (None, c') => (None, c')
      | (Some line, c') =>
          let user_input := strip line in
          (Some (if negb (String.eqb user_input "") then user_input else d),
           c')
      end
    else
      match input (Ask prompt_text) c with
      | (None, c') => (None, c')
      | (Some line, c') =>
          required_loop prompt_text (strip line) (stdin c') (screen c')
      end
  else (value, c).

(** The two ways in which the configuration may fail to be obtained. *)
Inductive setup_error :=
| EOFError
| ValueError.

Section Retrieve.

(** The builtin [int] on a string; [None] is [ValueError]. *)
Variable int : string -> option Z.

(** [retrieve_config()] of the [__main__] block. *)
Definition retrieve_config (env : gmap string string) (c : console)
  : (setup_error + config) * console :=
  match get_env_variable env "SOURCE_DIR"
          "Enter the path to the source directory containing original folders"
          None c with
  | (None, c1) => (inl EOFError, c1)
  | (Some source_dir, c1) =>
  match get_env_variable env "TARGET_DIR"
          ("Enter the path to the target directory "
             ++ "where new folders will be created")%string
          None c1 with
  | (None, c2) => (inl EOFError, c2)
  | (Some target_dir, c2) =>
  match get_env_variable env "LOCATIONS_JSON"
          "Enter the path to the locations.json file" None c2 with
  | (None, c3) => (inl EOFError, c3)
  | (Some locations_json, c3) =>
  match get_env_variable env "STATE_FILE"
          "Enter the path to the state file" (Some "state.json") c3 with
  | (None, c4) => (inl EOFError, c4)
  | (Some state_file, c4) =>
  match get_env_variable env "BATCH_SIZE"
          "Enter the number of folders to process per run" (Some "20") c4 with
  | (None, c5) => (inl EOFError, c5)
  | (Some batch_text, c5) =>
  match int batch_text with
  | None => (inl ValueError, c5)
  | Some batch_size =>
  match get_env_variable env "IMAGES_PER_FOLDER"
          "Enter the number of images to copy per new folder" (Some "6") c5 with
  | (None, c6) => (inl EOFError, c6)
  | (Some images_text, c6) =>
  match int images_text with
  | None => (inl ValueError, c6)
  | Some images_per_folder =>
      (inr (Config source_dir target_dir locations_json state_file
                   batch_size images_per_folder), c6)
  end end end end end end end end.

End Retrieve.

End Setup.

(* ===================================================================== *)
(** * Notions used to state the properties                                *)
(* ===================================================================== *)

Module Notions.
Import PyStr Json Fs Reap.
Local Open Scope list_scope.

(** One pass over a name that replaces each invalid character. *)
Definition sanitize_char (c : ascii) : ascii :=
  if mem_char c invalid_chars then "_"%char else c.

Fixpoint map_chars (f : ascii -> ascii) (s : string) : string :=
  match s with
  | EmptyString => EmptyString
  | String c r => String (f c) (map_chars f r)
  end.

(** No entry is lost from one file system to the other. *)
Definition grows (d d' : gmap string node) : Prop :=
  forall p, exists_ p d = true -> exists_ p d' = true.

(** From one world to a later one: no entry is lost and the log is
    extended. *)
Definition advances (w w' : world) : Prop :=
  grows (files w) (files w') /\ out w `prefix_of` out w'.

(** A computation that only advances the world. *)
Definition steady {A} (m : M A) : Prop :=
  forall w, advances w (m w).2.

(** The order of [sorted] on names. *)
Definition name_le (a b : string) : Prop := String.leb a b = true.

(** The test of the comprehension of [get_image_files]. *)
Definition is_image (folder_path : string) (d : gmap string node)
           (f : string) : bool :=
  isfile (path_join folder_path f) d
  && mem (lower (splitext_ext f)) image_extensions.

(** The report of the copy of one image. *)
Definition copy_report (new_folder_name image : string) (m : msg) : Prop :=
  m = MsgCopied image new_folder_name
  \/ m = MsgErrorCopying image new_folder_name.

(** A computation that only stops early with an outcome that [Q]
    accepts. *)
Definition ends_with {A} (Q : outcome -> Prop) (m : M A) : Prop :=
  forall w o w', m w = (Halt o, w') -> Q o.

(** The two roundings of the ratio of batch size to pool size. *)
Definition floor_div (a b : nat) : nat := a / b.
Definition ceil_div (a b : nat) : nat := (a + b - 1) / b.

(** The batch positions below [size] whose remainder by the size of the
    pool is [j]. *)
Definition batch_positions (pool : list string) (size j : nat) : list nat :=
  List.filter (fun i => Nat.eqb (i mod length pool) j) (seq 0 size).

(** ** The log of the loop

    Each location of the batch that the loop visits leaves one of three
    lines in the log: the folder exists (line 138), the folder is created
    (line 145), or it cannot be created (line 147).  The line of line 153
    names the original folder chosen at line 151. *)
Definition visit (m : msg) : bool :=
  match m with
  | MsgFolderExists _ | MsgCreated _ | MsgErrorCreating _ => true
  | _ => false
  end.

(** The location is passed over: lines 138 and 147. *)
Definition skip (m : msg) : bool :=
  match m with
  | MsgFolderExists _ | MsgErrorCreating _ => true
  | _ => false
  end.

Definition selected (m : msg) : option string :=
  match m with
  | MsgSelecting original_folder => Some original_folder
  | _ => None
  end.

Definition visits (log : list msg) : nat := length (List.filter visit log).

Definition skips (log : list msg) : nat := length (List.filter skip log).

(** The original folders that a log selects, in order. *)
Definition selections (log : list msg) : list string := omap selected log.

(** The number of locations that a log gives the original folder
    [folder]. *)
Definition served (folder : string) (log : list msg) : nat :=
  length (List.filter (String.eqb folder) (selections log)).

(** The selections of a log with the batch index of the location each is
    made for: the number of locations visited before that location, from
    [i] at the start of the log. *)
Fixpoint assignments (i : nat) (log : list msg) : list (nat * string) :=
  match log with
  | [] => []
  | MsgSelecting original_folder :: rest =>
      (pred i, original_folder) :: assignments i rest
  | m :: rest => assignments (if visit m then S i else i) rest
  end.

(** A line that is neither. *)
Definition quiet (m : msg) : bool :=
  match m with
  | MsgFolderExists _ | MsgCreated _ | MsgErrorCreating _
  | MsgSelecting _ => false
  | _ => true
  end.

(** The original folders by batch position, for the [k] positions from
    [i] on. *)
Definition cycle (pool : list string) (i k : nat) : list string :=
  omap (fun n => pool !! (n mod length pool)) (seq i k).

(** The line that the loop leaves for a location that it visits. *)
Definition visit_line (cfg : config) (m : msg) (location : string) : Prop :=
  m = MsgFolderExists (sanitize_folder_name location)
  \/ m = MsgCreated (folder_path cfg location)
  \/ m = MsgErrorCreating (sanitize_folder_name location).

(** The [k]-th location that the log visits is the [k]-th of [visited],
    and its line is the creation of its folder. *)
Definition created_at (cfg : config) (visited : list string)
           (log : list msg) (k : nat) : Prop :=
  exists location,
    visited !! k = Some location
    /\ List.filter visit log !! k
       = Some (MsgCreated (folder_path cfg location)).

(** What the log of the loop is like, over the locations [visited] from
    batch index [i] on. *)
Definition loop_log (cfg : config) (pool : list string) (i : nat)
           (visited : list string) (log : list msg) : Prop :=
  Forall2 (visit_line cfg) (List.filter visit log) visited
  /\ Forall (fun a => i <= a.1
                      /\ created_at cfg visited log (a.1 - i)
                      /\ pool !! (a.1 mod length pool) = Some a.2)
            (assignments i log)
  /\ sublist (selections log) (cycle pool i (length visited))
  /\ (skips log = 0 -> selections log = cycle pool i (length visited)).

End Notions.


(* ===================================================================== *)
(** * A scenario for the configuration                                    *)
(* ===================================================================== *)

Module SetupScenario.
Import PyStr Fs Reap Setup.
Local Open Scope list_scope.

(** A reading of plain decimal numerals, to stand for [int]. *)
Fixpoint digits_value (acc : Z) (s : string) : option Z :=
  match s with
  | EmptyString => Some acc
  | String c r =>
      let n := N_of_ascii c in
      if (48 <=? n)%N && (n <=? 57)%N
      then digits_value (10 * acc + Z.of_N (n - 48)) r
      else None
  end.

Definition decimal (s : string) : option Z :=
  match s with
  | EmptyString => None
  | _ => digits_value 0 s
  end.

(** Every variable is in the environment. *)
Definition full_env : gmap string string :=
  list_to_map
    [("SOURCE_DIR", "src"); ("TARGET_DIR", "out");
     ("LOCATIONS_JSON", "locations.json"); ("STATE_FILE", "state.json");
     ("BATCH_SIZE", "2"); ("IMAGES_PER_FOLDER", "2")].

(** The source directory is set to the empty string. *)
Definition env_empty_source : gmap string string :=
  <["SOURCE_DIR" := ""]> full_env.

(** A user who first answers with blank lines. *)
Definition hesitant : console :=
  Console [""; "   "; "  src "; "later"] [].

End SetupScenario.

(* ===================================================================== *)
(** * A scenario with two names for one folder                            *)
(* ===================================================================== *)

Module CollisionScenario.
Import PyStr Fs Reap Scenario.
Local Open Scope list_scope.

(** The world after the step that processes the location [a/b], whose
    folder is [a_b]. *)
Definition after_slash : world :=
  Eval vm_compute in
    (process_location no_faults (cfg 2) ["S1"; "S2"] 0 "a/b" []
       (start disk)).2.

End CollisionScenario.

(* ===================================================================== *)
(** * Lemmas: JSON text                                                   *)
(* ===================================================================== *)

Section JsonLemmas.
Import PyStr Json.

Lemma append_nil (b : string) : "" ++ b = b.
Proof. reflexivity. Qed.

Lemma append_cons c (a b : string) : String c a ++ b = String c (a ++ b).
Proof. reflexivity. Qed.

Lemma string_app_assoc (a b c : string) : (a ++ b) ++ c = a ++ (b ++ c).
Proof.
  induction a as [|x a IH]; [done|]. rewrite !append_cons. by rewrite IH.
Qed.

Lemma run_app st a b : run st (a ++ b) = run st a ≫= λ st', run st' b.
Proof.
  revert st. induction a as [|c a IH]; intros st; [done|].
  rewrite append_cons. simpl.
  destruct (step st c) as [st'|]; simpl; [apply IH | done].
Qed.

Lemma run_cons st c r : run st (String c r) = step st c ≫= λ st', run st' r.
Proof. reflexivity. Qed.

Lemma run_encode_char c k acc stk :
  run (MString k acc, stk) (encode_char c) = Some (MString k (c :: acc), stk).
Proof.
  destruct c as [b0 b1 b2 b3 b4 b5 b6 b7].
  destruct b0, b1, b2, b3, b4, b5, b6, b7; vm_compute; reflexivity.
Qed.

Lemma run_encode_body s k acc stk :
  run (MString k acc, stk) (encode_body s)
  = Some (MString k (rev (list_ascii_of_string s) ++ acc)%list, stk).
Proof.
  revert acc. induction s as [|c s IH]; intros acc; simpl; [done|].
  rewrite run_app, run_encode_char. simpl. rewrite IH.
  by rewrite <- app_assoc.
Qed.

Lemma text_of_rev s : text_of (rev (list_ascii_of_string s) ++ [])%list = s.
Proof.
  unfold text_of. rewrite app_nil_r, rev_involutive.
  apply string_of_list_ascii_of_string.
Qed.


Lemma run_spaces m stk n :
  skips_ws m = true -> run (m, stk) (spaces n) = Some (m, stk).
Proof.
  intros Hm. induction n as [|n IH]; [done|].
  simpl. destruct m; try discriminate; simpl; exact IH.
Qed.

Lemma run_newline_indent m stk level :
  skips_ws m = true -> run (m, stk) (newline_indent level) = Some (m, stk).
Proof.
  intros Hm. unfold newline_indent. simpl.
  destruct m; try discriminate; simpl; by apply run_spaces.
Qed.

Lemma run_encode_string m stk s :
  starts_value m = true ->
  run (m, stk) (encode_string s) = deliver (JStr s) stk.
Proof.
  intros Hm. unfold encode_string.
  assert (step (m, stk) dquote = Some (MString false [], stk)) as Hq
    by (destruct m; try discriminate; reflexivity).
  rewrite run_cons, Hq. simpl.
  rewrite run_app, run_encode_body. simpl.
  rewrite text_of_rev. by destruct (deliver _ _).
Qed.

Lemma run_encode_key members stk s :
  run (MObjectOpen, FObj members None :: stk) (encode_string s)
  = Some (MColon, FObj members (Some s) :: stk).
Proof.
  unfold encode_string. simpl.
  rewrite run_app, run_encode_body. simpl.
  by rewrite text_of_rev.
Qed.

Lemma bind_some {A B} (f : A -> option B) (x : A) : Some x ≫= f = f x.
Proof. reflexivity. Qed.

Ltac next_piece := rewrite bind_some; cbv beta.
Tactic Notation "piece" constr(L) :=
  rewrite run_app, L by done; rewrite bind_some; cbv beta.

Lemma encode_items_cons level s s' r :
  encode_items level (s :: s' :: r)
  = encode_string s ++ "," ++ newline_indent level
      ++ encode_items level (s' :: r).
Proof. reflexivity. Qed.

Lemma run_comma_array items stk :
  run (MAfter, FArr items :: stk) "," = Some (MValue, FArr items :: stk).
Proof. reflexivity. Qed.

Lemma run_encode_items m items stk level l :
  starts_value m = true -> l <> [] ->
  run (m, FArr items :: stk) (encode_items level l)
  = Some (MAfter, FArr (rev (JStr <$> l) ++ items)%list :: stk).
Proof.
  intros Hm Hl. revert m items Hm.
  induction l as [|s r IH]; intros m items Hm; [done|].
  destruct r as [|s' r].
  - cbn [encode_items]. rewrite run_encode_string by done. reflexivity.
  - rewrite encode_items_cons.
    rewrite run_app, run_encode_string by done.
    cbn [deliver]. next_piece.
    piece run_comma_array. piece run_newline_indent.
    rewrite IH by done.
    rewrite (fmap_cons JStr s). cbn [rev]. by rewrite <- !app_assoc.
Qed.

Lemma run_open_array stk rest :
  run (MValue, stk) (String "[" rest) = run (MArrayOpen, FArr [] :: stk) rest.
Proof. reflexivity. Qed.

Lemma run_close_array items k members stk :
  run (MAfter, FArr items :: FObj members (Some k) :: stk) "]"
  = Some (MAfter, FObj ((k, JArr (rev items)) :: members) None :: stk).
Proof. reflexivity. Qed.

Lemma run_encode_string_list members k stk level l :
  run (MValue, FObj members (Some k) :: stk) (encode_string_list level l)
  = Some (MAfter, FObj ((k, JArr (JStr <$> l)) :: members) None :: stk).
Proof.
  destruct l as [|s r]; [reflexivity|].
  unfold encode_string_list. rewrite append_cons, append_nil, run_open_array.
  piece run_newline_indent. piece run_encode_items.
  piece run_newline_indent.
  rewrite run_close_array.
  by rewrite app_nil_r, rev_involutive.
Qed.

Lemma run_colon members k stk :
  run (MColon, FObj members (Some k) :: stk) ": "
  = Some (MValue, FObj members (Some k) :: stk).
Proof. reflexivity. Qed.

Lemma run_close_document members :
  run (MAfter, [FObj members None]) "}"
  = Some (MDone (JObj (rev members)), []).
Proof. reflexivity. Qed.

Lemma run_dumps_state l :
  run (MValue, []) (dumps_state l) = Some (MDone (state_doc l), []).
Proof.
  unfold dumps_state. rewrite append_cons, append_nil, run_cons.
  change (step (MValue, []) "{") with (Some (MObjectOpen, [FObj [] None])).
  next_piece.
  piece run_newline_indent. piece run_encode_key. piece run_colon.
  piece run_encode_string_list. piece run_newline_indent.
  by rewrite run_close_document.
Qed.

Lemma loads_dumps_state l : loads (dumps_state l) = Some (state_doc l).
Proof. unfold loads. by rewrite run_dumps_state. Qed.

Lemma as_strings_fmap l : as_strings (JStr <$> l) = Some l.
Proof.
  induction l as [|s l IH]; [done|].
  rewrite fmap_cons. cbn [as_strings]. by rewrite IH.
Qed.

(** ** A truncated state document does not decode *)

Lemma finish_settled st v : finish st = Some v -> settled st = true.
Proof.
  destruct st as [m [|f stk]]; destruct m; try discriminate; try done.
  destruct ph; done.
Qed.

Lemma settled_step st c st' :
  settled st = true -> step st c = Some st' -> settled st' = true.
Proof.
  destruct st as [m [|f stk]]; destruct m; try discriminate.
  - simpl. unfold step_done. destruct (is_ws c); [|done].
    by intros _ [= <-].
  - intros Hs. simpl. unfold step_number, step_delim, step_done.
    destruct ph; try discriminate; cbn [num_complete deliver mbind option_bind];
      repeat (match goal with
              | |- context [if ?b then _ else _] => destruct b
              end; try done; try (by intros [= <-])).
Qed.

Lemma settled_run s st st' :
  settled st = true -> run st s = Some st' -> settled st' = true.
Proof.
  revert st. induction s as [|c s IH]; intros st Hs; simpl.
  - by intros [= <-].
  - destruct (step st c) as [st1|] eqn:E; [|done]. simpl.
    apply IH. by eapply settled_step.
Qed.

Lemma settled_brace st : settled st = true -> step st "}" = None.
Proof.
  destruct st as [m [|f stk]]; destruct m; try discriminate; [done|].
  destruct ph; try discriminate; intros _; reflexivity.
Qed.

(** A document that decodes is not the beginning of a longer one that
    ends with a closing brace. *)
Lemma loads_extended p r v :
  loads p = Some v -> loads (p ++ r ++ "}") = None.
Proof.
  unfold loads. intros H.
  destruct (run (MValue, []) p) as [st|] eqn:E; [|done].
  simpl in H. apply finish_settled in H.
  rewrite run_app, E, bind_some. cbv beta.
  rewrite run_app.
  destruct (run st r) as [st'|] eqn:E'; [|done].
  rewrite bind_some. cbv beta.
  rewrite run_cons, (settled_brace st'); [done|].
  by eapply settled_run.
Qed.

Lemma substring_all (s : string) : substring 0 (String.length s) s = s.
Proof. induction s as [|c s IH]; simpl; [done | by rewrite IH]. Qed.

Lemma string_split_at k (s : string) :
  s = substring 0 k s ++ substring k (String.length s - k) s.
Proof.
  revert k. induction s as [|c s IH]; intros [|k]; try reflexivity.
  - rewrite Nat.sub_0_r, substring_all. reflexivity.
  - simpl. rewrite append_cons. f_equal. apply IH.
Qed.

Lemma substring_length_le k n (s : string) :
  k + n <= String.length s -> String.length (substring k n s) = n.
Proof.
  revert k n. induction s as [|c s IH]; intros [|k] [|n]; simpl; try lia.
  - intros H. f_equal. apply (IH 0). lia.
  - intros H. apply (IH k 0). lia.
  - intros H. apply IH. lia.
Qed.

Lemma ends_with_brace_suffix (p r t : string) :
  p ++ r = t ++ "}" -> r <> "" -> exists r', r = r' ++ "}".
Proof.
  revert t. induction p as [|c p IH]; intros t H Hr.
  - rewrite append_nil in H. by exists t.
  - destruct t as [|d t].
    + rewrite append_cons, append_nil in H. injection H as _ H.
      destruct p; [|discriminate]. rewrite append_nil in H. done.
    + rewrite !append_cons in H. injection H as _ H. by eapply IH.
Qed.

Lemma dumps_state_brace l : exists t, dumps_state l = t ++ "}".
Proof.
  unfold dumps_state. eexists.
  rewrite <- !string_app_assoc. reflexivity.
Qed.

(** No proper beginning of the state document decodes. *)
Lemma loads_truncated l k :
  k < String.length (dumps_state l) ->
  loads (substring 0 k (dumps_state l)) = None.
Proof.
  intros Hk. destruct (dumps_state_brace l) as [t Ht].
  pose proof (string_split_at k (dumps_state l)) as Hsplit.
  set (p := substring 0 k (dumps_state l)) in *.
  set (r := substring k (String.length (dumps_state l) - k)
              (dumps_state l)) in *.
  assert (r <> "") as Hr.
  { intros E. assert (String.length r = 0) as Hl by (by rewrite E).
    unfold r in Hl. rewrite substring_length_le in Hl by lia. lia. }
  destruct (ends_with_brace_suffix p r t) as [r' Hr']; [congruence | done |].
  destruct (loads p) as [v|] eqn:E; [|done].
  pose proof (loads_extended p r' v E) as Hx.
  rewrite <- Hr', <- Hsplit, loads_dumps_state in Hx. done.
Qed.

End JsonLemmas.

(* ===================================================================== *)
(** * Lemmas: the plan of a batch                                       *)
(* ===================================================================== *)

Section PlanLemmas.
Import PyStr Json Fs Reap.
Local Open Scope list_scope.

Lemma mem_true x l : mem x l = true <-> x ∈ l.
Proof.
  unfold mem. rewrite existsb_exists. split.
  - intros (y & Hy & E). apply String.eqb_eq in E. subst y.
    by apply list_elem_of_In.
  - intros H. exists x.
    split; [by apply list_elem_of_In | apply String.eqb_refl].
Qed.

Lemma mem_false x l : mem x l = false <-> x ∉ l.
Proof.
  rewrite <- mem_true. destruct (mem x l); split; congruence.
Qed.

Lemma unprocessed_filter L P :
  unprocessed_locations L P = filter (fun loc => loc ∉ P) L.
Proof.
  unfold unprocessed_locations.
  induction L as [|x L IH]; [done|].
  cbn [List.filter]. rewrite filter_cons, IH.
  destruct (mem x P) eqn:E; cbn [negb].
  - apply mem_true in E. by rewrite decide_False by tauto.
  - apply mem_false in E. by rewrite decide_True.
Qed.

Lemma elem_of_unprocessed x L P :
  x ∈ unprocessed_locations L P <-> x ∈ L /\ x ∉ P.
Proof. rewrite unprocessed_filter, list_elem_of_filter. tauto. Qed.

Lemma unprocessed_sublist L P : sublist (unprocessed_locations L P) L.
Proof. rewrite unprocessed_filter. apply sublist_filter. Qed.

Lemma slice_to_nonneg {A} (n : Z) (l : list A) :
  (0 <= n)%Z -> slice_to n l = take (Z.to_nat n) l.
Proof. intros H. unfold slice_to. by rewrite (proj2 (Z.leb_le 0 n)). Qed.

Lemma slice_to_sublist {A} (n : Z) (l : list A) : sublist (slice_to n l) l.
Proof. unfold slice_to. destruct (0 <=? n)%Z; apply sublist_take. Qed.

Lemma current_batch_sublist cfg L P :
  sublist (current_batch cfg L P) (unprocessed_locations L P).
Proof. apply slice_to_sublist. Qed.

End PlanLemmas.

(* ===================================================================== *)
(** * Lemmas: loading                                                   *)
(* ===================================================================== *)

Section RunLemmas.
Import PyStr Json Fs Reap.
Local Open Scope list_scope.
Variable flt : faults.

(** The loaders leave the world as it is when they return a value. *)
Lemma load_locations_val p w :
  load_locations flt p w =
  match read_locations flt p (files w) with
  | Some v => (Val v, w)
  | None => (Halt (Exited 1),
             World (files w) (out w ++ [MsgErrorLoadingLocations]))
  end.
Proof.
  unfold load_locations, bind, get_files.
  by destruct (read_locations flt p (files w)).
Qed.

Lemma load_state_val p w :
  load_state flt p w =
  if negb (exists_ p (files w)) then (Val (JArr []), w)
  else match read_state flt p (files w) with
       | Some v => (Val v, w)
       | None => (Halt (Exited 1),
                  World (files w) (out w ++ [MsgErrorLoadingState]))
       end.
Proof.
  unfold load_state, bind, get_files.
  destruct (negb (exists_ p (files w))); [done|].
  by destruct (read_state flt p (files w)).
Qed.

(** [main] once the two documents are loaded. *)
Lemma main_loaded cfg w L P :
  read_catalog flt cfg (files w) = Some L ->
  read_processed flt cfg (files w) = Some P ->
  main flt cfg w
  = run_batch flt cfg L P
      (World (files w)
         (out w ++ [MsgTotalLocations (length L);
                    MsgAlreadyProcessed (length P)])).
Proof.
  unfold read_catalog, read_processed. intros HL HP.
  unfold main. unfold bind at 1. rewrite load_locations_val.
  destruct (read_locations flt (locations_json cfg) (files w)) as [vl|];
    [|done].
  cbn in HL. unfold bind at 1. unfold typed at 1. rewrite HL.
  unfold ret at 1. unfold bind at 1. unfold print at 1.
  unfold bind at 1. rewrite load_state_val. cbn [files out].
  destruct (negb (exists_ (state_file cfg) (files w))).
  - injection HP as <-. unfold bind at 1. unfold typed at 1.
    cbn [as_string_list as_strings]. unfold ret at 1.
    unfold bind at 1, print at 1. cbn [files out].
    by rewrite <- app_assoc.
  - destruct (read_state flt (state_file cfg) (files w)) as [vp|]; [|done].
    cbn in HP. unfold bind at 1. unfold typed at 1. rewrite HP.
    unfold ret at 1. unfold bind at 1, print at 1. cbn [files out].
    by rewrite <- app_assoc.
Qed.

(** Nothing is left to do. *)
Lemma run_batch_all_processed cfg w L P :
  unprocessed_locations L P = [] ->
  run_batch flt cfg L P w
  = (Halt Returned, World (files w) (out w ++ [MsgAllProcessed])).
Proof. intros H. unfold run_batch. by rewrite H. Qed.

End RunLemmas.

(* ===================================================================== *)
(** * Lemmas: the loop over a batch                                     *)
(* ===================================================================== *)

Section LoopLemmas.
Import PyStr Json Fs Reap.
Local Open Scope list_scope.
Variable flt : faults.
Variable cfg : config.

Local Abbreviation folder_path := (folder_path cfg).

Lemma process_location_exists pool i location P w :
  exists_ (folder_path location) (files w) = true ->
  process_location flt cfg pool i location P w
  = (Val (P ++ [location]),
     World (files w)
           (out w ++ [MsgFolderExists (sanitize_folder_name location)])).
Proof.
  unfold folder_path. intros H.
  unfold process_location, bind, get_files. by rewrite H.
Qed.

Lemma process_location_create_fails pool i location P w :
  exists_ (folder_path location) (files w) = false ->
  makedirs flt false (folder_path location) (files w) = None ->
  process_location flt cfg pool i location P w
  = (Val P,
     World (files w)
           (out w ++ [MsgErrorCreating (sanitize_folder_name location)])).
Proof.
  unfold folder_path. intros H Hm.
  unfold process_location, bind, get_files. by rewrite H, Hm.
Qed.

Lemma process_location_created pool i location P w d' :
  pool <> [] ->
  exists_ (folder_path location) (files w) = false ->
  makedirs flt false (folder_path location) (files w) = Some d' ->
  exists folder,
    pool !! (i mod length pool) = Some folder
    /\ process_location flt cfg pool i location P w
       = fill_folder flt cfg folder location (sanitize_folder_name location)
           (folder_path location) P
           (World d' (out w ++ [MsgCreated (folder_path location)])).
Proof.
  unfold folder_path. intros Hp H Hm.
  assert (i mod length pool < length pool) as Hlt.
  { apply Nat.mod_upper_bound. by destruct pool. }
  destruct (lookup_lt_is_Some_2 pool _ Hlt) as [folder Hf].
  exists folder. split; [done|].
  unfold process_location, bind at 1, get_files. rewrite H, Hm.
  unfold bind at 1, put_files. unfold bind at 1, print at 1.
  cbn [files out].
  unfold original_folder_for. rewrite Hf.
  destruct (length pool) eqn:El; [by destruct pool | done].
Qed.

(** The copy loop never stops the run. *)
Lemma copy_images_val src dst name images w :
  exists w', copy_images flt src dst name images w = (Val tt, w').
Proof.
  revert w. induction images as [|image rest IH]; intros w.
  - by exists w.
  - cbn [copy_images]. unfold bind at 1, get_files.
    unfold bind at 1.
    destruct (copy2 flt (path_join src image) (path_join dst image) (files w))
      as [d'|].
    + unfold bind at 1, put_files. unfold print at 1. apply IH.
    + unfold print at 1. apply IH.
Qed.

(** A folder that is filled marks its location. *)
Lemma fill_folder_val folder location name path P w P' w' :
  fill_folder flt cfg folder location name path P w = (Val P', w') ->
  P' = P ++ [location].
Proof.
  unfold fill_folder. unfold bind at 1, print at 1.
  unfold bind at 1. unfold get_image_files, bind at 1, get_files.
  cbn [files out].
  destruct (image_files_in _ _) as [images|]; [|done].
  cbn [lift_os ret].
  unfold bind at 1.
  match goal with
  | |- context [(if ?b then print ?m else ret tt) ?w0] =>
      destruct ((if b then print m else ret tt) w0) as [[[]|o] w1] eqn:E
  end.
  2: { destruct (_ <? _)%Z; discriminate. }
  unfold bind at 1.
  match goal with
  | |- context [copy_images ?f ?s ?d ?n ?l ?w0] =>
      destruct (copy_images_val s d n l w0) as [w2 ->]
  end.
  unfold bind at 1, print at 1, ret. by intros [= <- _].
Qed.

(** A step of the loop returns the list it was given, or that list with
    the location at its end. *)
Lemma process_location_val pool i location P w P' w' :
  process_location flt cfg pool i location P w = (Val P', w') ->
  P' = P \/ P' = P ++ [location].
Proof.
  unfold process_location, bind at 1, get_files.
  destruct (exists_ _ _).
  { unfold bind, print, ret. intros [= <- _]. by right. }
  destruct (makedirs _ _ _ _) as [d'|].
  2: { unfold bind, print, ret. intros [= <- _]. by left. }
  unfold bind at 1, put_files. unfold bind at 1, print at 1.
  destruct (length pool); [done|].
  destruct (original_folder_for pool i); [|done].
  intros H. right. by eapply fill_folder_val.
Qed.

Lemma makedirs_no_fault p d :
  mkdir_fault flt p = false -> exists_ p d = false ->
  makedirs flt false p d = Some (add_entry p (Dir []) d).
Proof.
  unfold exists_, makedirs. intros Hf.
  destruct (d !! p); [done|]. by rewrite Hf.
Qed.

(** When no creation fails, the step marks its location. *)
Lemma process_location_marks pool i location P w P' w' :
  (forall p, mkdir_fault flt p = false) ->
  process_location flt cfg pool i location P w = (Val P', w') ->
  P' = P ++ [location].
Proof.
  intros Hf.
  unfold process_location, bind at 1, get_files.
  destruct (exists_ _ _) eqn:E.
  { unfold bind, print, ret. by intros [= <- _]. }
  rewrite makedirs_no_fault by done.
  unfold bind at 1, put_files. unfold bind at 1, print at 1.
  destruct (length pool); [done|].
  destruct (original_folder_for pool i); [|done].
  intros H. by eapply fill_folder_val.
Qed.

Lemma process_batch_cons pool i location rest P w :
  process_batch flt cfg pool i (location :: rest) P w
  = match process_location flt cfg pool i location P w with
    | (Val P', w') => process_batch flt cfg pool (S i) rest P' w'
    | (Halt o, w') => (Halt o, w')
    end.
Proof. reflexivity. Qed.

(** The loop over a batch in two parts: the index of a location is its
    position in the batch. *)
Lemma process_batch_app pool i pre post P w :
  process_batch flt cfg pool i (pre ++ post) P w
  = match process_batch flt cfg pool i pre P w with
    | (Val P', w') => process_batch flt cfg pool (i + length pre) post P' w'
    | (Halt o, w') => (Halt o, w')
    end.
Proof.
  revert i P w. induction pre as [|x pre IH]; intros i P w.
  - cbn [app length process_batch ret]. by rewrite Nat.add_0_r.
  - rewrite <- app_comm_cons, !process_batch_cons.
    destruct (process_location flt cfg pool i x P w) as [[P1|o] w1]; [|done].
    rewrite IH. cbn [length]. by rewrite Nat.add_succ_r.
Qed.

(** The loop appends to the processed list some of the batch, in the
    order of the batch. *)
Lemma process_batch_val pool i batch P w P' w' :
  process_batch flt cfg pool i batch P w = (Val P', w') ->
  exists marked, P' = P ++ marked /\ sublist marked batch.
Proof.
  revert i P w. induction batch as [|x batch IH]; intros i P w.
  - cbn [process_batch ret]. intros [= <- _]. exists [].
    by rewrite app_nil_r.
  - rewrite process_batch_cons.
    destruct (process_location flt cfg pool i x P w) as [[P1|o] w1] eqn:E;
      [|done].
    intros H. apply IH in H as (marked & -> & Hsub).
    apply process_location_val in E as [-> | ->].
    + exists marked. split; [done|]. by apply sublist_cons.
    + exists (x :: marked). split; [by rewrite <- app_assoc|].
      by apply sublist_skip.
Qed.

Lemma process_batch_marks pool i batch P w P' w' :
  (forall p, mkdir_fault flt p = false) ->
  process_batch flt cfg pool i batch P w = (Val P', w') ->
  P' = P ++ batch.
Proof.
  intros Hf. revert i P w. induction batch as [|x batch IH]; intros i P w.
  - cbn [process_batch ret]. intros [= <- _]. by rewrite app_nil_r.
  - rewrite process_batch_cons.
    destruct (process_location flt cfg pool i x P w) as [[P1|o] w1] eqn:E;
      [|done].
    intros H. apply IH in H as ->.
    apply process_location_marks in E as ->; [|done].
    by rewrite <- app_assoc.
Qed.

End LoopLemmas.

(* ===================================================================== *)
(** * Lemmas: a whole run                                               *)
(* ===================================================================== *)

Section BatchLemmas.
Import PyStr Json Fs Reap.
Local Open Scope list_scope.
Variable flt : faults.
Variable cfg : config.

Lemma get_original_folders_val w :
  get_original_folders (source_dir cfg) w
  = match original_folders_in (source_dir cfg) (files w) with
    | Some pool => (Val pool, w)
    | None => (Halt (Raised OSError), w)
    end.
Proof.
  unfold get_original_folders, bind, get_files.
  by destruct (original_folders_in _ _).
Qed.

(** What stops the loop is an exception. *)
Lemma fill_folder_halt folder location name path P w o w' :
  fill_folder flt cfg folder location name path P w = (Halt o, w') ->
  o = Raised OSError.
Proof.
  unfold fill_folder. unfold bind at 1, print at 1.
  unfold bind at 1. unfold get_image_files, bind at 1, get_files.
  cbn [files out].
  destruct (image_files_in _ _) as [images|]; [|by intros [= <- _]].
  cbn [lift_os ret].
  unfold bind at 1.
  match goal with
  | |- context [(if ?b then print ?m else ret tt) ?w0] =>
      destruct ((if b then print m else ret tt) w0) as [[[]|o1] w1] eqn:E
  end.
  2: { destruct (_ <? _)%Z; discriminate. }
  unfold bind at 1.
  match goal with
  | |- context [copy_images ?f ?s ?d ?n ?l ?w0] =>
      destruct (copy_images_val f s d n l w0) as [w2 ->]
  end.
  unfold bind at 1, print at 1, ret. discriminate.
Qed.

Lemma process_location_halt pool i location P w o w' :
  process_location flt cfg pool i location P w = (Halt o, w') ->
  exists e, o = Raised e.
Proof.
  unfold process_location, bind at 1, get_files.
  destruct (exists_ _ _); [discriminate|].
  destruct (makedirs _ _ _ _) as [d'|]; [|discriminate].
  unfold bind at 1, put_files. unfold bind at 1, print at 1.
  destruct (length pool); [intros [= <- _]; eauto|].
  destruct (original_folder_for pool i); [|intros [= <- _]; eauto].
  intros H. apply fill_folder_halt in H. eauto.
Qed.

Lemma process_batch_halt pool i batch P w o w' :
  process_batch flt cfg pool i batch P w = (Halt o, w') ->
  exists e, o = Raised e.
Proof.
  revert i P w. induction batch as [|x batch IH]; intros i P w; [done|].
  rewrite process_batch_cons.
  destruct (process_location flt cfg pool i x P w) as [[P1|o1] w1] eqn:E.
  - apply IH.
  - intros [= <- <-]. by eapply process_location_halt.
Qed.

(** No source folder: the run returns with nothing done. *)
Lemma materialise_batch_no_folders batch P w :
  original_folders_in (source_dir cfg) (files w) = Some [] ->
  materialise_batch flt cfg batch P w
  = (Halt Returned,
     World (files w) (out w ++ [MsgTotalFolders 0; MsgNoFolders])).
Proof.
  intros H. unfold materialise_batch, bind at 1.
  rewrite get_original_folders_val, H.
  unfold bind, print, halt. cbn [files out length].
  by rewrite <- app_assoc.
Qed.

Lemma save_state_val p P w :
  save_state flt p P w
  = let '(ok, d') := write_text flt p (dumps_state P) (files w) in
    if ok then (Val tt, World d' (out w))
    else (Halt (Exited 1), World d' (out w ++ [MsgErrorSavingState])).
Proof.
  unfold save_state, bind at 1, get_files.
  destruct (write_text _ _ _ _) as [[] d']; reflexivity.
Qed.

(** The ways in which the materialisation of a batch returns. *)
Lemma materialise_batch_returned batch P w w' :
  run_of (materialise_batch flt cfg batch P) w = (Returned, w') ->
  (original_folders_in (source_dir cfg) (files w) = Some []
   /\ w' = World (files w) (out w ++ [MsgTotalFolders 0; MsgNoFolders]))
  \/ (exists pool d1 P' wl,
        original_folders_in (source_dir cfg) (files w) = Some pool
        /\ pool <> []
        /\ makedirs flt true (target_dir cfg) (files w) = Some d1
        /\ process_batch flt cfg pool 0 batch P
             (World d1 (out w ++ [MsgTotalFolders (length pool)]))
           = (Val P', wl)
        /\ write_text flt (state_file cfg) (dumps_state P') (files wl)
           = (true, files w')
        /\ out w' = out wl ++ [MsgBatchComplete (length batch)]).
Proof.
  destruct (original_folders_in (source_dir cfg) (files w)) as [pool|] eqn:Hs.
  2: { unfold run_of, materialise_batch, bind at 1.
       rewrite get_original_folders_val, Hs. discriminate. }
  destruct pool as [|f pool].
  { unfold run_of. rewrite materialise_batch_no_folders by done.
    intros [= <-]. by left. }
  intros H. right.
  unfold run_of, materialise_batch, bind at 1 in H.
  rewrite get_original_folders_val, Hs in H.
  unfold bind at 1, print at 1 in H.
  unfold bind at 1 in H. unfold bind at 1, get_files in H.
  cbn [files out] in H.
  destruct (makedirs flt true (target_dir cfg) (files w)) as [d1|] eqn:Hm;
    [|discriminate].
  unfold put_files at 1 in H. cbn [files out] in H.
  unfold bind at 1 in H.
  destruct (process_batch _ _ _ _ _ _ _) as [[P'|o] wl] eqn:Hb.
  2: { apply process_batch_halt in Hb as [e ->]. discriminate. }
  unfold bind at 1 in H. rewrite save_state_val in H.
  destruct (write_text _ _ _ _) as [[] d2] eqn:Hw; [|discriminate].
  unfold print in H. cbn [files out] in H. injection H as <-.
  exists (f :: pool), d1, P', wl. by repeat split.
Qed.

(** The ways in which a planned run returns. *)
Lemma run_batch_returned L P w w' :
  run_of (run_batch flt cfg L P) w = (Returned, w') ->
  (unprocessed_locations L P = []
   /\ w' = World (files w) (out w ++ [MsgAllProcessed]))
  \/ (exists a b,
        unprocessed_locations L P <> []
        /\ current_batch cfg L P <> []
        /\ run_of (materialise_batch flt cfg (current_batch cfg L P) P)
             (World (files w)
                (out w ++ [MsgProcessing (length (current_batch cfg L P)) a b]))
           = (Returned, w')).
Proof.
  unfold run_of at 1, run_batch.
  destruct (unprocessed_locations L P) as [|u U] eqn:HU.
  { unfold bind, print, halt. intros [= <-]. by left. }
  intros H. right.
  destruct (current_batch cfg L P) as [|first batch] eqn:Hb.
  { unfold bind, halt in H. discriminate. }
  destruct (last (first :: batch)) as [final|] eqn:Hl.
  2: { unfold bind, halt in H. discriminate. }
  destruct (index first L) as [a|].
  2: { unfold bind, halt in H. discriminate. }
  destruct (index final L) as [b|].
  2: { unfold bind, halt in H. discriminate. }
  exists a, b. split; [done|]. split; [done|].
  unfold bind at 1, print at 1 in H. exact H.
Qed.

End BatchLemmas.

(* ===================================================================== *)
(** * Lemmas: files                                                     *)
(* ===================================================================== *)

Section FsLemmas.
Import PyStr Json Fs Reap.
Local Open Scope list_scope.

Lemma add_entry_lookup p nd (d : gmap string node) :
  add_entry p nd d !! p = Some nd.
Proof.
  unfold add_entry. destruct (path_split p) as [parent name].
  apply lookup_insert_eq.
Qed.

Lemma write_text_done flt p text (d d' : gmap string node) :
  write_text flt p text d = (true, d') -> d' !! p = Some (File text).
Proof.
  unfold write_text.
  destruct (d !! p) as [[names|data]|]; try discriminate;
    destruct (write_fault_at flt p) as [| |k]; try discriminate;
    try destruct (decide (k < String.length text)); try discriminate;
    intros [= <-]; apply add_entry_lookup.
Qed.

(** A write that fails changes nothing, or leaves a proper beginning of
    the text. *)
Lemma write_text_failed flt p text (d d' : gmap string node) :
  write_text flt p text d = (false, d') ->
  d' = d
  \/ exists k, k < String.length text
               /\ d' !! p = Some (File (substring 0 k text)).
Proof.
  unfold write_text.
  destruct (d !! p) as [[names|data]|];
    try (intros [= <-]; by left);
    destruct (write_fault_at flt p) as [| |k]; try discriminate;
    try (intros [= <-]; by left);
    (destruct (decide (k < String.length text)); [|discriminate]);
    intros [= <-]; right; exists k; (split; [done|]);
    apply add_entry_lookup.
Qed.

Lemma exists_lookup p nd (d : gmap string node) :
  d !! p = Some nd -> exists_ p d = true.
Proof. unfold exists_. by intros ->. Qed.

Lemma read_state_undecodable flt p text (d : gmap string node) :
  d !! p = Some (File text) -> loads text = None -> read_state flt p d = None.
Proof.
  intros Hd Hl. unfold read_state, read_text. rewrite Hd.
  destruct (read_fault flt p); [done|]. cbn. by rewrite Hl.
Qed.

End FsLemmas.

(* ===================================================================== *)
(** * Lemmas: the processed list across runs                            *)
(* ===================================================================== *)

Section TwoRuns.
Import PyStr Json Fs Reap.
Local Open Scope list_scope.
Variable flt : faults.
Variable cfg : config.

Lemma read_text_Some p (d : gmap string node) text :
  read_text flt p d = Some text ->
  read_fault flt p = false /\ d !! p = Some (File text).
Proof.
  unfold read_text. destruct (read_fault flt p); [done|].
  destruct (d !! p) as [[names|data]|]; try done. by intros [= ->].
Qed.

Lemma read_state_no_faults p (d : gmap string node) v :
  read_state flt p d = Some v -> read_state no_faults p d = Some v.
Proof.
  unfold read_state.
  destruct (read_text flt p d) as [text|] eqn:E; [|done].
  apply read_text_Some in E as [_ E].
  unfold read_text at 1. cbn [read_fault no_faults]. by rewrite E.
Qed.

Lemma read_processed_no_faults (d : gmap string node) P :
  read_processed flt cfg d = Some P ->
  read_processed no_faults cfg d = Some P.
Proof.
  unfold read_processed. destruct (negb _); [done|].
  destruct (read_state flt (state_file cfg) d) as [v|] eqn:E; [|done].
  by rewrite (read_state_no_faults _ _ _ E).
Qed.

Lemma read_state_written p P (d : gmap string node) :
  read_fault flt p = false ->
  d !! p = Some (File (dumps_state P)) ->
  read_state flt p d = Some (JArr (JStr <$> P)).
Proof.
  intros Hf Hd. unfold read_state, read_text. rewrite Hf, Hd.
  cbn [mbind option_bind]. rewrite loads_dumps_state. reflexivity.
Qed.

Lemma read_processed_written P (d : gmap string node) :
  read_fault flt (state_file cfg) = false ->
  d !! state_file cfg = Some (File (dumps_state P)) ->
  read_processed flt cfg d = Some P.
Proof.
  intros Hf Hd. unfold read_processed.
  rewrite (exists_lookup _ _ _ Hd). cbn [negb].
  rewrite (read_state_written _ _ _ Hf Hd). cbn [mbind option_bind].
  apply as_strings_fmap.
Qed.

(** What the loop may add keeps the processed list inside the catalog and
    free of repetitions. *)
Lemma marked_invariant L P marked :
  NoDup L -> P ⊆ L -> NoDup P ->
  sublist marked (current_batch cfg L P) ->
  P ++ marked ⊆ L /\ NoDup (P ++ marked).
Proof.
  intros HL HPL HP Hsub.
  assert (sublist marked (unprocessed_locations L P)) as HsubU.
  { etrans; [exact Hsub | apply current_batch_sublist]. }
  assert (forall x, x ∈ marked -> x ∈ L /\ x ∉ P) as Hm.
  { intros x Hx. apply elem_of_unprocessed. by eapply elem_of_sublist. }
  split.
  - intros x [Hx|Hx]%elem_of_app; [by apply HPL | by apply Hm].
  - apply NoDup_app. split; [done|]. split.
    + intros x Hx Hx'. destruct (Hm x Hx') as [_ Hn]. by apply Hn.
    + eapply (sublist_NoDup _ L); [exact HL|].
      etrans; [exact HsubU | apply unprocessed_sublist].
Qed.

End TwoRuns.

Section SecondRun.
Import PyStr Json Fs Reap.
Local Open Scope list_scope.
Variable flt : faults.
Variable cfg : config.

Lemma index_elem_of x L : x ∈ L -> exists a, index x L = Some a.
Proof.
  induction L as [|y L' IH]; intros Hx; [by apply elem_of_nil in Hx|].
  cbn [index]. destruct (String.eqb y x) eqn:Ey; [eauto|].
  apply elem_of_cons in Hx as [->|Hx].
  - by rewrite String.eqb_refl in Ey.
  - destruct (IH Hx) as [a ->]. eauto.
Qed.

(** A planned batch and no source folder. *)
Lemma run_batch_no_folders L P w :
  current_batch cfg L P <> [] ->
  original_folders_in (source_dir cfg) (files w) = Some [] ->
  exists a b,
    run_batch flt cfg L P w
    = (Halt Returned,
       World (files w)
             (out w ++ [MsgProcessing (length (current_batch cfg L P)) a b;
                        MsgTotalFolders 0;
                        MsgNoFolders])).
Proof.
  intros Hb Hs. unfold run_batch.
  destruct (unprocessed_locations L P) as [|u U] eqn:HU.
  { unfold current_batch, slice_to in Hb. rewrite HU in Hb.
    destruct (0 <=? batch_size cfg)%Z; by rewrite take_nil in Hb. }
  pose proof (current_batch_sublist cfg L P) as Hsub.
  destruct (current_batch cfg L P) as [|first batch] eqn:E; [done|].
  assert (forall x, x ∈ first :: batch -> exists a, index x L = Some a)
    as Hidx.
  { intros x Hx. apply index_elem_of.
    eapply elem_of_sublist in Hx; [|exact Hsub].
    by apply elem_of_unprocessed in Hx as [Hx _]. }
  destruct (last (first :: batch)) as [final|] eqn:Hl.
  2: { by apply last_None in Hl. }
  destruct (Hidx first ltac:(left)) as [a Ha].
  destruct (Hidx final (last_Some_elem_of _ _ Hl)) as [b Hb'].
  exists a, b. rewrite Ha, Hb'.
  unfold bind at 1, print at 1.
  rewrite materialise_batch_no_folders by done.
  cbn [files out]. by rewrite <- !app_assoc.
Qed.

(** [main] when the state file is there and does not load. *)
Lemma main_state_unreadable w L :
  read_catalog flt cfg (files w) = Some L ->
  exists_ (state_file cfg) (files w) = true ->
  read_state flt (state_file cfg) (files w) = None ->
  main flt cfg w
  = (Halt (Exited 1),
     World (files w)
           (out w ++ [MsgTotalLocations (length L); MsgErrorLoadingState])).
Proof.
  unfold read_catalog. intros HL He Hs.
  unfold main. unfold bind at 1. rewrite load_locations_val.
  destruct (read_locations flt (locations_json cfg) (files w)) as [vl|];
    [|done].
  cbn in HL. unfold bind at 1. unfold typed at 1. rewrite HL.
  unfold ret at 1. unfold bind at 1. unfold print at 1.
  unfold bind at 1. rewrite load_state_val. cbn [files out].
  rewrite He, Hs. cbn [negb files out]. by rewrite <- app_assoc.
Qed.

(** Once the whole remainder of the catalog is marked, nothing is left. *)
Lemma unprocessed_after_all L P :
  unprocessed_locations L (P ++ unprocessed_locations L P) = [].
Proof.
  destruct (unprocessed_locations L (P ++ unprocessed_locations L P))
    as [|x U] eqn:E; [done|].
  assert (x ∈ unprocessed_locations L (P ++ unprocessed_locations L P)) as Hx
    by (rewrite E; left).
  apply elem_of_unprocessed in Hx as [HxL Hn].
  exfalso. apply Hn. apply elem_of_app.
  destruct (decide (x ∈ P)); [by left|].
  right. by apply elem_of_unprocessed.
Qed.

Lemma current_batch_covers L P :
  (Z.of_nat (length (unprocessed_locations L P)) <= batch_size cfg)%Z ->
  current_batch cfg L P = unprocessed_locations L P.
Proof.
  intros H. unfold current_batch. rewrite slice_to_nonneg by lia.
  apply take_ge. lia.
Qed.

End SecondRun.

(* ===================================================================== *)
(** * Lemmas: the cycle over the pool                                   *)
(* ===================================================================== *)

Section Cycle.
Import PyStr Json Fs Reap Notions.
Local Open Scope list_scope.

Lemma succ_div_mod (b size : nat) :
  0 < b ->
  (S size mod b = S (size mod b) /\ S size / b = size / b
   /\ S (size mod b) < b)
  \/ (S size mod b = 0 /\ S size / b = S (size / b)
      /\ S (size mod b) = b).
Proof.
  intros Hb.
  pose proof (Nat.div_mod_eq size b) as E.
  pose proof (Nat.mod_upper_bound size b ltac:(lia)) as Hr.
  destruct (decide (S (size mod b) < b)) as [Hlt|Hge].
  - left.
    assert (S size = b * (size / b) + S (size mod b)) as E' by lia.
    split; [|split; [|done]].
    + symmetry. by eapply Nat.mod_unique.
    + symmetry. by eapply Nat.div_unique.
  - right.
    assert (S size = b * S (size / b) + 0) as E' by lia.
    split; [|split; [|lia]].
    + symmetry. eapply Nat.mod_unique; [|exact E']. lia.
    + symmetry. eapply Nat.div_unique; [|exact E']. lia.
Qed.

(** Each folder of the pool gets the whole part of the ratio, and one more
    when its index is below the remainder. *)
Lemma batch_positions_length pool size j :
  j < length pool ->
  length (batch_positions pool size j)
  = size / length pool + (if decide (j < size mod length pool) then 1 else 0).
Proof.
  intros Hj. unfold batch_positions.
  induction size as [|size IH].
  - cbn [seq List.filter length]. rewrite Nat.Div0.div_0_l, Nat.Div0.mod_0_l.
    by rewrite decide_False by lia.
  - rewrite seq_S, List.filter_app, length_app, IH. cbn [List.filter Nat.add].
    destruct (succ_div_mod (length pool) size ltac:(lia))
      as [(Hm & Hd & Hlt) | (Hm & Hd & Heq)]; rewrite Hm, Hd.
    + destruct (Nat.eqb_spec (size mod length pool) j);
        repeat case_decide; cbn [length]; lia.
    + destruct (Nat.eqb_spec (size mod length pool) j);
        repeat case_decide; cbn [length]; lia.
Qed.

Lemma ceil_div_cases a b :
  0 < b ->
  (a mod b = 0 /\ ceil_div a b = a / b)
  \/ (0 < a mod b /\ ceil_div a b = S (a / b)).
Proof.
  intros Hb. unfold ceil_div.
  pose proof (Nat.div_mod_eq a b) as E.
  pose proof (Nat.mod_upper_bound a b ltac:(lia)) as Hr.
  destruct (decide (a mod b = 0)) as [Hz|Hnz].
  - left. split; [done|].
    symmetry. eapply (Nat.div_unique _ _ _ (b - 1)); lia.
  - right. split; [lia|].
    symmetry. eapply (Nat.div_unique _ _ _ (a mod b - 1)); lia.
Qed.

End Cycle.

(* ===================================================================== *)
(** * Lemmas: the log of the loop                                         *)
(* ===================================================================== *)

Section LogLemmas.
Import PyStr Json Fs Reap Notions.
Local Open Scope list_scope.

Lemma visits_app a b : visits (a ++ b) = visits a + visits b.
Proof. unfold visits. by rewrite List.filter_app, length_app. Qed.

Lemma skips_app a b : skips (a ++ b) = skips a + skips b.
Proof. unfold skips. by rewrite List.filter_app, length_app. Qed.

Lemma selections_app a b : selections (a ++ b) = selections a ++ selections b.
Proof. apply omap_app. Qed.

Lemma served_app f a b : served f (a ++ b) = served f a + served f b.
Proof.
  unfold served. by rewrite selections_app, List.filter_app, length_app.
Qed.

Lemma assignments_app i a b :
  assignments i (a ++ b) = assignments i a ++ assignments (i + visits a) b.
Proof.
  revert i. induction a as [|m a IH]; intros i.
  - cbn [app assignments]. unfold visits. cbn. by rewrite Nat.add_0_r.
  - rewrite <- app_comm_cons.
    destruct m; cbn [assignments visit]; rewrite IH;
      unfold visits; cbn [List.filter visit length];
      rewrite <- ?app_comm_cons, ?Nat.add_succ_r; reflexivity.
Qed.

Lemma quiet_log q :
  Forall (fun m => quiet m = true) q ->
  visits q = 0 /\ skips q = 0 /\ selections q = []
  /\ forall i, assignments i q = [].
Proof.
  induction 1 as [|m q Hm _ (Hv & Hs & Hsel & Ha)].
  - by repeat split.
  - unfold visits, skips, selections in *.
    destruct m; try discriminate Hm;
      cbn [List.filter visit skip omap selected assignments list_omap];
      repeat split; try done; intros i; apply Ha.
Qed.

Lemma cycle_S pool i k :
  cycle pool i (S k) = cycle pool i 1 ++ cycle pool (S i) k.
Proof. unfold cycle. by rewrite <- omap_app. Qed.

Lemma loop_log_visits cfg pool i visited log :
  loop_log cfg pool i visited log -> visits log = length visited.
Proof. intros (Hv & _). unfold visits. by eapply Forall2_length. Qed.

Lemma filter_visit_quiet q :
  Forall (fun m => quiet m = true) q -> List.filter visit q = [].
Proof.
  intros Hq. destruct (quiet_log q Hq) as (Hqv & _).
  unfold visits in Hqv. by apply nil_length_inv in Hqv.
Qed.

Lemma created_at_ext cfg visited log log' k :
  List.filter visit log = List.filter visit log' ->
  created_at cfg visited log k -> created_at cfg visited log' k.
Proof. unfold created_at. by intros <-. Qed.

Lemma loop_log_ext cfg pool i visited log log' :
  List.filter visit log' = List.filter visit log ->
  assignments i log' = assignments i log ->
  selections log' = selections log ->
  skips log' = skips log ->
  loop_log cfg pool i visited log -> loop_log cfg pool i visited log'.
Proof.
  intros Ev Ea Es Ek (Hv & Ha & Hs & He). unfold loop_log.
  rewrite Ev, Ea, Es, Ek. split; [done|]. split; [|done].
  eapply Forall_impl; [exact Ha|]. intros a (? & Hc & ?).
  split; [done|]. split; [|done]. by eapply created_at_ext.
Qed.

Lemma loop_log_nil cfg pool i : loop_log cfg pool i [] [].
Proof.
  unfold loop_log. cbn.
  split; [constructor|]. split; [constructor|]. split; [constructor | done].
Qed.

Lemma loop_log_quiet_l cfg pool i visited q log :
  Forall (fun m => quiet m = true) q ->
  loop_log cfg pool i visited log -> loop_log cfg pool i visited (q ++ log).
Proof.
  intros Hq. destruct (quiet_log q Hq) as (Hqv & Hqs & Hqsel & Hqa).
  apply loop_log_ext.
  - by rewrite List.filter_app, (filter_visit_quiet q Hq).
  - by rewrite assignments_app, Hqa, Hqv, Nat.add_0_r.
  - by rewrite selections_app, Hqsel.
  - by rewrite skips_app, Hqs.
Qed.

Lemma loop_log_quiet_r cfg pool i visited q log :
  Forall (fun m => quiet m = true) q ->
  loop_log cfg pool i visited log -> loop_log cfg pool i visited (log ++ q).
Proof.
  intros Hq. destruct (quiet_log q Hq) as (Hqv & Hqs & Hqsel & Hqa).
  apply loop_log_ext.
  - by rewrite List.filter_app, (filter_visit_quiet q Hq), app_nil_r.
  - by rewrite assignments_app, Hqa, app_nil_r.
  - by rewrite selections_app, Hqsel, app_nil_r.
  - by rewrite skips_app, Hqs, Nat.add_0_r.
Qed.

Lemma loop_log_quiet cfg pool i q :
  Forall (fun m => quiet m = true) q -> loop_log cfg pool i [] q.
Proof.
  intros Hq. apply (loop_log_quiet_r cfg pool i [] q []); [done|].
  apply loop_log_nil.
Qed.

Lemma loop_log_app cfg pool i location s visited log :
  loop_log cfg pool i [location] s ->
  loop_log cfg pool (S i) visited log ->
  loop_log cfg pool i (location :: visited) (s ++ log).
Proof.
  intros Hs' Hl'. pose proof (loop_log_visits _ _ _ _ _ Hs') as Hn.
  destruct Hs' as (Hv & Ha & Hs & He). destruct Hl' as (Hv' & Ha' & Hs' & He').
  pose proof (Forall2_length _ _ _ Hv) as Hlen. cbn [length] in Hlen.
  unfold loop_log. cbn [length] in *.
  rewrite assignments_app, selections_app, skips_app, List.filter_app, cycle_S.
  rewrite Hn, Nat.add_1_r. split; [|split; [|split]].
  - change (location :: visited) with ([location] ++ visited).
    by apply Forall2_app.
  - apply Forall_app. split.
    + eapply Forall_impl; [exact Ha|].
      intros a (Hi & (loc & Hloc & Hc) & Hf).
      split; [done|]. split; [|done].
      assert (a.1 - i = 0) as E.
      { apply lookup_lt_Some in Hloc. cbn [length] in Hloc. lia. }
      rewrite E in *. exists loc. split; [done|].
      rewrite List.filter_app. by apply lookup_app_l_Some.
    + eapply Forall_impl; [exact Ha'|].
      intros a (Hi & (loc & Hloc & Hc) & Hf).
      split; [lia|]. split; [|done].
      replace (a.1 - i) with (S (a.1 - S i)) by lia.
      exists loc. split; [done|].
      rewrite List.filter_app, lookup_app_r by lia.
      by replace (S (a.1 - S i) - length (List.filter visit s))
        with (a.1 - S i) by lia.
  - by apply sublist_app.
  - intros H. rewrite He, He' by lia. done.
Qed.

(** The three logs of a step. *)
Lemma loop_log_exists cfg pool i location :
  loop_log cfg pool i [location]
    [MsgFolderExists (sanitize_folder_name location)].
Proof.
  unfold loop_log. cbn.
  split; [repeat constructor|]. split; [constructor|].
  split; [apply sublist_nil_l | done].
Qed.

Lemma loop_log_error cfg pool i location :
  loop_log cfg pool i [location]
    [MsgErrorCreating (sanitize_folder_name location)].
Proof.
  unfold loop_log. cbn.
  split; [constructor; [by right; right | constructor]|].
  split; [constructor|]. split; [apply sublist_nil_l | done].
Qed.

Lemma loop_log_created cfg pool i location folder tail :
  pool !! (i mod length pool) = Some folder ->
  Forall (fun m => quiet m = true) tail ->
  loop_log cfg pool i [location]
    (MsgCreated (folder_path cfg location) :: MsgSelecting folder :: tail).
Proof.
  intros Hf Hq.
  apply (loop_log_quiet_r cfg pool i [location] tail
           [MsgCreated (folder_path cfg location); MsgSelecting folder]);
    [done|].
  unfold loop_log, visits, skips, selections, cycle. cbn. rewrite Hf.
  split; [constructor; [by right; left | constructor]|].
  split; [|done].
  constructor; [|constructor]. cbn [fst snd]. split; [lia|].
  split; [|done]. exists location. rewrite Nat.sub_diag. done.
Qed.

Lemma filter_sublist_length (p : string -> bool) l1 l2 :
  sublist l1 l2 -> length (List.filter p l1) <= length (List.filter p l2).
Proof.
  induction 1 as [|x l1 l2 _ IH|x l1 l2 _ IH]; [done| |];
    cbn [List.filter]; destruct (p x); cbn [length]; lia.
Qed.

(** The number of positions of a cycle that give the folder at pool index
    [j]. *)
Lemma cycle_count pool k j f :
  NoDup pool -> pool !! j = Some f ->
  length (List.filter (String.eqb f) (cycle pool 0 k))
  = length (batch_positions pool k j).
Proof.
  intros Hnd Hj. unfold cycle, batch_positions.
  induction k as [|k IH]; [done|].
  rewrite seq_S, omap_app, !List.filter_app, !length_app, IH.
  f_equal. cbn [Nat.add omap list_omap List.filter].
  destruct (pool !! (k mod length pool)) as [g|] eqn:Hg.
  - cbn [List.filter]. destruct (String.eqb_spec f g) as [->|Hne].
    + rewrite (NoDup_lookup _ _ _ _ Hnd Hg Hj), Nat.eqb_refl. done.
    + destruct (Nat.eqb_spec (k mod length pool) j) as [E|_]; [|done].
      rewrite E in Hg. congruence.
  - destruct (Nat.eqb_spec (k mod length pool) j) as [E|_]; [|done].
    rewrite E in Hg. congruence.
Qed.

End LogLemmas.

Section LoopLog.
Import PyStr Json Fs Reap Notions.
Local Open Scope list_scope.
Variable flt : faults.
Variable cfg : config.

Lemma copy_images_log src dst name images w :
  exists tail,
    out (copy_images flt src dst name images w).2 = out w ++ tail
    /\ Forall (fun m => quiet m = true) tail.
Proof.
  revert w. induction images as [|image rest IH]; intros w.
  - exists []. cbn. by rewrite app_nil_r.
  - cbn [copy_images]. unfold bind at 1, get_files. unfold bind at 1.
    destruct (copy2 flt (path_join src image) (path_join dst image) (files w))
      as [d'|].
    + unfold bind at 1, put_files. unfold print at 1. cbn [files out].
      destruct (IH (World d' (out w ++ [MsgCopied image name])))
        as (tail & E & Hq).
      exists (MsgCopied image name :: tail). rewrite E. cbn [out].
      rewrite <- app_assoc. split; [done|]. by constructor.
    + unfold print at 1.
      destruct (IH (World (files w) (out w ++ [MsgErrorCopying image name])))
        as (tail & E & Hq).
      exists (MsgErrorCopying image name :: tail). rewrite E. cbn [out].
      rewrite <- app_assoc. split; [done|]. by constructor.
Qed.

(** The log of a folder that is filled starts with the selection. *)
Lemma fill_folder_log folder location name path P w :
  exists tail,
    out (fill_folder flt cfg folder location name path P w).2
    = out w ++ MsgSelecting folder :: tail
    /\ Forall (fun m => quiet m = true) tail.
Proof.
  unfold fill_folder. unfold bind at 1, print at 1.
  unfold bind at 1. unfold get_image_files, bind at 1, get_files.
  cbn [files out].
  destruct (image_files_in _ _) as [images|].
  2: { exists []. cbn. done. }
  cbn [lift_os ret]. unfold bind at 1.
  destruct (Z.of_nat (length images) <? images_per_folder cfg)%Z.
  - unfold print at 1. cbn [files out]. unfold bind at 1.
    match goal with
    | |- context [copy_images flt ?s ?d ?n ?l ?w0] =>
        destruct (copy_images_log s d n l w0) as (tail & E & Hq);
        destruct (copy_images_val flt s d n l w0) as [w1 Hc]
    end.
    rewrite Hc in *. cbn [snd out] in E.
    unfold bind at 1, print at 1, ret. cbn [snd out]. rewrite E.
    eexists (_ :: tail ++ [_]). rewrite <- !app_assoc. split; [done|].
    constructor; [done|]. apply Forall_app. split; [done|]. by constructor.
  - unfold ret at 1. unfold bind at 1.
    match goal with
    | |- context [copy_images flt ?s ?d ?n ?l ?w0] =>
        destruct (copy_images_log s d n l w0) as (tail & E & Hq);
        destruct (copy_images_val flt s d n l w0) as [w1 Hc]
    end.
    rewrite Hc in *. cbn [snd out] in E.
    unfold bind at 1, print at 1, ret. cbn [snd out]. rewrite E.
    eexists (tail ++ [_]). rewrite <- !app_assoc. split; [done|].
    apply Forall_app. split; [done|]. by constructor.
Qed.

(** The log of a step of the loop, at batch index [i]. *)
Lemma process_location_log pool i location P w :
  pool <> [] ->
  exists s,
    out (process_location flt cfg pool i location P w).2 = out w ++ s
    /\ loop_log cfg pool i [location] s.
Proof.
  intros Hne.
  destruct (exists_ (folder_path cfg location) (files w)) eqn:He.
  { rewrite process_location_exists by done.
    eexists. split; [done | apply loop_log_exists]. }
  destruct (makedirs flt false (folder_path cfg location) (files w))
    as [d'|] eqn:Hm.
  2: { rewrite process_location_create_fails by done.
       eexists. split; [done | apply loop_log_error]. }
  destruct (process_location_created flt cfg pool i location P w d' Hne He Hm)
    as (folder & Hf & ->).
  match goal with
  | |- context [fill_folder flt cfg ?f ?l ?n ?p ?P0 ?w0] =>
      destruct (fill_folder_log f l n p P0 w0) as (tail & E & Hq)
  end.
  rewrite E. cbn [out]. eexists. rewrite <- app_assoc. split; [done|].
  by apply loop_log_created.
Qed.

(** The log of the loop, from batch index [i] on. *)
Lemma process_batch_log pool i batch P w :
  pool <> [] ->
  exists log k,
    out (process_batch flt cfg pool i batch P w).2 = out w ++ log
    /\ loop_log cfg pool i (take k batch) log
    /\ k <= length batch
    /\ (forall P', (process_batch flt cfg pool i batch P w).1 = Val P' ->
                   k = length batch).
Proof.
  intros Hne. revert i P w. induction batch as [|x batch IH]; intros i P w.
  - exists [], 0. cbn. rewrite app_nil_r.
    split; [done|]. split; [apply loop_log_nil|]. done.
  - rewrite process_batch_cons.
    destruct (process_location_log pool i x P w Hne) as (s & E & Hs).
    destruct (process_location flt cfg pool i x P w) as [[P1|o] w1].
    + cbn [snd] in E.
      destruct (IH (S i) P1 w1) as (log & k & E' & Hl & Hk & Hv).
      exists (s ++ log), (S k). rewrite E', E, <- app_assoc.
      split; [done|]. split; [by apply loop_log_app|].
      split; [cbn [length]; lia|].
      intros P' HP. cbn [length]. f_equal. by eapply Hv.
    + cbn [snd] in *. exists s, 1. split; [done|].
      split; [by rewrite firstn_cons, take_0|].
      split; [cbn [length]; lia | done].
Qed.

(** The log of a batch that is materialised. *)
Lemma materialise_batch_log batch P w pool r :
  original_folders_in (source_dir cfg) (files w) = Some pool ->
  materialise_batch flt cfg batch P w = r ->
  exists log k,
    out r.2 = out w ++ log
    /\ loop_log cfg pool 0 (take k batch) log
    /\ k <= length batch
    /\ (r.1 = Val tt \/ r.1 = Halt Returned -> pool = [] \/ k = length batch).
Proof.
  intros Hs. unfold materialise_batch, bind at 1.
  rewrite get_original_folders_val, Hs.
  unfold bind at 1, print at 1. cbn [files out].
  destruct pool as [|f pool].
  { unfold bind, print, halt. cbn [files out]. intros <-. cbn [fst snd out].
    exists [MsgTotalFolders (length (@nil string)); MsgNoFolders], 0.
    rewrite <- app_assoc. split; [done|].
    split; [|split; [lia | by left]].
    apply loop_log_quiet. by repeat constructor. }
  set (pool' := f :: pool). assert (pool' <> []) as Hne by done.
  unfold bind at 1. unfold bind at 1, get_files. cbn [files out].
  destruct (makedirs flt true (target_dir cfg) (files w)) as [d1|].
  2: { unfold halt. intros <-. cbn [fst snd out].
       exists [MsgTotalFolders (length pool')], 0.
       split; [done|]. split; [|split; [lia|]].
       - apply loop_log_quiet. by repeat constructor.
       - intros [H|H]; discriminate H. }
  unfold put_files at 1. cbn [files out]. unfold bind at 1.
  match goal with
  | |- context [process_batch flt cfg pool' 0 batch P ?w0] =>
      destruct (process_batch_log pool' 0 batch P w0 Hne)
        as (log & k & E & Hl & Hk & Hv);
      destruct (process_batch flt cfg pool' 0 batch P w0) as [[P'|o] wl] eqn:Hb
  end; cbn [snd fst out] in E, Hv.
  2: { intros <-. cbn [fst snd].
       exists (MsgTotalFolders (length pool') :: log), k.
       rewrite E, <- app_assoc. split; [done|].
       split; [by apply (loop_log_quiet_l cfg pool' 0 _ [_]);
                 [repeat constructor|]|].
       split; [done|].
       apply process_batch_halt in Hb as [e ->].
       intros [H|H]; discriminate H. }
  unfold bind at 1. rewrite save_state_val.
  destruct (write_text flt (state_file cfg) (dumps_state P') (files wl))
    as [[] d2]; unfold print; cbn [files out]; intros <-; cbn [fst snd out];
    rewrite E.
  - exists (MsgTotalFolders (length pool') :: log
            ++ [MsgBatchComplete (length batch)]), k.
    rewrite <- !app_assoc. split; [done|].
    split; [|split; [done | intros _; right; by eapply Hv]].
    apply (loop_log_quiet_l cfg pool' 0 _ [_]); [by repeat constructor|].
    apply loop_log_quiet_r; [by repeat constructor | done].
  - exists (MsgTotalFolders (length pool') :: log ++ [MsgErrorSavingState]), k.
    rewrite <- !app_assoc. split; [done|].
    split; [|split; [done | intros [H|H]; discriminate H]].
    apply (loop_log_quiet_l cfg pool' 0 _ [_]); [by repeat constructor|].
    apply loop_log_quiet_r; [by repeat constructor | done].
Qed.

(** The log of a run, once the two documents are loaded. *)
Lemma run_batch_log L P w pool r :
  original_folders_in (source_dir cfg) (files w) = Some pool ->
  run_batch flt cfg L P w = r ->
  exists log k,
    out r.2 = out w ++ log
    /\ loop_log cfg pool 0 (take k (current_batch cfg L P)) log
    /\ k <= length (current_batch cfg L P)
    /\ (r.1 = Val tt \/ r.1 = Halt Returned ->
        pool = [] \/ k = length (current_batch cfg L P)).
Proof.
  intros Hs. unfold run_batch.
  destruct (unprocessed_locations L P) as [|u U] eqn:HU.
  { unfold bind, print, halt. intros <-. cbn [fst snd out].
    exists [MsgAllProcessed], 0. split; [done|].
    split; [apply loop_log_quiet; by repeat constructor|].
    split; [lia|]. intros _. right.
    unfold current_batch, slice_to. rewrite HU.
    by destruct (0 <=? batch_size cfg)%Z; rewrite take_nil. }
  destruct (current_batch cfg L P) as [|first batch] eqn:Hb.
  { unfold bind, halt. intros <-. cbn [fst snd].
    exists [], 0. rewrite app_nil_r. split; [done|].
    split; [apply loop_log_nil|]. split; [done|].
    intros [H|H]; discriminate H. }
  destruct (last (first :: batch)) as [final|].
  2: { unfold bind, halt. intros <-. cbn [fst snd].
       exists [], 0. rewrite app_nil_r. split; [done|].
       split; [apply loop_log_nil|]. split; [lia|].
       intros [H|H]; discriminate H. }
  destruct (index first L) as [a|].
  2: { unfold bind, halt. intros <-. cbn [fst snd].
       exists [], 0. rewrite app_nil_r. split; [done|].
       split; [apply loop_log_nil|]. split; [lia|].
       intros [H|H]; discriminate H. }
  destruct (index final L) as [b|].
  2: { unfold bind, halt. intros <-. cbn [fst snd].
       exists [], 0. rewrite app_nil_r. split; [done|].
       split; [apply loop_log_nil|]. split; [lia|].
       intros [H|H]; discriminate H. }
  unfold bind at 1, print at 1. intros Hr.
  destruct (materialise_batch_log (first :: batch) P
              (World (files w)
                 (out w ++ [MsgProcessing (length (first :: batch)) a b]))
              pool r Hs Hr)
    as (log & k & E & Hl & Hk & Hv).
  cbn [out] in E.
  exists (MsgProcessing (length (first :: batch)) a b :: log), k.
  rewrite E, <- app_assoc. split; [done|].
  split; [|done].
  apply (loop_log_quiet_l cfg pool 0 _ [_]); [by repeat constructor | done].
Qed.

(** A step that creates its folder lists and copies the images of the
    original folder at its index. *)
Lemma process_location_fills pool i location P w d' folder images :
  exists_ (folder_path cfg location) (files w) = false ->
  makedirs flt false (folder_path cfg location) (files w) = Some d' ->
  pool !! (i mod length pool) = Some folder ->
  image_files_in (path_join (source_dir cfg) folder) d' = Some images ->
  exists w2,
    copy_images flt (path_join (source_dir cfg) folder)
      (folder_path cfg location) (sanitize_folder_name location)
      (select_images cfg images)
      (World d'
         (out w
          ++ [MsgCreated (folder_path cfg location); MsgSelecting folder]
          ++ (if (Z.of_nat (length images) <? images_per_folder cfg)%Z
              then [MsgNotEnough folder (images_per_folder cfg)
                      (length images)]
              else [])))
    = (Val tt, w2)
    /\ process_location flt cfg pool i location P w
       = (Val (P ++ [location]),
          World (files w2)
            (out w2
             ++ [MsgFinished location (sanitize_folder_name location)])).
Proof.
  intros He Hm Hf Hi.
  assert (pool <> []) as Hne by (by destruct pool).
  destruct (process_location_created flt cfg pool i location P w d' Hne He Hm)
    as (folder' & Hf' & ->).
  rewrite Hf in Hf'. injection Hf' as <-.
  unfold fill_folder. unfold bind at 1, print at 1.
  unfold bind at 1. unfold get_image_files, bind at 1, get_files.
  cbn [files out]. rewrite Hi. cbn [lift_os ret]. unfold bind at 1.
  destruct (Z.of_nat (length images) <? images_per_folder cfg)%Z.
  - unfold print at 1. cbn [files out]. unfold bind at 1.
    rewrite <- !app_assoc. cbn [app].
    match goal with
    | |- context [copy_images flt ?s ?d ?n ?l ?w0] =>
        destruct (copy_images_val flt s d n l w0) as [w2 ->]
    end.
    exists w2. split; [done|]. reflexivity.
  - unfold ret at 1. unfold bind at 1.
    rewrite <- !app_assoc. cbn [app].
    match goal with
    | |- context [copy_images flt ?s ?d ?n ?l ?w0] =>
        destruct (copy_images_val flt s d n l w0) as [w2 ->]
    end.
    exists w2. split; [done|]. reflexivity.
Qed.

(** The log of [main], once the two documents are loaded. *)
Lemma main_log L P w pool :
  read_catalog flt cfg (files w) = Some L ->
  read_processed flt cfg (files w) = Some P ->
  original_folders_in (source_dir cfg) (files w) = Some pool ->
  exists log k,
    out (run_main flt cfg w).2 = out w ++ log
    /\ loop_log cfg pool 0 (take k (current_batch cfg L P)) log
    /\ k <= length (current_batch cfg L P)
    /\ ((run_main flt cfg w).1 = Returned ->
        pool = [] \/ k = length (current_batch cfg L P)).
Proof.
  intros HL HP Hs. unfold run_main, run_of.
  rewrite (main_loaded flt cfg w L P HL HP).
  match goal with
  | |- context [run_batch flt cfg L P ?w0] =>
      destruct (run_batch_log L P w0 pool _ Hs eq_refl)
        as (log & k & E & Hl & Hk & Hv);
      destruct (run_batch flt cfg L P w0) as [[[]|o] w'] eqn:Hr
  end; cbn [fst snd out] in *.
  - exists ([MsgTotalLocations (length L); MsgAlreadyProcessed (length P)]
            ++ log), k.
    rewrite E, <- app_assoc. split; [done|].
    split; [by apply loop_log_quiet_l; [repeat constructor|]|].
    split; [done|]. intros _. apply Hv. by left.
  - exists ([MsgTotalLocations (length L); MsgAlreadyProcessed (length P)]
            ++ log), k.
    rewrite E, <- app_assoc. split; [done|].
    split; [by apply loop_log_quiet_l; [repeat constructor|]|].
    split; [done|]. intros ->. apply Hv. by right.
Qed.

End LoopLog.

Section Counting.
Import PyStr Json Fs Reap Notions.
Local Open Scope list_scope.

Lemma cycle_prefix pool k n :
  k <= n -> sublist (cycle pool 0 k) (cycle pool 0 n).
Proof.
  intros H. unfold cycle. replace n with (k + (n - k)) by lia.
  rewrite seq_app, omap_app. apply sublist_inserts_r. done.
Qed.

(** The positions of a batch that give one folder of the pool. *)
Lemma batch_positions_bounds pool size j :
  j < length pool ->
  floor_div size (length pool) <= length (batch_positions pool size j)
  /\ length (batch_positions pool size j) <= ceil_div size (length pool)
  /\ (length (batch_positions pool size j) = floor_div size (length pool)
      \/ length (batch_positions pool size j) = ceil_div size (length pool)).
Proof.
  intros Hj. rewrite batch_positions_length by done. unfold floor_div.
  destruct (ceil_div_cases size (length pool) ltac:(lia))
    as [[Hz ->] | [Hnz ->]]; case_decide; lia.
Qed.

(** The number of locations that a log of the loop gives a folder. *)
Lemma loop_log_served cfg pool visited log n j folder :
  loop_log cfg pool 0 visited log ->
  length visited <= n ->
  NoDup pool -> pool !! j = Some folder ->
  served folder log <= ceil_div n (length pool)
  /\ (length visited = n -> skips log = 0 ->
      served folder log = floor_div n (length pool)
      \/ served folder log = ceil_div n (length pool)).
Proof.
  intros (_ & _ & Hsub & Heq) Hn Hnd Hj.
  assert (j < length pool) as Hlt by (by eapply lookup_lt_Some).
  destruct (batch_positions_bounds pool n j Hlt) as (_ & Hle & Hor).
  unfold served. split.
  - etrans; [apply filter_sublist_length; exact Hsub|].
    etrans; [apply filter_sublist_length, (cycle_prefix pool _ n Hn)|].
    by rewrite (cycle_count pool n j folder Hnd Hj).
  - intros E Hskip. rewrite Heq, E by done.
    by rewrite (cycle_count pool n j folder Hnd Hj).
Qed.

End Counting.

(* ===================================================================== *)
(** * The properties of the specification                                 *)
(* ===================================================================== *)

Section Properties.
Import PyStr Json Fs Reap Notions Scenario.
Local Open Scope list_scope.

(** ** The batch planner *)

(** C1.  The unprocessed list is the catalog filtered by absence from the
    processed list: it is a sublist of the catalog (the order is kept), it
    holds the locations of the catalog that are not processed, and, for a
    batch size that is not negative, the batch is its first [batch_size]
    entries. *)
Theorem batch_is_first_unprocessed cfg L P :
  (0 <= batch_size cfg)%Z ->
  unprocessed_locations L P = filter (fun loc => loc ∉ P) L
  /\ sublist (unprocessed_locations L P) L
  /\ (forall x, x ∈ unprocessed_locations L P <-> x ∈ L /\ x ∉ P)
  /\ current_batch cfg L P
     = take (Z.to_nat (batch_size cfg)) (unprocessed_locations L P).
Proof.
  intros H. split; [apply unprocessed_filter|].
  split; [apply unprocessed_sublist|].
  split; [intros x; apply elem_of_unprocessed|].
  by apply slice_to_nonneg.
Qed.

Lemma batch_is_first_unprocessed_witness :
  (0 <= batch_size (cfg 2))%Z
  /\ current_batch (cfg 2) ["A"; "B"; "C"; "D"] ["B"] = ["A"; "C"].
Proof.
  assert (0 <= batch_size (cfg 2))%Z as H by (vm_compute; discriminate).
  split; [exact H|].
  destruct (batch_is_first_unprocessed (cfg 2) ["A"; "B"; "C"; "D"] ["B"] H)
    as (_ & _ & _ & E).
  rewrite E. vm_compute. reflexivity.
Defined.

(** C2, as stated, does not hold: a location that is passed over takes
    its batch index with it.  With a pool of two folders and a batch of
    three locations of which the first and the last have their folder
    already, the run returns having selected the second folder once and
    the first folder never, where the ratio rounds to 1 and 2. *)
Lemma cyclic_count_counterexample :
  original_folders_in (source_dir (cfg 3)) disk_skips = Some ["S1"; "S2"]
  /\ read_catalog no_faults (cfg 3) disk_skips = Some ["A"; "B"; "C"]
  /\ read_processed no_faults (cfg 3) disk_skips = Some []
  /\ current_batch (cfg 3) ["A"; "B"; "C"] [] = ["A"; "B"; "C"]
  /\ (run_main no_faults (cfg 3) (start disk_skips)).1 = Returned
  /\ selections (out (run_main no_faults (cfg 3) (start disk_skips)).2)
     = ["S2"]
  /\ served "S1" (out (run_main no_faults (cfg 3) (start disk_skips)).2) = 0
  /\ floor_div 3 2 = 1 /\ ceil_div 3 2 = 2.
Proof. vm_compute. repeat split; reflexivity. Qed.

(** C2 as amended.  In a run of [main] that loads the catalog and the
    processed list and scans the pool, the lines that the loop leaves in
    the log are, in order, those of the first locations of the batch; every
    selection of an original folder is made for a location of the batch
    whose folder the run has created, and it names the folder of the pool
    at the batch index of that location, taken modulo the size of the
    pool: the index counts every location of the batch from 0, passed
    over or not.
    A folder of the pool is so given to no more locations than the ratio
    of batch size to pool size, rounded up, and to that ratio rounded
    down or up when the run returns and passes over no location.  The
    step that creates the folder of a location lists and copies the images
    of the folder at its index. *)
Theorem cyclic_source_assignment flt cfg w L P pool :
  read_catalog flt cfg (files w) = Some L ->
  read_processed flt cfg (files w) = Some P ->
  original_folders_in (source_dir cfg) (files w) = Some pool ->
  exists log,
    out (run_main flt cfg w).2 = out w ++ log
    /\ visits log <= length (current_batch cfg L P)
    /\ Forall2 (visit_line cfg) (List.filter visit log)
         (take (visits log) (current_batch cfg L P))
    /\ Forall (fun a => created_at cfg (current_batch cfg L P) log a.1
                        /\ pool !! (a.1 mod length pool) = Some a.2)
              (assignments 0 log)
    /\ (forall j folder,
          NoDup pool -> pool !! j = Some folder ->
          served folder log
          <= ceil_div (length (current_batch cfg L P)) (length pool)
          /\ ((run_main flt cfg w).1 = Returned -> skips log = 0 ->
              served folder log
              = floor_div (length (current_batch cfg L P)) (length pool)
              \/ served folder log
                 = ceil_div (length (current_batch cfg L P)) (length pool)))
    /\ (forall i location P1 w1 d' folder images,
          exists_ (folder_path cfg location) (files w1) = false ->
          makedirs flt false (folder_path cfg location) (files w1) = Some d' ->
          pool !! (i mod length pool) = Some folder ->
          image_files_in (path_join (source_dir cfg) folder) d'
          = Some images ->
          exists w2,
            copy_images flt (path_join (source_dir cfg) folder)
              (folder_path cfg location) (sanitize_folder_name location)
              (select_images cfg images)
              (World d'
                 (out w1
                  ++ [MsgCreated (folder_path cfg location);
                      MsgSelecting folder]
                  ++ (if (Z.of_nat (length images)
                          <? images_per_folder cfg)%Z
                      then [MsgNotEnough folder (images_per_folder cfg)
                              (length images)]
                      else [])))
            = (Val tt, w2)
            /\ process_location flt cfg pool i location P1 w1
               = (Val (P1 ++ [location]),
                  World (files w2)
                    (out w2
                     ++ [MsgFinished location
                           (sanitize_folder_name location)]))).
Proof.
  intros HL HP Hs.
  destruct (main_log flt cfg L P w pool HL HP Hs)
    as (log & k & E & Hl & Hk & Hv).
  pose proof (loop_log_visits _ _ _ _ _ Hl) as Hn.
  rewrite length_take_le in Hn by done.
  exists log. split; [done|]. rewrite Hn. split; [done|].
  split; [apply Hl|]. split; [|split].
  - destruct Hl as (_ & Ha & _).
    eapply Forall_impl; [exact Ha|].
    intros a (_ & (location & Hloc & Hc) & Hf).
    rewrite Nat.sub_0_r in Hloc, Hc. split; [|done].
    exists location. split; [|done].
    by apply lookup_take_Some in Hloc as [Hloc _].
  - intros j folder Hnd Hj.
    destruct (loop_log_served cfg pool _ log
                (length (current_batch cfg L P)) j folder Hl
                ltac:(rewrite length_take_le by done; done) Hnd Hj)
      as [Hle Hex].
    split; [done|]. intros Hr Hskip.
    destruct (Hv Hr) as [E0 | E0]; [by subst pool|].
    apply Hex; [|done]. by rewrite length_take_le.
  - intros i location P1 w1 d' folder images.
    apply process_location_fills.
Qed.

Lemma cyclic_source_assignment_witness :
  exists log,
    out (run_main no_faults (cfg 2) (start disk)).2 = out (start disk) ++ log
    /\ Forall (fun a => created_at (cfg 2) ["B"; "C"] log a.1
                        /\ ["S1"; "S2"] !! (a.1 mod length ["S1"; "S2"])
                           = Some a.2)
              (assignments 0 log)
    /\ assignments 0 (out (run_main no_faults (cfg 2) (start disk)).2)
       = [(0, "S1"); (1, "S2")].
Proof.
  destruct (cyclic_source_assignment no_faults (cfg 2) (start disk)
              ["A"; "B"; "C"] ["A"] ["S1"; "S2"])
    as (log & E & _ & _ & Ha & _);
    [vm_compute; reflexivity | vm_compute; reflexivity
     | vm_compute; reflexivity |].
  exists log. split; [exact E|]. split; [exact Ha|].
  vm_compute. reflexivity.
Defined.

(** ** The progress store *)

(** C3.  When [save_state] fails, the run exits with status 1 and the file
    system is as it was before the call, or the state file holds a text
    that no reader can load: [load_state] then stops with the error exit,
    whatever the faults of the reader are.  No half-written state is ever
    taken for a valid one. *)
Theorem save_state_failure_is_loud flt p processed w o w' :
  save_state flt p processed w = (Halt o, w') ->
  o = Exited 1
  /\ (files w' = files w
      \/ forall reader, exists w'',
           load_state reader p w' = (Halt (Exited 1), w'')).
Proof.
  rewrite save_state_val.
  destruct (write_text flt p (dumps_state processed) (files w))
    as [[] d'] eqn:Hw; [discriminate|].
  intros [= <- <-]. split; [done|]. cbn [files].
  apply write_text_failed in Hw as [-> | (k & Hk & Hd)]; [by left|].
  right. intros reader. rewrite load_state_val. cbn [files out].
  rewrite (exists_lookup _ _ _ Hd). cbn [negb].
  rewrite (read_state_undecodable reader _ _ _ Hd (loads_truncated _ _ Hk)).
  eauto.
Qed.

Lemma save_state_failure_is_loud_witness :
  save_state faults_write "state.json" ["A"; "B"] (start disk)
  = (Halt (Exited 1), after_failed_save)
  /\ (files after_failed_save = files (start disk)
      \/ forall reader, exists w'',
           load_state reader "state.json" after_failed_save
           = (Halt (Exited 1), w'')).
Proof.
  assert (save_state faults_write "state.json" ["A"; "B"] (start disk)
          = (Halt (Exited 1), after_failed_save)) as H
    by (vm_compute; reflexivity).
  split; [exact H|].
  exact (proj2 (save_state_failure_is_loud _ _ _ _ _ _ H)).
Defined.

(** C10, as stated, does not hold: a state file that holds the JSON array
    [[]] is valid JSON without the member, and [load_state] exits. *)
Lemma load_state_array_counterexample :
  files (start disk_array_state) !! "state.json" = Some (File "[]")
  /\ loads "[]" = Some (JArr [])
  /\ load_state no_faults "state.json" (start disk_array_state)
     = (Halt (Exited 1),
        World disk_array_state [MsgErrorLoadingState]).
Proof. vm_compute. repeat split; reflexivity. Qed.

(** C10 as amended.  A state file that decodes to an object without the
    member [processed_locations] loads as the empty list. *)
Theorem load_state_object_without_field flt p w text members :
  files w !! p = Some (File text) ->
  read_fault flt p = false ->
  loads text = Some (JObj members) ->
  dict_get "processed_locations" members = None ->
  load_state flt p w = (Val (JArr []), w)
  /\ as_string_list (JArr []) = Some [].
Proof.
  intros Hd Hf Hl Hm. split; [|done].
  rewrite load_state_val, (exists_lookup _ _ _ Hd). cbn [negb].
  unfold read_state, read_text. rewrite Hf, Hd. cbn [mbind option_bind].
  rewrite Hl. cbn [mbind option_bind]. by rewrite Hm.
Qed.

Lemma load_state_object_without_field_witness :
  load_state no_faults "state.json" (start disk_other_state)
  = (Val (JArr []), start disk_other_state)
  /\ as_string_list (JArr []) = Some [].
Proof.
  apply (load_state_object_without_field no_faults "state.json"
           (start disk_other_state) "{}" []);
    vm_compute; reflexivity.
Defined.

(** ** The run *)

(** C4, as stated, does not hold: with a source directory that has no
    folder, the script returns, and the exit status is 0. *)
Lemma no_source_folder_counterexample :
  original_folders_in (source_dir (cfg 2)) disk_no_folders = Some []
  /\ (run_script no_faults (cfg 2) (start disk_no_folders)).1 = Returned
  /\ exit_status (run_script no_faults (cfg 2) (start disk_no_folders)).1
     = 0%Z.
Proof. vm_compute. repeat split; reflexivity. Qed.

(** C4 as amended.  When the batch is not empty, so that the run reaches
    the scan, and the scan of the source directory yields no
    folder, [main] reports it and returns: exit status 0, and the files as
    they were. *)
Theorem no_source_folder_run_returns flt cfg w L P :
  read_catalog flt cfg (files w) = Some L ->
  read_processed flt cfg (files w) = Some P ->
  current_batch cfg L P <> [] ->
  original_folders_in (source_dir cfg) (files w) = Some [] ->
  exists a b,
    run_main flt cfg w
    = (Returned,
       World (files w)
             (out w ++ [MsgTotalLocations (length L);
                        MsgAlreadyProcessed (length P);
                        MsgProcessing (length (current_batch cfg L P)) a b;
                        MsgTotalFolders 0;
                        MsgNoFolders]))
    /\ exit_status Returned = 0%Z.
Proof.
  intros HL HP Hb Hs.
  unfold run_main, run_of. rewrite (main_loaded _ _ _ _ _ HL HP).
  match goal with
  | |- context [run_batch flt cfg L P ?w0] =>
      destruct (run_batch_no_folders flt cfg L P w0) as (a & b & ->);
        [done | done |]
  end.
  exists a, b. cbn [files out]. split; [|done].
  by rewrite <- app_assoc.
Qed.

Lemma no_source_folder_run_returns_witness :
  exists a b,
    run_main no_faults (cfg 2) (start disk_no_folders)
    = (Returned,
       World disk_no_folders
             [MsgTotalLocations 3; MsgAlreadyProcessed 0;
              MsgProcessing 2 a b; MsgTotalFolders 0; MsgNoFolders])
    /\ exit_status Returned = 0%Z.
Proof.
  apply (no_source_folder_run_returns no_faults (cfg 2)
           (start disk_no_folders) ["A"; "B"; "C"] []);
    vm_compute; (reflexivity || discriminate).
Defined.

(** C5, as stated, does not hold: with a batch of one location and two
    locations left, the second run marks a new location and copies
    images. *)
Lemma second_run_counterexample :
  run_main no_faults (cfg 1) (start disk) = (Returned, after_first_of_two)
  /\ read_processed no_faults (cfg 1) (files after_first_of_two)
     = Some ["A"; "B"]
  /\ read_processed no_faults (cfg 1)
       (files (run_main no_faults (cfg 1) after_first_of_two).2)
     = Some ["A"; "B"; "C"]
  /\ copies (drop (length (out after_first_of_two))
               (out (run_main no_faults (cfg 1) after_first_of_two).2))
     = [MsgCopied "x.jpg" "C"; MsgCopied "y.png" "C"].
Proof. vm_compute. repeat split; reflexivity. Qed.

(** C5 as amended.  When the batch of the first run covers every
    unprocessed location and no folder creation fails, a second run on the
    world the first one left, with the same catalog, changes no file (the
    state file included) and reports no copy. *)
Theorem second_run_after_covering_batch flt cfg w0 w1 L P :
  read_catalog flt cfg (files w0) = Some L ->
  read_processed flt cfg (files w0) = Some P ->
  (Z.of_nat (length (unprocessed_locations L P)) <= batch_size cfg)%Z ->
  (forall p, mkdir_fault flt p = false) ->
  run_main flt cfg w0 = (Returned, w1) ->
  read_catalog flt cfg (files w1) = Some L ->
  exists o w2 log,
    run_main flt cfg w1 = (o, w2)
    /\ files w2 = files w1
    /\ out w2 = out w1 ++ log
    /\ copies log = [].
Proof.
  intros HL HP Hcover Hmk Hrun HL1.
  unfold run_main in Hrun.
  assert (run_of (main flt cfg) w0
          = run_of (run_batch flt cfg L P)
              (World (files w0)
                 (out w0 ++ [MsgTotalLocations (length L);
                             MsgAlreadyProcessed (length P)]))) as Hm.
  { unfold run_of. by rewrite (main_loaded _ _ _ _ _ HL HP). }
  rewrite Hm in Hrun. clear Hm.
  apply run_batch_returned in Hrun as [[HU ->] | (a & b & _ & Hb & Hrun)].
  { (* nothing was left to do *)
    cbn [files] in *. eexists _, _, _. unfold run_main, run_of.
    rewrite (main_loaded flt cfg _ L P) by done.
    rewrite run_batch_all_processed by done. cbn [files out].
    split; [done|]. split; [done|]. split; [by rewrite <- app_assoc|done]. }
  apply materialise_batch_returned in Hrun
    as [[Hs ->] | (pool & d1 & P' & wl & _ & _ & _ & Hloop & Hw & _)].
  { (* no source folder, in both runs *)
    cbn [files] in *. unfold run_main, run_of.
    rewrite (main_loaded flt cfg _ L P) by done. cbn [files out].
    match goal with
    | |- context [run_batch flt cfg L P ?w] =>
        destruct (run_batch_no_folders flt cfg L P w) as (a' & b' & ->);
          [done | done |]
    end.
    cbn [files out]. eexists _, _, _.
    split; [done|]. split; [done|].
    split; [symmetry; apply app_assoc | done]. }
  (* the batch was materialised and recorded *)
  apply process_batch_marks in Hloop as ->; [|done].
  rewrite current_batch_covers in Hw by done.
  apply write_text_done in Hw.
  destruct (read_fault flt (state_file cfg)) eqn:Hf.
  - eexists _, _, _. unfold run_main, run_of.
    rewrite (main_state_unreadable flt cfg w1 L); [| done | |].
    + cbn [files out]. split; [done|]. split; [done|]. by split.
    + by eapply exists_lookup.
    + unfold read_state, read_text. by rewrite Hf.
  - eexists _, _, _. unfold run_main, run_of.
    rewrite (main_loaded flt cfg w1 L (P ++ unprocessed_locations L P));
      [| done | by apply read_processed_written].
    rewrite run_batch_all_processed by apply unprocessed_after_all.
    cbn [files out]. split; [done|]. split; [done|].
    split; [by rewrite <- app_assoc|done].
Qed.

Lemma second_run_after_covering_batch_witness :
  run_main no_faults (cfg 2) (start disk) = (Returned, after_covering)
  /\ exists o w2 log,
       run_main no_faults (cfg 2) after_covering = (o, w2)
       /\ files w2 = files after_covering
       /\ out w2 = out after_covering ++ log
       /\ copies log = [].
Proof.
  assert (run_main no_faults (cfg 2) (start disk)
          = (Returned, after_covering)) as H by (vm_compute; reflexivity).
  split; [exact H|].
  apply (second_run_after_covering_batch no_faults (cfg 2) (start disk)
           after_covering ["A"; "B"; "C"] ["A"]);
    [vm_compute; reflexivity | vm_compute; reflexivity
     | vm_compute; discriminate | reflexivity | exact H
     | vm_compute; reflexivity].
Defined.

(** C6.  When every location of the catalog is in the loaded processed
    list, [main] reports it and returns: exit status 0, the files as they
    were, and nothing logged but the two counts and the report. *)
Theorem all_processed_run_is_clean flt cfg w L P :
  read_catalog flt cfg (files w) = Some L ->
  read_processed flt cfg (files w) = Some P ->
  (forall x, x ∈ L -> x ∈ P) ->
  run_main flt cfg w
  = (Returned,
     World (files w)
           (out w ++ [MsgTotalLocations (length L);
                      MsgAlreadyProcessed (length P);
                      MsgAllProcessed]))
  /\ exit_status Returned = 0%Z.
Proof.
  intros HL HP Hall. split; [|done].
  unfold run_main, run_of. rewrite (main_loaded _ _ _ _ _ HL HP).
  rewrite run_batch_all_processed.
  - cbn [files out]. by rewrite <- app_assoc.
  - destruct (unprocessed_locations L P) as [|x U] eqn:E; [done|].
    assert (x ∈ unprocessed_locations L P) as Hx by (rewrite E; left).
    apply elem_of_unprocessed in Hx as [Hx1 Hx2]. by apply Hall in Hx1.
Qed.

Lemma all_processed_run_is_clean_witness :
  run_main no_faults (cfg 2) (start disk_done)
  = (Returned,
     World disk_done
           [MsgTotalLocations 3; MsgAlreadyProcessed 3; MsgAllProcessed])
  /\ exit_status Returned = 0%Z.
Proof.
  apply (all_processed_run_is_clean no_faults (cfg 2) (start disk_done)
           ["A"; "B"; "C"] ["A"; "B"; "C"]);
    [vm_compute; reflexivity | vm_compute; reflexivity | done].
Defined.

(** ** The folder materialiser *)

(** C7.  A location whose folder exists is marked and skipped: the step
    returns the processed list with the location at its end, the files are
    as they were, the only message is the notice, and the loop goes on
    with the next entry. *)
Theorem existing_folder_is_skipped_and_marked flt cfg pool i location rest P w :
  exists_ (folder_path cfg location) (files w) = true ->
  process_location flt cfg pool i location P w
  = (Val (P ++ [location]),
     World (files w)
           (out w ++ [MsgFolderExists (sanitize_folder_name location)]))
  /\ process_batch flt cfg pool i (location :: rest) P w
     = process_batch flt cfg pool (S i) rest (P ++ [location])
         (World (files w)
                (out w ++ [MsgFolderExists (sanitize_folder_name location)])).
Proof.
  intros H. split.
  - by apply process_location_exists.
  - by rewrite process_batch_cons, process_location_exists.
Qed.

Lemma existing_folder_is_skipped_and_marked_witness :
  exists_ (folder_path (cfg 2) "B") (files (start disk_with_B)) = true
  /\ process_location no_faults (cfg 2) ["S1"; "S2"] 0 "B" ["A"]
       (start disk_with_B)
     = (Val ["A"; "B"], World disk_with_B [MsgFolderExists "B"]).
Proof.
  assert (exists_ (folder_path (cfg 2) "B") (files (start disk_with_B))
          = true) as H by (vm_compute; reflexivity).
  split; [exact H|].
  exact (proj1 (existing_folder_is_skipped_and_marked no_faults (cfg 2)
                  ["S1"; "S2"] 0 "B" ["C"] ["A"] (start disk_with_B) H)).
Defined.

(** C8.  A location whose folder cannot be created is reported and left
    out of the processed list, the files are as they were, and the loop
    goes on with the next entry. *)
Theorem failed_creation_is_skipped_unmarked flt cfg pool i location rest P w :
  exists_ (folder_path cfg location) (files w) = false ->
  makedirs flt false (folder_path cfg location) (files w) = None ->
  process_location flt cfg pool i location P w
  = (Val P,
     World (files w)
           (out w ++ [MsgErrorCreating (sanitize_folder_name location)]))
  /\ process_batch flt cfg pool i (location :: rest) P w
     = process_batch flt cfg pool (S i) rest P
         (World (files w)
                (out w ++ [MsgErrorCreating (sanitize_folder_name location)])).
Proof.
  intros H Hm. split.
  - by apply process_location_create_fails.
  - by rewrite process_batch_cons, process_location_create_fails.
Qed.

Lemma failed_creation_is_skipped_unmarked_witness :
  exists_ (folder_path (cfg 2) "B") (files (start disk)) = false
  /\ makedirs faults_mkdir_B false (folder_path (cfg 2) "B")
       (files (start disk)) = None
  /\ process_location faults_mkdir_B (cfg 2) ["S1"; "S2"] 0 "B" ["A"]
       (start disk)
     = (Val ["A"], World disk [MsgErrorCreating "B"]).
Proof.
  assert (exists_ (folder_path (cfg 2) "B") (files (start disk)) = false)
    as H1 by (vm_compute; reflexivity).
  assert (makedirs faults_mkdir_B false (folder_path (cfg 2) "B")
            (files (start disk)) = None) as H2 by (vm_compute; reflexivity).
  split; [exact H1|]. split; [exact H2|].
  exact (proj1 (failed_creation_is_skipped_unmarked faults_mkdir_B (cfg 2)
                  ["S1"; "S2"] 0 "B" ["C"] ["A"] (start disk) H1 H2)).
Defined.

(** ** The invariants of the processed list *)

(** C9.  With a catalog without repetitions and a loaded processed list
    that is inside the catalog and without repetitions: at every point of
    the loop over the batch the processed list is still so, and a run that
    returns leaves a state file whose list extends the loaded one and is
    still so. *)
Theorem processed_list_invariant flt cfg w w' L P :
  NoDup L ->
  read_catalog flt cfg (files w) = Some L ->
  read_processed flt cfg (files w) = Some P ->
  P ⊆ L -> NoDup P ->
  run_main flt cfg w = (Returned, w') ->
  (forall pool i k wk,
      match process_batch flt cfg pool i
              (take k (current_batch cfg L P)) P wk with
      | (Val P', _) => P `prefix_of` P' /\ P' ⊆ L /\ NoDup P'
      | (Halt _, _) => True
      end)
  /\ exists P',
       read_processed no_faults cfg (files w') = Some P'
       /\ P `prefix_of` P' /\ P' ⊆ L /\ NoDup P'.
Proof.
  intros HnL HL HP HPL HnP Hrun. split.
  { intros pool i k wk.
    destruct (process_batch _ _ _ _ _ _ _) as [[P'|o] wk'] eqn:Hb; [|done].
    apply process_batch_val in Hb as (marked & -> & Hsub).
    destruct (marked_invariant cfg L P marked) as [Hin Hnd]; try done.
    - etrans; [exact Hsub | apply sublist_take].
    - split; [by apply prefix_app_r | done]. }
  assert (read_processed no_faults cfg (files w) = Some P) as HP0
    by (by eapply read_processed_no_faults).
  unfold run_main in Hrun.
  assert (run_of (main flt cfg) w
          = run_of (run_batch flt cfg L P)
              (World (files w)
                 (out w ++ [MsgTotalLocations (length L);
                            MsgAlreadyProcessed (length P)]))) as Hm.
  { unfold run_of. by rewrite (main_loaded _ _ _ _ _ HL HP). }
  rewrite Hm in Hrun. clear Hm.
  apply run_batch_returned in Hrun as [[_ ->] | (a & b & _ & _ & Hrun)].
  { exists P. by repeat split. }
  apply materialise_batch_returned in Hrun
    as [[_ ->] | (pool & d1 & P' & wl & _ & _ & _ & Hb & Hw & _)].
  { exists P. by repeat split. }
  apply process_batch_val in Hb as (marked & -> & Hsub).
  apply write_text_done in Hw.
  destruct (marked_invariant cfg L P marked) as [Hin Hnd]; try done.
  exists (P ++ marked). split.
  - by apply (read_processed_written no_faults).
  - split; [by apply prefix_app_r|]. done.
Qed.

Lemma processed_list_invariant_witness :
  run_main no_faults (cfg 2) (start disk) = (Returned, after_covering)
  /\ exists P',
       read_processed no_faults (cfg 2) (files after_covering) = Some P'
       /\ ["A"] `prefix_of` P' /\ P' ⊆ ["A"; "B"; "C"] /\ NoDup P'.
Proof.
  assert (run_main no_faults (cfg 2) (start disk)
          = (Returned, after_covering)) as H by (vm_compute; reflexivity).
  split; [exact H|].
  refine (proj2 (processed_list_invariant no_faults (cfg 2) (start disk)
                   after_covering ["A"; "B"; "C"] ["A"] _ _ _ _ _ H)).
  - apply (bool_decide_unpack _). vm_compute. reflexivity.
  - vm_compute. reflexivity.
  - vm_compute. reflexivity.
  - apply (bool_decide_unpack _). vm_compute. reflexivity.
  - apply (bool_decide_unpack _). vm_compute. reflexivity.
Defined.

End Properties.

(* ===================================================================== *)
(** * Lemmas: folder names                                                *)
(* ===================================================================== *)

Section SanitizeLemmas.
Import PyStr Json Fs Reap Notions.
Local Open Scope list_scope.

Lemma chr_eqb_eq a b : chr_eqb a b = true <-> a = b.
Proof. apply Ascii.eqb_eq. Qed.

Lemma map_chars_ext f g s :
  (forall c, f c = g c) -> map_chars f s = map_chars g s.
Proof.
  intros H. induction s as [|c s IH]; [done|].
  cbn [map_chars]. by rewrite H, IH.
Qed.

Lemma replace_char_map old new s :
  replace_char old new s
  = map_chars (fun c => if chr_eqb c old then new else c) s.
Proof. induction s as [|c s IH]; [done|]. cbn. by rewrite IH. Qed.

Lemma map_chars_compose f g s :
  map_chars f (map_chars g s) = map_chars (fun c => f (g c)) s.
Proof. induction s as [|c s IH]; [done|]. cbn. by rewrite IH. Qed.

(** The replacements one after the other amount to one pass, as long as
    the replacement character is not itself replaced. *)
Lemma sanitize_with_map chars s :
  mem_char "_" chars = false ->
  sanitize_with chars s
  = map_chars (fun c => if mem_char c chars then "_"%char else c) s.
Proof.
  revert s. induction chars as [|ch rest IH]; intros s Hu.
  - cbn [sanitize_with mem_char]. induction s as [|c s IHs]; [done|].
    cbn [map_chars]. by rewrite <- IHs.
  - cbn [mem_char] in Hu. apply orb_false_iff in Hu as [Hne Hrest].
    cbn [sanitize_with]. rewrite IH by done.
    rewrite replace_char_map, map_chars_compose.
    apply map_chars_ext. intros c. cbn [mem_char].
    destruct (chr_eqb c ch) eqn:E; cbn [orb]; [|done].
    by rewrite Hrest.
Qed.

Lemma sanitize_one_pass s :
  sanitize_folder_name s = map_chars sanitize_char s.
Proof. unfold sanitize_folder_name. by rewrite sanitize_with_map. Qed.

Lemma sanitize_char_valid c : mem_char (sanitize_char c) invalid_chars = false.
Proof.
  unfold sanitize_char. destruct (mem_char c invalid_chars) eqn:E; done.
Qed.

Lemma mem_char_map_chars c f s :
  mem_char c (map_chars f s) = true -> exists d, mem_char d s = true /\ c = f d.
Proof.
  induction s as [|x s IH]; [done|]. cbn [map_chars mem_char].
  intros [H|H]%orb_true_iff.
  - apply chr_eqb_eq in H. exists x. split; [|done].
    by rewrite (proj2 (chr_eqb_eq x x) eq_refl).
  - destruct (IH H) as (d & Hd & ->). exists d. split; [|done].
    rewrite Hd. apply orb_true_r.
Qed.

Lemma map_chars_length f s : String.length (map_chars f s) = String.length s.
Proof. induction s as [|c s IH]; [done|]. cbn. by rewrite IH. Qed.

Lemma map_chars_id f s :
  (forall c, mem_char c s = true -> f c = c) -> map_chars f s = s.
Proof.
  induction s as [|x s IH]; intros H; [done|]. cbn [map_chars].
  rewrite H, IH; [done| |].
  - intros c Hc. apply H. cbn [mem_char]. rewrite Hc. apply orb_true_r.
  - cbn [mem_char]. by rewrite (proj2 (chr_eqb_eq x x) eq_refl).
Qed.

End SanitizeLemmas.

Section SanitizeProperties.
Import PyStr Json Fs Reap Notions.
Local Open Scope list_scope.

(** X1.  The nine replacements of [sanitize_folder_name] amount to one
    pass over the name that puts an underscore for each invalid character
    and keeps the others; the length of the name is kept. *)
Theorem sanitize_is_one_pass s :
  sanitize_folder_name s = map_chars sanitize_char s
  /\ String.length (sanitize_folder_name s) = String.length s.
Proof.
  split; [apply sanitize_one_pass|].
  rewrite sanitize_one_pass. apply map_chars_length.
Qed.

(** X2.  A sanitized name holds none of the invalid characters. *)
Theorem sanitized_name_is_valid s c :
  mem_char c invalid_chars = true ->
  mem_char c (sanitize_folder_name s) = false.
Proof.
  intros Hc. rewrite sanitize_one_pass.
  destruct (mem_char c (map_chars sanitize_char s)) eqn:E; [|done].
  apply mem_char_map_chars in E as (d & _ & ->).
  by rewrite sanitize_char_valid in Hc.
Qed.

Lemma sanitized_name_is_valid_witness :
  mem_char "/" invalid_chars = true
  /\ mem_char "/" (sanitize_folder_name "a/b:c") = false.
Proof.
  assert (mem_char "/" invalid_chars = true) as H by (vm_compute; reflexivity).
  split; [exact H|]. exact (sanitized_name_is_valid "a/b:c" "/" H).
Defined.

(** X3.  Sanitizing twice is sanitizing once. *)
Theorem sanitize_idempotent s :
  sanitize_folder_name (sanitize_folder_name s) = sanitize_folder_name s.
Proof.
  rewrite (sanitize_one_pass (sanitize_folder_name s)).
  apply map_chars_id. intros c Hc. unfold sanitize_char.
  destruct (mem_char c invalid_chars) eqn:E; [|done].
  rewrite sanitize_one_pass in Hc.
  apply mem_char_map_chars in Hc as (d & _ & ->).
  by rewrite sanitize_char_valid in E.
Qed.

(** X4.  A name without invalid character is its own sanitized name. *)
Theorem sanitize_keeps_valid_names s :
  (forall c, mem_char c invalid_chars = true -> mem_char c s = false) ->
  sanitize_folder_name s = s.
Proof.
  intros Hs. rewrite sanitize_one_pass. apply map_chars_id.
  intros c Hc. unfold sanitize_char.
  destruct (mem_char c invalid_chars) eqn:E; [|done].
  by rewrite (Hs c E) in Hc.
Qed.

Lemma sanitize_keeps_valid_names_witness :
  sanitize_folder_name "Lake Como 2" = "Lake Como 2".
Proof.
  apply sanitize_keeps_valid_names.
  intros [b0 b1 b2 b3 b4 b5 b6 b7].
  destruct b0, b1, b2, b3, b4, b5, b6, b7; vm_compute;
    (reflexivity || discriminate).
Defined.

End SanitizeProperties.

(* ===================================================================== *)
(** * Lemmas: the scans of the source directory                           *)
(* ===================================================================== *)

Section ScanLemmas.
Import PyStr Json Fs Reap Notions.
Local Open Scope list_scope.

Lemma insert_sorted_perm x l : Permutation (insert_sorted x l) (x :: l).
Proof.
  induction l as [|y l IH]; [done|]. cbn [insert_sorted].
  destruct (String.leb x y); [done|].
  rewrite IH. apply perm_swap.
Qed.

Lemma sorted_perm l : Permutation (sorted l) l.
Proof.
  unfold sorted. induction l as [|x l IH]; [done|].
  cbn [foldr]. rewrite insert_sorted_perm. by constructor.
Qed.

Lemma insert_sorted_hd x y l :
  name_le y x -> HdRel name_le y l -> HdRel name_le y (insert_sorted x l).
Proof.
  intros Hyx Hl. destruct l as [|z l]; cbn [insert_sorted].
  - by constructor.
  - destruct (String.leb x z); constructor; [done|].
    by inversion Hl.
Qed.

Lemma insert_sorted_sorted x l :
  Sorted name_le l -> Sorted name_le (insert_sorted x l).
Proof.
  induction 1 as [|y l Hs IH Hhd]; cbn [insert_sorted].
  - by repeat constructor.
  - destruct (String.leb x y) eqn:E.
    + constructor; [by constructor|]. by constructor.
    + constructor; [done|]. apply insert_sorted_hd; [|done].
      unfold name_le. destruct (String.leb_total x y) as [H|H]; [|done].
      by rewrite H in E.
Qed.

Lemma sorted_sorted l : Sorted name_le (sorted l).
Proof.
  unfold sorted. induction l as [|x l IH]; [constructor|].
  cbn [foldr]. by apply insert_sorted_sorted.
Qed.

Lemma lower_char_idem c : lower_char (lower_char c) = lower_char c.
Proof.
  destruct c as [b0 b1 b2 b3 b4 b5 b6 b7].
  destruct b0, b1, b2, b3, b4, b5, b6, b7; reflexivity.
Qed.

Lemma lower_idem s : lower (lower s) = lower s.
Proof.
  induction s as [|c s IH]; [done|]. cbn. by rewrite lower_char_idem, IH.
Qed.

(** Lowering a character neither makes nor unmakes a dot or a slash. *)
Lemma lower_char_eqb_dot c : chr_eqb (lower_char c) "." = chr_eqb c ".".
Proof.
  destruct c as [b0 b1 b2 b3 b4 b5 b6 b7].
  destruct b0, b1, b2, b3, b4, b5, b6, b7; reflexivity.
Qed.

Lemma lower_char_eqb_slash c : chr_eqb (lower_char c) "/" = chr_eqb c "/".
Proof.
  destruct c as [b0 b1 b2 b3 b4 b5 b6 b7].
  destruct b0, b1, b2, b3, b4, b5, b6, b7; reflexivity.
Qed.

Lemma rfind_from_lower c s pos found :
  (forall x, chr_eqb (lower_char x) c = chr_eqb x c) ->
  rfind_from c (lower s) pos found = rfind_from c s pos found.
Proof.
  intros Hc. revert pos found.
  induction s as [|x s IH]; intros pos found; [done|].
  cbn [lower rfind_from]. by rewrite Hc, IH.
Qed.

Lemma lower_length s : String.length (lower s) = String.length s.
Proof. induction s as [|c s IH]; [done|]. cbn. by rewrite IH. Qed.

Lemma substring_lower n m s :
  substring n m (lower s) = lower (substring n m s).
Proof.
  revert n m. induction s as [|c s IH]; intros [|n] [|m]; try reflexivity.
  - cbn. by rewrite IH.
  - cbn. apply IH.
  - cbn. apply IH.
Qed.

Lemma all_dots_lower s : all_dots (lower s) = all_dots s.
Proof.
  induction s as [|c s IH]; [done|]. cbn [lower all_dots].
  by rewrite lower_char_eqb_dot, IH.
Qed.

Lemma splitext_ext_lower p : splitext_ext (lower p) = lower (splitext_ext p).
Proof.
  unfold splitext_ext, rfind.
  rewrite !rfind_from_lower
    by (first [apply lower_char_eqb_dot | apply lower_char_eqb_slash]).
  destruct (rfind_from "." p 0 None) as [dot|]; [|done].
  case_decide; [|done].
  rewrite !substring_lower, all_dots_lower, lower_length.
  by destruct (all_dots _).
Qed.

Lemma list_filter_sublist {A} (f : A -> bool) (l : list A) :
  sublist (List.filter f l) l.
Proof.
  induction l as [|x l IH]; [constructor|].
  cbn [List.filter]. destruct (f x).
  - by apply sublist_skip.
  - by apply sublist_cons.
Qed.

End ScanLemmas.

Section ScanProperties.
Import PyStr Json Fs Reap Notions.
Local Open Scope list_scope.

(** X5.  On a folder that can be listed, [get_image_files] returns, with
    the world as it was, the names of the listing that pass the test of
    being an image file, each as often as listed, in ascending order. *)
Theorem image_files_are_sorted_images folder_path w names :
  listdir folder_path (files w) = Some names ->
  exists images,
    get_image_files folder_path w = (Val images, w)
    /\ Sorted name_le images
    /\ Permutation images
         (List.filter (is_image folder_path (files w)) names).
Proof.
  intros H. eexists. split; [|split].
  - unfold get_image_files, bind, get_files, image_files_in.
    rewrite H. reflexivity.
  - apply sorted_sorted.
  - apply sorted_perm.
Qed.

Lemma image_files_are_sorted_images_witness :
  exists images,
    get_image_files "src/S1" (Scenario.start Scenario.disk)
    = (Val images, Scenario.start Scenario.disk)
    /\ Sorted name_le images
    /\ Permutation images
         (List.filter (is_image "src/S1" Scenario.disk)
                      ["y.png"; "x.jpg"; "z.gif"]).
Proof.
  apply (image_files_are_sorted_images "src/S1"
           (Scenario.start Scenario.disk) ["y.png"; "x.jpg"; "z.gif"]).
  vm_compute. reflexivity.
Defined.

(** X6.  The test of the extension does not see the case of ASCII
    letters: a name passes it if and only if its lower-case form does. *)
Theorem image_extension_ignores_case f :
  mem (lower (splitext_ext (lower f))) image_extensions
  = mem (lower (splitext_ext f)) image_extensions.
Proof. by rewrite splitext_ext_lower, lower_idem. Qed.

(** X7.  On a source directory that can be listed, [get_original_folders]
    returns, with the world as it was, the names of the listing that are
    directories, in the order of the listing. *)
Theorem original_folders_are_listed_directories source_dir w names :
  listdir source_dir (files w) = Some names ->
  exists pool,
    get_original_folders source_dir w = (Val pool, w)
    /\ sublist pool names
    /\ forall f,
         f ∈ pool
         <-> f ∈ names /\ isdir (path_join source_dir f) (files w) = true.
Proof.
  intros H. eexists. split; [|split].
  - unfold get_original_folders, bind, get_files, original_folders_in.
    rewrite H. reflexivity.
  - apply list_filter_sublist.
  - intros f. rewrite !list_elem_of_In, filter_In. tauto.
Qed.

Lemma original_folders_are_listed_directories_witness :
  exists pool,
    get_original_folders "src" (Scenario.start Scenario.disk)
    = (Val pool, Scenario.start Scenario.disk)
    /\ sublist pool ["S1"; "S2"; "notes.txt"]
    /\ forall f, f ∈ pool
                 <-> f ∈ ["S1"; "S2"; "notes.txt"]
                     /\ isdir (path_join "src" f) Scenario.disk = true.
Proof.
  apply (original_folders_are_listed_directories "src"
           (Scenario.start Scenario.disk) ["S1"; "S2"; "notes.txt"]).
  vm_compute. reflexivity.
Defined.

End ScanProperties.

(* ===================================================================== *)
(** * Lemmas: what a run leaves in place                                  *)
(* ===================================================================== *)

Section SteadyLemmas.
Import PyStr Json Fs Reap Notions.
Local Open Scope list_scope.

Lemma grows_refl d : grows d d.
Proof. by intros p. Qed.

Lemma grows_trans d1 d2 d3 : grows d1 d2 -> grows d2 d3 -> grows d1 d3.
Proof. intros H12 H23 p Hp. by apply H23, H12. Qed.

Lemma grows_insert p nd (d : gmap string node) : grows d (<[p := nd]> d).
Proof.
  intros q. unfold exists_. destruct (decide (p = q)) as [->|Hne].
  - by rewrite lookup_insert_eq.
  - by rewrite lookup_insert_ne.
Qed.

Lemma grows_add_entry p nd (d : gmap string node) : grows d (add_entry p nd d).
Proof.
  unfold add_entry. destruct (path_split p) as [parent name].
  eapply grows_trans; [|apply grows_insert].
  destruct (d !! parent) as [[names|data]|]; try apply grows_refl.
  destruct (mem name names); [apply grows_refl | apply grows_insert].
Qed.

Lemma grows_makedirs flt exist_ok p (d d' : gmap string node) :
  makedirs flt exist_ok p d = Some d' -> grows d d'.
Proof.
  unfold makedirs. destruct (d !! p) as [[names|data]|]; try discriminate.
  - destruct exist_ok; [|discriminate]. intros [= <-]. apply grows_refl.
  - destruct (mkdir_fault flt p); [discriminate|].
    intros [= <-]. apply grows_add_entry.
Qed.

Lemma grows_copy2 flt src dst (d d' : gmap string node) :
  copy2 flt src dst d = Some d' -> grows d d'.
Proof.
  unfold copy2. destruct (copy_fault flt src dst); [discriminate|].
  destruct (d !! src) as [[names|data]|]; try discriminate.
  destruct (String.eqb _ _); [discriminate|].
  destruct (isdir _ d); [discriminate|].
  intros [= <-]. apply grows_add_entry.
Qed.

Lemma grows_write_text flt p text (d d' : gmap string node) ok :
  write_text flt p text d = (ok, d') -> grows d d'.
Proof.
  unfold write_text.
  destruct (d !! p) as [[names|data]|];
    try (intros [= <- <-]; apply grows_refl);
    destruct (write_fault_at flt p) as [| |k];
    try (intros [= <- <-]; first [apply grows_refl | apply grows_add_entry]);
    destruct (decide (k < String.length text));
    intros [= <- <-]; apply grows_add_entry.
Qed.

Lemma advances_refl w : advances w w.
Proof. split; [apply grows_refl | done]. Qed.

Lemma advances_trans w1 w2 w3 :
  advances w1 w2 -> advances w2 w3 -> advances w1 w3.
Proof.
  intros [G12 P12] [G23 P23]. split.
  - by eapply grows_trans.
  - by etrans.
Qed.

Lemma advances_print w m : advances w (World (files w) (out w ++ [m])).
Proof. split; [apply grows_refl | by apply prefix_app_r]. Qed.

Lemma advances_files w d' : grows (files w) d' -> advances w (World d' (out w)).
Proof. intros H. by split. Qed.

Lemma steady_ret {A} (a : A) : steady (ret a).
Proof. intros w. apply advances_refl. Qed.

Lemma steady_halt {A} o : steady (@halt A o).
Proof. intros w. apply advances_refl. Qed.

Lemma steady_print m : steady (print m).
Proof. intros w. apply advances_print. Qed.

Lemma steady_bind {A B} (m : M A) (k : A -> M B) :
  steady m -> (forall a, steady (k a)) -> steady (bind m k).
Proof.
  intros Hm Hk w. unfold bind. specialize (Hm w).
  destruct (m w) as [[a|o] w1]; cbn [snd] in *; [|done].
  eapply advances_trans; [exact Hm | apply Hk].
Qed.

(** A computation that looks at the files and goes on. *)
Lemma steady_get_files {A} (k : gmap string node -> M A) :
  (forall d, steady (k d)) -> steady (bind get_files k).
Proof. intros Hk w. unfold bind, get_files. apply Hk. Qed.

(** A computation that replaces the files by larger ones and goes on. *)
Lemma steady_put_files {A} (d' : gmap string node) (k : M A) w :
  grows (files w) d' -> steady k ->
  advances w (bind (put_files d') (fun _ => k) w).2.
Proof.
  intros Hg Hk. unfold bind, put_files.
  eapply advances_trans; [by apply advances_files | apply Hk].
Qed.

Lemma steady_lift_os {A} (o : option A) : steady (lift_os o).
Proof. destruct o; [apply steady_ret | apply steady_halt]. Qed.

Lemma steady_typed v : steady (typed v).
Proof.
  unfold typed.
  destruct (as_string_list v); [apply steady_ret | apply steady_halt].
Qed.

Section WithFaults.
Variable flt : faults.

Lemma steady_load_locations p : steady (load_locations flt p).
Proof.
  apply steady_get_files. intros d.
  destruct (read_locations flt p d); [apply steady_ret|].
  apply steady_bind; [apply steady_print | intros; apply steady_halt].
Qed.

Lemma steady_load_state p : steady (load_state flt p).
Proof.
  apply steady_get_files. intros d.
  destruct (negb _); [apply steady_ret|].
  destruct (read_state flt p d); [apply steady_ret|].
  apply steady_bind; [apply steady_print | intros; apply steady_halt].
Qed.

Lemma steady_save_state p P : steady (save_state flt p P).
Proof.
  intros w. unfold save_state. unfold bind at 1, get_files.
  destruct (write_text flt p (dumps_state P) (files w)) as [ok d'] eqn:E.
  apply steady_put_files; [by eapply grows_write_text|].
  destruct ok; [apply steady_ret|].
  apply steady_bind; [apply steady_print | intros; apply steady_halt].
Qed.

Lemma steady_get_original_folders p : steady (get_original_folders p).
Proof. apply steady_get_files. intros d. apply steady_lift_os. Qed.

Lemma steady_get_image_files p : steady (get_image_files p).
Proof. apply steady_get_files. intros d. apply steady_lift_os. Qed.

Lemma steady_copy_images src dst name images :
  steady (copy_images flt src dst name images).
Proof.
  induction images as [|image rest IH]; [apply steady_ret|].
  cbn [copy_images]. intros w. unfold bind at 1, get_files.
  unfold bind at 1.
  destruct (copy2 flt (path_join src image) (path_join dst image) (files w))
    as [d'|] eqn:E.
  - unfold bind at 1, put_files. unfold print at 1. cbn [files out].
    eapply advances_trans; [|apply IH].
    eapply advances_trans;
      [|apply (advances_print (World d' (out w)) (MsgCopied image name))].
    apply advances_files. by eapply grows_copy2.
  - unfold print at 1.
    eapply advances_trans; [apply advances_print | apply IH].
Qed.

Lemma steady_fill_folder cfg folder location name path P :
  steady (fill_folder flt cfg folder location name path P).
Proof.
  unfold fill_folder.
  apply steady_bind; [apply steady_print | intros _].
  apply steady_bind; [apply steady_get_image_files | intros images].
  apply steady_bind.
  { destruct (_ <? _)%Z; [apply steady_print | apply steady_ret]. }
  intros _. apply steady_bind; [apply steady_copy_images | intros _].
  apply steady_bind; [apply steady_print | intros _; apply steady_ret].
Qed.

Lemma steady_process_location cfg pool i location P :
  steady (process_location flt cfg pool i location P).
Proof.
  intros w. unfold process_location. unfold bind at 1, get_files.
  destruct (exists_ _ _).
  { apply steady_bind; [apply steady_print | intros _; apply steady_ret]. }
  destruct (makedirs _ _ _ _) as [d'|] eqn:E.
  2: { apply steady_bind; [apply steady_print | intros _; apply steady_ret]. }
  apply steady_put_files; [by eapply grows_makedirs|].
  apply steady_bind; [apply steady_print | intros _].
  destruct (length pool); [apply steady_halt|].
  destruct (original_folder_for pool i); [|apply steady_halt].
  apply steady_fill_folder.
Qed.

Lemma steady_process_batch cfg pool i batch P :
  steady (process_batch flt cfg pool i batch P).
Proof.
  revert i P. induction batch as [|x batch IH]; intros i P.
  - apply steady_ret.
  - cbn [process_batch]. apply steady_bind.
    + apply steady_process_location.
    + intros P'. apply IH.
Qed.

Lemma steady_materialise_batch cfg batch P :
  steady (materialise_batch flt cfg batch P).
Proof.
  unfold materialise_batch.
  apply steady_bind; [apply steady_get_original_folders | intros pool].
  apply steady_bind; [apply steady_print | intros _].
  destruct pool as [|f pool].
  { apply steady_bind; [apply steady_print | intros _; apply steady_halt]. }
  intros w. unfold bind at 1, get_files. unfold bind at 1.
  destruct (makedirs flt true (target_dir cfg) (files w)) as [d'|] eqn:E;
    [|apply steady_halt].
  unfold put_files at 1.
  eapply advances_trans;
    [apply advances_files; by eapply grows_makedirs|].
  apply steady_bind; [apply steady_process_batch | intros P'].
  apply steady_bind; [apply steady_save_state | intros _; apply steady_print].
Qed.

Lemma steady_run_batch cfg L P : steady (run_batch flt cfg L P).
Proof.
  unfold run_batch. destruct (unprocessed_locations L P).
  { apply steady_bind; [apply steady_print | intros _; apply steady_halt]. }
  apply steady_bind; [|intros _; apply steady_materialise_batch].
  destruct (current_batch cfg L P) as [|first batch]; [apply steady_halt|].
  destruct (last _); [|apply steady_halt].
  destruct (index _ _); [|apply steady_halt].
  destruct (index _ _); [apply steady_print | apply steady_halt].
Qed.

Lemma steady_main cfg : steady (main flt cfg).
Proof.
  unfold main.
  apply steady_bind; [apply steady_load_locations | intros vl].
  apply steady_bind; [apply steady_typed | intros L].
  apply steady_bind; [apply steady_print | intros _].
  apply steady_bind; [apply steady_load_state | intros vp].
  apply steady_bind; [apply steady_typed | intros P].
  apply steady_bind; [apply steady_print | intros _].
  apply steady_run_batch.
Qed.

Lemma steady_script cfg : steady (script flt cfg).
Proof.
  apply steady_get_files. intros d. unfold script.
  destruct (negb _).
  { apply steady_bind; [apply steady_print | intros _; apply steady_halt]. }
  destruct (negb _).
  { apply steady_bind; [apply steady_print | intros _; apply steady_halt]. }
  apply steady_main.
Qed.

End WithFaults.

End SteadyLemmas.

Section SteadyProperties.
Import PyStr Json Fs Reap Notions.
Local Open Scope list_scope.

(** X8.  However a run of the script ends, and whatever fails on the way,
    it removes nothing: every path that exists before the run exists
    after it, and the log of the run extends the log before it. *)
Theorem run_removes_nothing flt cfg w :
  advances w (run_script flt cfg w).2
  /\ advances w (run_main flt cfg w).2.
Proof.
  split.
  - pose proof (steady_script flt cfg w) as H.
    unfold run_script, run_of. by destruct (script flt cfg w) as [[[]|o] w'].
  - pose proof (steady_main flt cfg w) as H.
    unfold run_main, run_of. by destruct (main flt cfg w) as [[[]|o] w'].
Qed.

End SteadyProperties.

(* ===================================================================== *)
(** * Lemmas: the filling of a folder                                     *)
(* ===================================================================== *)

Section FillLemmas.
Import PyStr Json Fs Reap Notions.
Local Open Scope list_scope.
Variable flt : faults.

(** The copy loop reports on each image, in order, and goes to its end. *)
Lemma copy_images_reports src dst name images w :
  exists w' reports,
    copy_images flt src dst name images w = (Val tt, w')
    /\ out w' = out w ++ reports
    /\ Forall2 (copy_report name) images reports.
Proof.
  revert w. induction images as [|image rest IH]; intros w.
  - exists w, []. split; [done|]. split; [by rewrite app_nil_r | constructor].
  - cbn [copy_images]. unfold bind at 1, get_files. unfold bind at 1.
    destruct (copy2 flt (path_join src image) (path_join dst image) (files w))
      as [d'|].
    + unfold bind at 1, put_files. unfold print at 1. cbn [files out].
      destruct (IH (World d' (out w ++ [MsgCopied image name])))
        as (w' & reports & -> & Hout & Hall).
      exists w', (MsgCopied image name :: reports).
      split; [done|]. split.
      * rewrite Hout. cbn [out]. by rewrite <- app_assoc.
      * constructor; [by left | done].
    + unfold print at 1.
      destruct (IH (World (files w) (out w ++ [MsgErrorCopying image name])))
        as (w' & reports & -> & Hout & Hall).
      exists w', (MsgErrorCopying image name :: reports).
      split; [done|]. split.
      * rewrite Hout. cbn [out]. by rewrite <- app_assoc.
      * constructor; [by right | done].
Qed.

Lemma select_images_take cfg images :
  (0 <= images_per_folder cfg)%Z ->
  select_images cfg images = take (Z.to_nat (images_per_folder cfg)) images.
Proof.
  intros H. unfold select_images.
  destruct (Z.ltb_spec (Z.of_nat (length images)) (images_per_folder cfg)).
  - symmetry. apply take_ge. lia.
  - by apply slice_to_nonneg.
Qed.

End FillLemmas.

Section FillProperties.
Import PyStr Json Fs Reap Notions.
Local Open Scope list_scope.

(** X9.  The copy loop goes through every selected image: it never stops
    the run, and it adds to the log one report per image, in order, that
    tells whether that image was copied or not. *)
Theorem copy_loop_reports_every_image flt src dst name images w :
  exists w' reports,
    copy_images flt src dst name images w = (Val tt, w')
    /\ out w' = out w ++ reports
    /\ Forall2 (copy_report name) images reports.
Proof. apply copy_images_reports. Qed.

(** X10.  For a number of images per folder that is not negative, the
    images selected are the first that many of the sorted list, all of
    them when there are fewer. *)
Theorem selected_images_are_the_first cfg images :
  (0 <= images_per_folder cfg)%Z ->
  select_images cfg images = take (Z.to_nat (images_per_folder cfg)) images
  /\ length (select_images cfg images)
     = Nat.min (Z.to_nat (images_per_folder cfg)) (length images).
Proof.
  intros H. rewrite select_images_take by done.
  split; [done | apply length_take].
Qed.

Lemma selected_images_are_the_first_witness :
  (0 <= images_per_folder (Scenario.cfg 2))%Z
  /\ select_images (Scenario.cfg 2) ["x.jpg"; "y.png"; "z.gif"]
     = ["x.jpg"; "y.png"].
Proof.
  assert (0 <= images_per_folder (Scenario.cfg 2))%Z as H
    by (vm_compute; discriminate).
  split; [exact H|].
  rewrite (proj1 (selected_images_are_the_first (Scenario.cfg 2)
                    ["x.jpg"; "y.png"; "z.gif"] H)).
  reflexivity.
Defined.

(** X11.  Once the folder of a location is created, and when the original
    folder can be listed, the location is marked as processed whatever
    becomes of the copies: the log gets the selection, a warning exactly
    when the folder has fewer images than asked for, one report per
    selected image, and the closing line. *)
Theorem filled_folder_marks_location
        flt cfg folder location name path P w images :
  image_files_in (path_join (source_dir cfg) folder) (files w) = Some images ->
  exists w' reports,
    fill_folder flt cfg folder location name path P w
    = (Val (P ++ [location]), w')
    /\ length reports = length (select_images cfg images)
    /\ out w'
       = out w
         ++ [MsgSelecting folder]
         ++ (if (Z.of_nat (length images) <? images_per_folder cfg)%Z
             then [MsgNotEnough folder (images_per_folder cfg) (length images)]
             else [])
         ++ reports
         ++ [MsgFinished location name].
Proof.
  intros Himg. unfold fill_folder.
  unfold bind at 1, print at 1.
  unfold bind at 1. unfold get_image_files, bind at 1, get_files.
  cbn [files out]. rewrite Himg. cbn [lift_os ret].
  unfold bind at 1.
  destruct (Z.of_nat (length images) <? images_per_folder cfg)%Z.
  - unfold print at 1. cbn [files out]. unfold bind at 1.
    match goal with
    | |- context [copy_images flt ?s ?d ?n ?l ?w0] =>
        destruct (copy_images_reports flt s d n l w0)
          as (w1 & reports & -> & Hout & Hall)
    end.
    unfold bind at 1, print at 1, ret.
    eexists _, reports. split; [done|].
    split; [symmetry; by eapply Forall2_length|].
    cbn [out]. rewrite Hout. cbn [out]. by rewrite <- !app_assoc.
  - unfold ret at 1. unfold bind at 1.
    match goal with
    | |- context [copy_images flt ?s ?d ?n ?l ?w0] =>
        destruct (copy_images_reports flt s d n l w0)
          as (w1 & reports & -> & Hout & Hall)
    end.
    unfold bind at 1, print at 1, ret.
    eexists _, reports. split; [done|].
    split; [symmetry; by eapply Forall2_length|].
    cbn [out]. rewrite Hout. cbn [out]. by rewrite <- !app_assoc.
Qed.

Lemma filled_folder_marks_location_witness :
  exists w' reports,
    fill_folder Scenario.faults_mkdir_B (Scenario.cfg 5) "S1" "C" "C" "out/C"
      ["A"] (Scenario.start Scenario.disk)
    = (Val (["A"] ++ ["C"]), w')
    /\ length reports
       = length (select_images (Scenario.cfg 5) ["x.jpg"; "y.png"; "z.gif"])
    /\ out w'
       = out (Scenario.start Scenario.disk)
         ++ [MsgSelecting "S1"]
         ++ (if (Z.of_nat (length ["x.jpg"; "y.png"; "z.gif"])
                 <? images_per_folder (Scenario.cfg 5))%Z
             then [MsgNotEnough "S1" (images_per_folder (Scenario.cfg 5))
                     (length ["x.jpg"; "y.png"; "z.gif"])]
             else [])
         ++ reports
         ++ [MsgFinished "C" "C"].
Proof.
  apply (filled_folder_marks_location Scenario.faults_mkdir_B (Scenario.cfg 5)
           "S1" "C" "C" "out/C" ["A"] (Scenario.start Scenario.disk)
           ["x.jpg"; "y.png"; "z.gif"]).
  vm_compute. reflexivity.
Defined.

(** X12.  Two locations with the same sanitized name: once the first has
    had its folder created, the step of the second finds the folder,
    leaves the files as they are, copies nothing, and marks the second
    location too. *)
Theorem name_collision_skips_second
        flt cfg pool i j first second P P1 w w1 :
  sanitize_folder_name second = sanitize_folder_name first ->
  exists_ (folder_path cfg first) (files w) = false ->
  mkdir_fault flt (folder_path cfg first) = false ->
  process_location flt cfg pool i first P w = (Val P1, w1) ->
  process_location flt cfg pool j second P1 w1
  = (Val (P1 ++ [second]),
     World (files w1)
           (out w1 ++ [MsgFolderExists (sanitize_folder_name second)])).
Proof.
  intros Hsame Hnew Hmk Hstep.
  apply process_location_exists.
  unfold folder_path in *. rewrite Hsame.
  revert Hstep. unfold process_location, bind at 1, get_files.
  rewrite Hnew, (makedirs_no_fault flt _ _ Hmk Hnew).
  unfold bind at 1, put_files.
  unfold bind at 1, print at 1. cbn [files out].
  intros Hstep.
  destruct (length pool); [done|].
  destruct (original_folder_for pool i) as [folder|]; [|done].
  match type of Hstep with
  | fill_folder ?f ?c ?fo ?l ?n ?p ?P0 ?w0 = _ =>
      pose proof (steady_fill_folder f c fo l n p P0 w0) as [Hg' _]
  end.
  rewrite Hstep in Hg'. cbn [snd files] in Hg'. apply Hg'.
  unfold exists_. by rewrite add_entry_lookup.
Qed.

Lemma name_collision_skips_second_witness :
  process_location no_faults (Scenario.cfg 2) ["S1"; "S2"] 0 "a/b" []
    (Scenario.start Scenario.disk)
  = (Val ["a/b"], CollisionScenario.after_slash)
  /\ process_location no_faults (Scenario.cfg 2) ["S1"; "S2"] 1 "a:b"
       ["a/b"] CollisionScenario.after_slash
     = (Val (["a/b"] ++ ["a:b"]),
        World (files CollisionScenario.after_slash)
              (out CollisionScenario.after_slash
                   ++ [MsgFolderExists (sanitize_folder_name "a:b")])).
Proof.
  assert (process_location no_faults (Scenario.cfg 2) ["S1"; "S2"] 0 "a/b" []
            (Scenario.start Scenario.disk)
          = (Val ["a/b"], CollisionScenario.after_slash)) as H
    by (vm_compute; reflexivity).
  split; [exact H|].
  apply (name_collision_skips_second no_faults (Scenario.cfg 2)
           ["S1"; "S2"] 0 1 "a/b" "a:b" [] ["a/b"]
           (Scenario.start Scenario.disk) CollisionScenario.after_slash);
    [vm_compute; reflexivity | vm_compute; reflexivity
     | reflexivity | exact H].
Defined.

End FillProperties.

(* ===================================================================== *)
(** * More properties of the progress store and of a run                  *)
(* ===================================================================== *)

Section StoreProperties.
Import PyStr Json Fs Reap Notions.
Local Open Scope list_scope.

(** X13.  What [save_state] has written, [load_state] reads back, for
    the names of the model, whose characters are code points below 256:
    after a save that succeeds, whatever the state file held before, a
    load from the same path that can read the file returns the list that
    was saved. *)
Theorem saved_state_loads_back flt p processed w w' :
  save_state flt p processed w = (Val tt, w') ->
  read_fault flt p = false ->
  load_state flt p w' = (Val (JArr (JStr <$> processed)), w')
  /\ as_string_list (JArr (JStr <$> processed)) = Some processed.
Proof.
  rewrite save_state_val.
  destruct (write_text flt p (dumps_state processed) (files w))
    as [[] d'] eqn:Hw; [|discriminate].
  intros [= <-] Hf. apply write_text_done in Hw.
  split; [|apply as_strings_fmap].
  rewrite load_state_val. cbn [files out].
  rewrite (exists_lookup _ _ _ Hw). cbn [negb].
  by rewrite (read_state_written flt p processed d' Hf Hw).
Qed.

Lemma saved_state_loads_back_witness :
  exists w',
    save_state no_faults "state.json" ["a"; "b c"]
      (Scenario.start Scenario.disk)
    = (Val tt, w')
    /\ load_state no_faults "state.json" w'
       = (Val (JArr (JStr <$> ["a"; "b c"])), w').
Proof.
  destruct (save_state no_faults "state.json" ["a"; "b c"]
              (Scenario.start Scenario.disk)) as [r w'] eqn:E.
  assert (r = Val tt) as ->.
  { apply (f_equal fst) in E. cbn [fst] in E. rewrite <- E.
    vm_compute. reflexivity. }
  exists w'. split; [reflexivity|].
  exact (proj1 (saved_state_loads_back no_faults "state.json" ["a"; "b c"]
                  (Scenario.start Scenario.disk) w' E eq_refl)).
Defined.

(** X14.  [load_state] either returns a value and leaves the world as it
    was, or exits with status 1 after its one error message, the files
    as they were; and it only fails on a path that exists: a missing
    state file never stops the run. *)
Theorem load_state_returns_or_exits flt p w :
  match load_state flt p w with
  | (Val _, w') => w' = w
  | (Halt o, w') =>
      o = Exited 1
      /\ exists_ p (files w) = true
      /\ w' = World (files w) (out w ++ [MsgErrorLoadingState])
  end.
Proof.
  rewrite load_state_val.
  destruct (exists_ p (files w)); cbn [negb]; [|done].
  by destruct (read_state flt p (files w)).
Qed.

(** X15.  When the catalog cannot be loaded (the file is missing or
    cannot be read, its text is not JSON, the document is not an object
    or has no member [locations]), [main] exits with status 1 after the
    one error message, and the files are as they were. *)
Theorem unloadable_catalog_stops_run flt cfg w :
  read_locations flt (locations_json cfg) (files w) = None ->
  run_main flt cfg w
  = (Exited 1, World (files w) (out w ++ [MsgErrorLoadingLocations]))
  /\ exit_status (Exited 1) = 1%Z.
Proof.
  intros H. split; [|done].
  unfold run_main, run_of, main. unfold bind at 1.
  by rewrite load_locations_val, H.
Qed.

Lemma unloadable_catalog_stops_run_witness :
  run_main no_faults (Scenario.cfg 2) (Scenario.start (∅ : gmap string node))
  = (Exited 1, World ∅ [MsgErrorLoadingLocations])
  /\ exit_status (Exited 1) = 1%Z.
Proof.
  apply (unloadable_catalog_stops_run no_faults (Scenario.cfg 2)
           (Scenario.start (∅ : gmap string node))).
  vm_compute. reflexivity.
Defined.

(** X16.  When the state file exists and cannot be loaded, [main] exits
    with status 1 after the count of the catalog and the one error
    message, and the files are as they were. *)
Theorem unloadable_state_stops_run flt cfg w L :
  read_catalog flt cfg (files w) = Some L ->
  exists_ (state_file cfg) (files w) = true ->
  read_state flt (state_file cfg) (files w) = None ->
  run_main flt cfg w
  = (Exited 1,
     World (files w)
           (out w ++ [MsgTotalLocations (length L); MsgErrorLoadingState])).
Proof.
  intros HL He Hs. unfold run_main, run_of.
  by rewrite (main_state_unreadable flt cfg w L).
Qed.

Lemma unloadable_state_stops_run_witness :
  run_main no_faults (Scenario.cfg 2) (Scenario.start Scenario.disk_array_state)
  = (Exited 1,
     World Scenario.disk_array_state
           [MsgTotalLocations (length ["A"; "B"; "C"]); MsgErrorLoadingState]).
Proof.
  apply (unloadable_state_stops_run no_faults (Scenario.cfg 2)
           (Scenario.start Scenario.disk_array_state) ["A"; "B"; "C"]);
    vm_compute; reflexivity.
Defined.

(** X17.  A batch size of 0, or one so negative that the slice is empty,
    with locations left to process: [main] raises [IndexError] at line
    115, after the two counts, and the files are as they were. *)
Theorem empty_batch_raises_index_error flt cfg w L P :
  read_catalog flt cfg (files w) = Some L ->
  read_processed flt cfg (files w) = Some P ->
  unprocessed_locations L P <> [] ->
  (batch_size cfg = 0
   \/ batch_size cfg <= - Z.of_nat (length (unprocessed_locations L P)))%Z ->
  run_main flt cfg w
  = (Raised IndexError,
     World (files w)
           (out w ++ [MsgTotalLocations (length L);
                      MsgAlreadyProcessed (length P)])).
Proof.
  intros HL HP HU Hsize.
  unfold run_main, run_of. rewrite (main_loaded _ _ _ _ _ HL HP).
  unfold run_batch.
  assert (current_batch cfg L P = []) as ->.
  { unfold current_batch, slice_to.
    destruct (Z.leb_spec 0 (batch_size cfg)).
    - assert (batch_size cfg = 0)%Z as -> by lia. apply take_0.
    - replace (length (unprocessed_locations L P)
               - Z.to_nat (- batch_size cfg)) with 0 by lia.
      apply take_0. }
  by destruct (unprocessed_locations L P).
Qed.

Lemma empty_batch_raises_index_error_witness :
  run_main no_faults (Scenario.cfg 0) (Scenario.start Scenario.disk)
  = (Raised IndexError,
     World Scenario.disk
           [MsgTotalLocations (length ["A"; "B"; "C"]);
            MsgAlreadyProcessed (length ["A"])]).
Proof.
  apply (empty_batch_raises_index_error no_faults (Scenario.cfg 0)
           (Scenario.start Scenario.disk) ["A"; "B"; "C"] ["A"]);
    [vm_compute; reflexivity | vm_compute; reflexivity
     | vm_compute; discriminate | left; reflexivity].
Defined.

(** X18.  A run that finds source folders and locations to process, in
    which no folder creation fails, and that returns, has recorded the
    whole batch: the state file holds the loaded list followed by the
    batch, and the last line of the log counts the batch. *)
Theorem returned_run_records_batch flt cfg w w' L P pool :
  read_catalog flt cfg (files w) = Some L ->
  read_processed flt cfg (files w) = Some P ->
  unprocessed_locations L P <> [] ->
  original_folders_in (source_dir cfg) (files w) = Some pool ->
  pool <> [] ->
  (forall p, mkdir_fault flt p = false) ->
  run_main flt cfg w = (Returned, w') ->
  read_processed no_faults cfg (files w')
  = Some (P ++ current_batch cfg L P)
  /\ last (out w') = Some (MsgBatchComplete (length (current_batch cfg L P))).
Proof.
  intros HL HP HU Hpool Hne Hmk Hrun.
  unfold run_main in Hrun.
  assert (run_of (main flt cfg) w
          = run_of (run_batch flt cfg L P)
              (World (files w)
                 (out w ++ [MsgTotalLocations (length L);
                            MsgAlreadyProcessed (length P)]))) as Hm.
  { unfold run_of. by rewrite (main_loaded _ _ _ _ _ HL HP). }
  rewrite Hm in Hrun. clear Hm.
  apply run_batch_returned in Hrun as [[HU' _] | (a & b & _ & _ & Hrun)];
    [done|].
  apply materialise_batch_returned in Hrun
    as [[Hs _] | (pool' & d1 & P' & wl & _ & _ & _ & Hloop & Hw & Hout)].
  { cbn [files] in Hs. rewrite Hpool in Hs. by injection Hs. }
  apply process_batch_marks in Hloop as ->; [|done].
  apply write_text_done in Hw. split.
  - by apply (read_processed_written no_faults).
  - rewrite Hout. apply last_snoc.
Qed.

Lemma returned_run_records_batch_witness :
  run_main no_faults (Scenario.cfg 1) (Scenario.start Scenario.disk)
  = (Returned, Scenario.after_first_of_two)
  /\ read_processed no_faults (Scenario.cfg 1)
       (files Scenario.after_first_of_two)
     = Some (["A"] ++ current_batch (Scenario.cfg 1) ["A"; "B"; "C"] ["A"]).
Proof.
  assert (run_main no_faults (Scenario.cfg 1) (Scenario.start Scenario.disk)
          = (Returned, Scenario.after_first_of_two)) as H
    by (vm_compute; reflexivity).
  split; [exact H|].
  refine (proj1 (returned_run_records_batch no_faults (Scenario.cfg 1)
                   (Scenario.start Scenario.disk) Scenario.after_first_of_two
                   ["A"; "B"; "C"] ["A"] ["S1"; "S2"] _ _ _ _ _ _ H));
    [vm_compute; reflexivity | vm_compute; reflexivity
     | vm_compute; discriminate | vm_compute; reflexivity
     | discriminate | reflexivity].
Defined.

(** X19.  The two checks of the [__main__] block: when the source
    directory or the catalog file does not exist, the script exits with
    status 1 after one message, and [main] does not run: the files are as
    they were.  The source directory is checked first: the message names
    it when it does not exist, and names the catalog file otherwise. *)
Theorem missing_path_stops_script flt cfg w :
  exists_ (source_dir cfg) (files w) = false
  \/ exists_ (locations_json cfg) (files w) = false ->
  run_script flt cfg w
  = (Exited 1,
     World (files w)
           (out w ++ [if exists_ (source_dir cfg) (files w)
                      then MsgNoJsonFile (locations_json cfg)
                      else MsgNoSourceDir (source_dir cfg)])).
Proof.
  intros H. unfold run_script, run_of, script, bind at 1, get_files.
  destruct (exists_ (source_dir cfg) (files w)) eqn:Es; cbn [negb].
  - destruct H as [H|H]; [done|]. rewrite H. cbn [negb]. reflexivity.
  - reflexivity.
Qed.

Lemma missing_path_stops_script_witness :
  run_script no_faults (Scenario.cfg 2)
    (Scenario.start Scenario.disk_no_catalog)
  = (Exited 1,
     World Scenario.disk_no_catalog [MsgNoJsonFile "locations.json"])
  /\ run_script no_faults (Scenario.cfg 2)
       (Scenario.start (∅ : gmap string node))
     = (Exited 1, World ∅ [MsgNoSourceDir "src"]).
Proof.
  split.
  - etrans;
      [apply (missing_path_stops_script no_faults (Scenario.cfg 2)
                (Scenario.start Scenario.disk_no_catalog));
       right; vm_compute; reflexivity|].
    vm_compute. reflexivity.
  - etrans;
      [apply (missing_path_stops_script no_faults (Scenario.cfg 2)
                (Scenario.start (∅ : gmap string node)));
       left; vm_compute; reflexivity|].
    vm_compute. reflexivity.
Defined.

End StoreProperties.

(* ===================================================================== *)
(** * Lemmas: the configuration                                           *)
(* ===================================================================== *)

Section SetupLemmas.
Import PyStr Fs Reap Setup.
Local Open Scope list_scope.

Lemma eqb_empty_false s : String.eqb s "" = false <-> s <> "".
Proof. apply String.eqb_neq. Qed.

(** The loop of a required field ends with an answer that is not empty,
    or at the end of the input. *)
Lemma required_loop_result prompt_text user_input lines scr :
  match required_loop prompt_text user_input lines scr with
  | (Some v, _) => v <> ""
  | (None, c') => stdin c' = []
  end.
Proof.
  revert user_input scr. induction lines as [|line rest IH];
    intros user_input scr; cbn [required_loop].
  - destruct (String.eqb user_input "") eqn:E; cbn [negb]; [done|].
    by apply eqb_empty_false.
  - destruct (String.eqb user_input "") eqn:E; cbn [negb]; [apply IH|].
    by apply eqb_empty_false.
Qed.

(** The loop skips the blank answers, with its line and a new prompt for
    each, and stops at the first that is not blank. *)
Lemma required_loop_blanks prompt_text blanks answer rest scr :
  Forall (fun b => strip b = "") blanks ->
  strip answer <> "" ->
  required_loop prompt_text "" (blanks ++ answer :: rest) scr
  = (Some (strip answer),
     Console rest
       (scr ++ concat (replicate (S (length blanks))
                                 [FieldRequired; Ask prompt_text]))).
Proof.
  intros Hb Ha. revert scr.
  induction Hb as [|b blanks Hb _ IH]; intros scr.
  - cbn [app required_loop String.eqb negb length replicate concat].
    destruct rest; cbn [required_loop];
      rewrite (proj2 (eqb_empty_false _) Ha); reflexivity.
  - cbn [app required_loop String.eqb negb]. rewrite Hb, IH.
    cbn [length replicate concat]. by rewrite <- !app_assoc.
Qed.

Lemma get_env_variable_result env var_name prompt_text default c :
  match get_env_variable env var_name prompt_text default c with
  | (Some v, _) => v <> ""
  | (None, c') => stdin c' = []
  end.
Proof.
  unfold get_env_variable.
  destruct (env !! var_name) as [value|] eqn:Ev; cbn [truthy].
  - destruct (String.eqb value "") eqn:E; cbn [negb].
    2: { by apply eqb_empty_false. }
    destruct default as [d|]; cbn [truthy].
    + destruct (String.eqb d "") eqn:Ed; cbn [negb from_option id].
      * unfold input. destruct (stdin c) as [|line rest]; [done|].
        apply required_loop_result.
      * unfold input. destruct (stdin c) as [|line rest]; [done|].
        destruct (String.eqb (strip line) "") eqn:El; cbn [negb];
          by apply eqb_empty_false.
    + unfold input. destruct (stdin c) as [|line rest]; [done|].
      apply required_loop_result.
  - cbn [negb]. destruct default as [d|]; cbn [truthy].
    + destruct (String.eqb d "") eqn:Ed; cbn [negb from_option id].
      * unfold input. destruct (stdin c) as [|line rest]; [done|].
        apply required_loop_result.
      * unfold input. destruct (stdin c) as [|line rest]; [done|].
        destruct (String.eqb (strip line) "") eqn:El; cbn [negb];
          by apply eqb_empty_false.
    + unfold input. destruct (stdin c) as [|line rest]; [done|].
      apply required_loop_result.
Qed.

Lemma get_env_variable_set env var_name prompt_text default c value :
  env !! var_name = Some value -> value <> "" ->
  get_env_variable env var_name prompt_text default c = (Some value, c).
Proof.
  intros Hv Hne. unfold get_env_variable. rewrite Hv. cbn [truthy].
  by rewrite (proj2 (eqb_empty_false _) Hne).
Qed.

End SetupLemmas.

Section SetupProperties.
Import PyStr Fs Reap Setup SetupScenario.
Local Open Scope list_scope.

(** X20.  A variable that the environment sets to the empty string counts
    as not set: it is asked for, as if it were absent.  One that is set
    to another value is returned with nothing asked. *)
Theorem empty_variable_counts_as_unset
        env var_name prompt_text default c value :
  env !! var_name = Some value ->
  get_env_variable env var_name prompt_text default c
  = if String.eqb value ""
    then get_env_variable (delete var_name env) var_name prompt_text default c
    else (Some value, c).
Proof.
  intros Hv. unfold get_env_variable.
  rewrite Hv, lookup_delete_eq. cbn [truthy].
  by destruct (String.eqb value "").
Qed.

Lemma empty_variable_counts_as_unset_witness :
  get_env_variable env_empty_source "SOURCE_DIR" "Source" None hesitant
  = get_env_variable (delete "SOURCE_DIR" env_empty_source) "SOURCE_DIR"
      "Source" None hesitant.
Proof.
  apply (empty_variable_counts_as_unset env_empty_source "SOURCE_DIR"
           "Source" None hesitant "").
  vm_compute. reflexivity.
Defined.

(** X21.  [get_env_variable] never returns the empty string: it returns a
    value that is not empty, or the input has come to its end (an
    [EOFError]). *)
Theorem configured_value_is_not_empty env var_name prompt_text default c :
  match get_env_variable env var_name prompt_text default c with
  | (Some v, _) => v <> ""
  | (None, c') => stdin c' = []
  end.
Proof. apply get_env_variable_result. Qed.

(** X22.  A required value that the environment does not give is asked
    for again after each blank answer, with the line that says so, until
    an answer is not blank: that answer, stripped, is the value, and the
    lines after it are left to be read. *)
Theorem required_value_is_asked_until_given
        env var_name prompt_text blanks answer rest scr :
  truthy (env !! var_name) = false ->
  Forall (fun b => strip b = "") blanks ->
  strip answer <> "" ->
  get_env_variable env var_name prompt_text None
    (Console (blanks ++ answer :: rest) scr)
  = (Some (strip answer),
     Console rest
       (scr ++ Ask prompt_text
            :: concat (replicate (length blanks)
                                 [FieldRequired; Ask prompt_text]))).
Proof.
  intros He Hb Ha. unfold get_env_variable. rewrite He. cbn [negb truthy].
  unfold input. cbn [stdin screen].
  destruct Hb as [|b blanks Hb Hbs]; cbn [app].
  - cbn [length replicate concat stdin screen].
    destruct rest; cbn [required_loop];
      by rewrite (proj2 (eqb_empty_false _) Ha).
  - cbn [stdin screen]. rewrite Hb, required_loop_blanks by done.
    cbn [length]. by rewrite <- app_assoc.
Qed.

Lemma required_value_is_asked_until_given_witness :
  get_env_variable env_empty_source "SOURCE_DIR" "Source" None
    (Console ([""; "   "] ++ "  src " :: ["later"]) [])
  = (Some (strip "  src "),
     Console ["later"]
       ([] ++ Ask "Source"
           :: concat (replicate (length [""; "   "])
                                [FieldRequired; Ask "Source"]))).
Proof.
  apply (required_value_is_asked_until_given env_empty_source "SOURCE_DIR"
           "Source" [""; "   "] "  src " ["later"] []).
  - vm_compute. reflexivity.
  - repeat constructor.
  - vm_compute. discriminate.
Defined.

(** X23.  A value with a default that the environment does not give is
    asked for once: a blank answer gives the default, another answer,
    stripped, is the value. *)
Theorem blank_answer_gives_default
        env var_name prompt_text d line rest scr :
  truthy (env !! var_name) = false ->
  d <> "" ->
  get_env_variable env var_name prompt_text (Some d)
    (Console (line :: rest) scr)
  = (Some (if String.eqb (strip line) "" then d else strip line),
     Console rest (scr ++ [AskWithDefault prompt_text d])).
Proof.
  intros He Hd. unfold get_env_variable. rewrite He. cbn [negb truthy].
  rewrite (proj2 (eqb_empty_false _) Hd). cbn [negb from_option id].
  unfold input. cbn [stdin screen].
  by destruct (String.eqb (strip line) "").
Qed.

Lemma blank_answer_gives_default_witness :
  get_env_variable ∅ "STATE_FILE" "State" (Some "state.json")
    (Console ["  "; "next"] [])
  = (Some "state.json",
     Console ["next"] ([] ++ [AskWithDefault "State" "state.json"])).
Proof.
  apply (blank_answer_gives_default ∅ "STATE_FILE" "State" "state.json"
           "  " ["next"] []).
  - vm_compute. reflexivity.
  - discriminate.
Defined.

(** X24.  In a configuration that [retrieve_config] returns, the four
    paths are not empty, whatever the environment, the answers and the
    reading of numbers are. *)
Theorem retrieved_paths_are_not_empty int env c cfg c' :
  retrieve_config int env c = (inr cfg, c') ->
  source_dir cfg <> "" /\ target_dir cfg <> ""
  /\ locations_json cfg <> "" /\ state_file cfg <> "".
Proof.
  unfold retrieve_config.
  repeat match goal with
  | |- context [get_env_variable ?e ?v ?p ?d ?c0] =>
      let H := fresh "H" in
      pose proof (get_env_variable_result e v p d c0) as H;
      destruct (get_env_variable e v p d c0) as [[?|] ?]; [|discriminate]
  | |- context [int ?t] => destruct (int t); [|discriminate]
  end.
  intros [= <- _]. cbn. done.
Qed.

Lemma retrieved_paths_are_not_empty_witness :
  exists c',
    retrieve_config decimal env_empty_source hesitant
    = (inr (Config "src" "out" "locations.json" "state.json" 2 2), c')
    /\ source_dir (Config "src" "out" "locations.json" "state.json" 2 2) <> "".
Proof.
  assert (exists c',
            retrieve_config decimal env_empty_source hesitant
            = (inr (Config "src" "out" "locations.json" "state.json" 2 2), c'))
    as [c' E] by (eexists; vm_compute; reflexivity).
  exists c'. split; [exact E|].
  exact (proj1 (retrieved_paths_are_not_empty decimal env_empty_source
                  hesitant _ c' E)).
Defined.

(** X25.  When the environment gives the six variables, none empty, and
    the two numbers are read, [retrieve_config] asks nothing and returns
    the configuration that the environment describes. *)
Theorem full_environment_asks_nothing int env c sd td lj sf bt it bs ip :
  env !! "SOURCE_DIR" = Some sd -> sd <> "" ->
  env !! "TARGET_DIR" = Some td -> td <> "" ->
  env !! "LOCATIONS_JSON" = Some lj -> lj <> "" ->
  env !! "STATE_FILE" = Some sf -> sf <> "" ->
  env !! "BATCH_SIZE" = Some bt -> int bt = Some bs ->
  env !! "IMAGES_PER_FOLDER" = Some it -> int it = Some ip ->
  bt <> "" -> it <> "" ->
  retrieve_config int env c = (inr (Config sd td lj sf bs ip), c).
Proof.
  intros H1 N1 H2 N2 H3 N3 H4 N4 H5 I5 H6 I6 N5 N6.
  unfold retrieve_config.
  rewrite (get_env_variable_set env _ _ _ c sd H1 N1).
  rewrite (get_env_variable_set env _ _ _ c td H2 N2).
  rewrite (get_env_variable_set env _ _ _ c lj H3 N3).
  rewrite (get_env_variable_set env _ _ _ c sf H4 N4).
  rewrite (get_env_variable_set env _ _ _ c bt H5 N5), I5.
  by rewrite (get_env_variable_set env _ _ _ c it H6 N6), I6.
Qed.

Lemma full_environment_asks_nothing_witness :
  retrieve_config decimal full_env hesitant
  = (inr (Config "src" "out" "locations.json" "state.json" 2 2), hesitant).
Proof.
  apply (full_environment_asks_nothing decimal full_env hesitant
           "src" "out" "locations.json" "state.json" "2" "2" 2 2);
    first [discriminate | vm_compute; reflexivity].
Defined.

End SetupProperties.

(* ===================================================================== *)
(** * Lemmas: whole batches                                               *)
(* ===================================================================== *)

Section WholeBatchLemmas.
Import PyStr Json Fs Reap Notions.
Local Open Scope list_scope.

Lemma filter_not_in_take (n : nat) (l : list string) :
  NoDup l ->
  List.filter (fun x => negb (mem x (take n l))) l = drop n l.
Proof.
  revert n. induction l as [|x l IH]; intros n Hnd.
  - by destruct n.
  - apply NoDup_cons in Hnd as [Hx Hnd]. destruct n as [|n].
    + cbn [take drop]. cbn [List.filter mem existsb negb].
      f_equal. specialize (IH 0 Hnd). by rewrite take_0, drop_0 in IH.
    + cbn [take drop List.filter].
      rewrite (proj2 (mem_true x (x :: take n l))) by left. cbn [negb].
      rewrite <- (IH n Hnd). apply List.filter_ext_in.
      intros y Hy. apply list_elem_of_In in Hy. f_equal.
      unfold mem. cbn [existsb].
      destruct (String.eqb y x) eqn:E; [|done].
      apply String.eqb_eq in E. by subst y.
Qed.

Lemma mem_app x P Q : mem x (P ++ Q) = mem x P || mem x Q.
Proof. unfold mem. apply existsb_app. Qed.

Lemma unprocessed_app L P Q :
  unprocessed_locations L (P ++ Q)
  = List.filter (fun x => negb (mem x Q)) (unprocessed_locations L P).
Proof.
  unfold unprocessed_locations. induction L as [|x L IH]; [done|].
  cbn [List.filter]. rewrite mem_app, IH.
  destruct (mem x P); cbn [orb negb]; [done|].
  cbn [List.filter]. by destruct (mem x Q).
Qed.

Lemma unprocessed_NoDup L P : NoDup L -> NoDup (unprocessed_locations L P).
Proof.
  intros H. eapply sublist_NoDup; [exact H | apply unprocessed_sublist].
Qed.

End WholeBatchLemmas.

Section WholeBatchProperties.
Import PyStr Json Fs Reap Notions.
Local Open Scope list_scope.

(** X26.  A batch whose folders all exist already, as after a run that
    was interrupted before it recorded its progress: the loop marks every
    location of the batch, in order, leaves the files as they are, and
    logs one notice per location and nothing else. *)
Theorem existing_batch_is_only_marked flt cfg pool i batch P w :
  Forall (fun location => exists_ (folder_path cfg location) (files w) = true)
         batch ->
  process_batch flt cfg pool i batch P w
  = (Val (P ++ batch),
     World (files w)
           (out w ++ ((fun location =>
                         MsgFolderExists (sanitize_folder_name location))
                        <$> batch))).
Proof.
  intros H. revert i P w H.
  induction batch as [|x batch IH]; intros i P w H.
  - cbn [process_batch ret fmap list_fmap]. rewrite !app_nil_r.
    by destruct w.
  - apply Forall_cons in H as [Hx H].
    rewrite process_batch_cons, process_location_exists by done.
    rewrite IH by done. cbn [files out]. rewrite fmap_cons.
    by rewrite <- !app_assoc.
Qed.

Lemma existing_batch_is_only_marked_witness :
  process_batch no_faults (Scenario.cfg 2) ["S1"; "S2"] 0 ["B"] ["A"]
    (Scenario.start Scenario.disk_with_B)
  = (Val (["A"] ++ ["B"]),
     World Scenario.disk_with_B
           ([] ++ ((fun location =>
                      MsgFolderExists (sanitize_folder_name location))
                     <$> ["B"]))).
Proof.
  apply (existing_batch_is_only_marked no_faults (Scenario.cfg 2)
           ["S1"; "S2"] 0 ["B"] ["A"] (Scenario.start Scenario.disk_with_B)).
  repeat constructor.
Defined.

(** X27.  A batch none of whose folders exists or can be created: the
    loop marks nothing, leaves the files as they are, and logs one error
    per location; the whole batch stays to be processed. *)
Theorem failed_batch_marks_nothing flt cfg pool i batch P w :
  Forall (fun location =>
            exists_ (folder_path cfg location) (files w) = false
            /\ mkdir_fault flt (folder_path cfg location) = true)
         batch ->
  process_batch flt cfg pool i batch P w
  = (Val P,
     World (files w)
           (out w ++ ((fun location =>
                         MsgErrorCreating (sanitize_folder_name location))
                        <$> batch))).
Proof.
  intros H. revert i P w H.
  induction batch as [|x batch IH]; intros i P w H.
  - cbn [process_batch ret fmap list_fmap]. rewrite !app_nil_r.
    by destruct w.
  - apply Forall_cons in H as [[Hx Hf] H].
    rewrite process_batch_cons, process_location_create_fails; [|done|].
    + rewrite IH by done. cbn [files out]. rewrite fmap_cons.
      by rewrite <- !app_assoc.
    + unfold makedirs, exists_ in *.
      destruct (files w !! folder_path cfg x); [done|]. by rewrite Hf.
Qed.

Lemma failed_batch_marks_nothing_witness :
  process_batch Scenario.faults_mkdir_B (Scenario.cfg 2) ["S1"; "S2"] 0 ["B"]
    ["A"] (Scenario.start Scenario.disk)
  = (Val ["A"],
     World Scenario.disk
           ([] ++ ((fun location =>
                      MsgErrorCreating (sanitize_folder_name location))
                     <$> ["B"]))).
Proof.
  apply (failed_batch_marks_nothing Scenario.faults_mkdir_B (Scenario.cfg 2)
           ["S1"; "S2"] 0 ["B"] ["A"] (Scenario.start Scenario.disk)).
  repeat constructor; vm_compute; reflexivity.
Defined.

(** X28.  With a catalog without repetitions and a batch size that is
    not negative, once a batch is recorded the locations left to process
    are those that were left before, less the batch: the next run takes
    up where this one stopped. *)
Theorem next_batch_follows cfg L P :
  NoDup L ->
  (0 <= batch_size cfg)%Z ->
  unprocessed_locations L (P ++ current_batch cfg L P)
  = drop (Z.to_nat (batch_size cfg)) (unprocessed_locations L P).
Proof.
  intros Hnd Hsize. unfold current_batch.
  rewrite slice_to_nonneg by done.
  rewrite unprocessed_app. apply filter_not_in_take.
  by apply unprocessed_NoDup.
Qed.

Lemma next_batch_follows_witness :
  unprocessed_locations ["A"; "B"; "C"; "D"]
    (["A"] ++ current_batch (Scenario.cfg 2) ["A"; "B"; "C"; "D"] ["A"])
  = drop (Z.to_nat (batch_size (Scenario.cfg 2)))
         (unprocessed_locations ["A"; "B"; "C"; "D"] ["A"]).
Proof.
  apply (next_batch_follows (Scenario.cfg 2) ["A"; "B"; "C"; "D"] ["A"]).
  - apply (bool_decide_unpack _). vm_compute. reflexivity.
  - vm_compute. discriminate.
Defined.

End WholeBatchProperties.

(* ===================================================================== *)
(** * Lemmas: the ways in which a run ends                                *)
(* ===================================================================== *)

Section EndLemmas.
Import PyStr Json Fs Reap Notions.
Local Open Scope list_scope.
Variable Q : outcome -> Prop.
Hypothesis Q_Returned : Q Returned.
Hypothesis Q_Exited : Q (Exited 1).
Hypothesis Q_OSError : Q (Raised OSError).
Hypothesis Q_Unmodelled : Q Unmodelled.

Lemma ends_ret {A} (a : A) : ends_with Q (ret a).
Proof. intros w o w' H. discriminate H. Qed.

Lemma ends_halt {A} o : Q o -> ends_with Q (@halt A o).
Proof. intros Ho w o' w' [= <- _]. exact Ho. Qed.

Lemma ends_print m : ends_with Q (print m).
Proof. intros w o w' H. discriminate H. Qed.

Lemma ends_get_files : ends_with Q get_files.
Proof. intros w o w' H. discriminate H. Qed.

Lemma ends_put_files d : ends_with Q (put_files d).
Proof. intros w o w' H. discriminate H. Qed.

Lemma ends_bind {A B} (m : M A) (k : A -> M B) :
  ends_with Q m -> (forall a, ends_with Q (k a)) -> ends_with Q (bind m k).
Proof.
  intros Hm Hk w o w' H. unfold bind in H.
  destruct (m w) as [[a|o1] w1] eqn:E.
  - by eapply Hk.
  - injection H as <- <-. by eapply Hm.
Qed.

Lemma ends_lift_os {A} (o : option A) : ends_with Q (lift_os o).
Proof. destruct o; [apply ends_ret | by apply ends_halt]. Qed.

Lemma ends_typed v : ends_with Q (typed v).
Proof.
  unfold typed.
  destruct (as_string_list v); [apply ends_ret | by apply ends_halt].
Qed.

(** A message, then the exit with status 1. *)
Lemma ends_exit {A} m : ends_with Q (print m ;;; @halt A (Exited 1)).
Proof.
  apply ends_bind; [apply ends_print|].
  intros _. by apply ends_halt.
Qed.

(** With a positive batch size, locations that are left give a batch
    that is not empty. *)
Lemma current_batch_not_empty cfg L P :
  (0 < batch_size cfg)%Z ->
  unprocessed_locations L P <> [] -> current_batch cfg L P <> [].
Proof.
  intros Hb HU. unfold current_batch.
  rewrite slice_to_nonneg by lia.
  destruct (unprocessed_locations L P) as [|u U]; [done|].
  destruct (Z.to_nat (batch_size cfg)) eqn:E; [lia | done].
Qed.

Section WithFaults.
Variable flt : faults.

Lemma ends_load_locations p : ends_with Q (load_locations flt p).
Proof.
  apply ends_bind; [apply ends_get_files | intros d].
  destruct (read_locations flt p d); [apply ends_ret | apply ends_exit].
Qed.

Lemma ends_load_state p : ends_with Q (load_state flt p).
Proof.
  apply ends_bind; [apply ends_get_files | intros d].
  destruct (negb _); [apply ends_ret|].
  destruct (read_state flt p d); [apply ends_ret | apply ends_exit].
Qed.

Lemma ends_save_state p P : ends_with Q (save_state flt p P).
Proof.
  apply ends_bind; [apply ends_get_files | intros d].
  destruct (write_text flt p (dumps_state P) d) as [ok d'].
  apply ends_bind; [apply ends_put_files | intros _].
  destruct ok; [apply ends_ret | apply ends_exit].
Qed.

Lemma ends_get_original_folders p : ends_with Q (get_original_folders p).
Proof.
  apply ends_bind; [apply ends_get_files | intros d; apply ends_lift_os].
Qed.

Lemma ends_get_image_files p : ends_with Q (get_image_files p).
Proof.
  apply ends_bind; [apply ends_get_files | intros d; apply ends_lift_os].
Qed.

Lemma ends_copy_images src dst name images :
  ends_with Q (copy_images flt src dst name images).
Proof.
  induction images as [|image rest IH]; [apply ends_ret|].
  cbn [copy_images].
  apply ends_bind; [apply ends_get_files | intros d].
  apply ends_bind; [|intros _; apply IH].
  destruct (copy2 _ _ _ _); [|apply ends_print].
  apply ends_bind; [apply ends_put_files | intros _; apply ends_print].
Qed.

Lemma ends_fill_folder cfg folder location name path P :
  ends_with Q (fill_folder flt cfg folder location name path P).
Proof.
  unfold fill_folder.
  apply ends_bind; [apply ends_print | intros _].
  apply ends_bind; [apply ends_get_image_files | intros images].
  apply ends_bind.
  { destruct (_ <? _)%Z; [apply ends_print | apply ends_ret]. }
  intros _. apply ends_bind; [apply ends_copy_images | intros _].
  apply ends_bind; [apply ends_print | intros _; apply ends_ret].
Qed.

(** With a pool that is not empty, the remainder of line 151 is taken by
    a number that is not zero, and the index is in range. *)
Lemma original_folder_for_Some pool i :
  pool <> [] -> is_Some (original_folder_for pool i).
Proof.
  intros Hne. unfold original_folder_for. apply lookup_lt_is_Some.
  apply Nat.mod_upper_bound. by destruct pool.
Qed.

Lemma ends_process_location cfg pool i location P :
  pool <> [] -> ends_with Q (process_location flt cfg pool i location P).
Proof.
  intros Hne. unfold process_location.
  apply ends_bind; [apply ends_get_files | intros d].
  destruct (exists_ _ _).
  { apply ends_bind; [apply ends_print | intros _; apply ends_ret]. }
  destruct (makedirs _ _ _ _) as [d'|].
  2: { apply ends_bind; [apply ends_print | intros _; apply ends_ret]. }
  apply ends_bind; [apply ends_put_files | intros _].
  apply ends_bind; [apply ends_print | intros _].
  destruct (original_folder_for_Some pool i Hne) as [folder ->].
  destruct (length pool) eqn:El; [by destruct pool|].
  apply ends_fill_folder.
Qed.

Lemma ends_process_batch cfg pool i batch P :
  pool <> [] -> ends_with Q (process_batch flt cfg pool i batch P).
Proof.
  intros Hne. revert i P. induction batch as [|x batch IH]; intros i P.
  - apply ends_ret.
  - cbn [process_batch]. apply ends_bind.
    + by apply ends_process_location.
    + intros P'. apply IH.
Qed.

(** The loop is only entered with a pool that is not empty. *)
Lemma ends_materialise_batch cfg batch P :
  ends_with Q (materialise_batch flt cfg batch P).
Proof.
  unfold materialise_batch.
  apply ends_bind; [apply ends_get_original_folders | intros pool].
  apply ends_bind; [apply ends_print | intros _].
  destruct pool as [|f pool].
  { apply ends_bind; [apply ends_print|].
    intros _. by apply ends_halt. }
  apply ends_bind; [apply ends_get_files | intros d].
  apply ends_bind.
  { destruct (makedirs _ _ _ _); [apply ends_put_files | by apply ends_halt]. }
  intros _. apply ends_bind; [by apply ends_process_batch | intros P'].
  apply ends_bind; [apply ends_save_state | intros _; apply ends_print].
Qed.

(** The two calls of [index] at line 115 look up locations of the
    catalog; what is left is the empty batch. *)
Lemma ends_run_batch cfg L P :
  (unprocessed_locations L P <> [] -> current_batch cfg L P = [] ->
   Q (Raised IndexError)) ->
  ends_with Q (run_batch flt cfg L P).
Proof.
  intros HQ. unfold run_batch.
  destruct (unprocessed_locations L P) as [|u U] eqn:EU.
  { apply ends_bind; [apply ends_print|].
    intros _. by apply ends_halt. }
  apply ends_bind; [|intros _; apply ends_materialise_batch].
  assert (forall x, x ∈ current_batch cfg L P -> x ∈ L) as Hin.
  { intros x Hx. eapply elem_of_sublist; [exact Hx|].
    etrans; [apply current_batch_sublist | apply unprocessed_sublist]. }
  destruct (current_batch cfg L P) as [|first batch] eqn:EB.
  { apply ends_halt, HQ; done. }
  destruct (last (first :: batch)) as [final|] eqn:El.
  2: { by rewrite last_cons in El; destruct (last batch). }
  destruct (index_elem_of first L (Hin first ltac:(left))) as [a ->].
  destruct (index_elem_of final L (Hin final (last_Some_elem_of _ _ El)))
    as [b ->].
  apply ends_print.
Qed.

Lemma ends_main cfg :
  (forall L P, unprocessed_locations L P <> [] -> current_batch cfg L P = [] ->
               Q (Raised IndexError)) ->
  ends_with Q (main flt cfg).
Proof.
  intros HQ. unfold main.
  apply ends_bind; [apply ends_load_locations | intros vl].
  apply ends_bind; [apply ends_typed | intros L].
  apply ends_bind; [apply ends_print | intros _].
  apply ends_bind; [apply ends_load_state | intros vp].
  apply ends_bind; [apply ends_typed | intros P].
  apply ends_bind; [apply ends_print | intros _].
  apply ends_run_batch, HQ.
Qed.

Lemma ends_script cfg :
  (forall L P, unprocessed_locations L P <> [] -> current_batch cfg L P = [] ->
               Q (Raised IndexError)) ->
  ends_with Q (script flt cfg).
Proof.
  intros HQ.
  apply ends_bind; [apply ends_get_files | intros d].
  destruct (negb _); [apply ends_exit|].
  destruct (negb _); [apply ends_exit|].
  by apply ends_main.
Qed.

End WithFaults.

Lemma ends_run_of (m : M unit) w : ends_with Q m -> Q (run_of m w).1.
Proof.
  intros H. unfold run_of. destruct (m w) as [[[]|o] w'] eqn:E.
  - exact Q_Returned.
  - by eapply H.
Qed.

End EndLemmas.

(* ===================================================================== *)
(** * The exceptions that a run does not raise                            *)
(* ===================================================================== *)

Section EndProperties.
Import PyStr Json Fs Reap Notions.
Local Open Scope list_scope.

(** X29.  Whatever the files hold and whatever fails, a run never
    raises [ZeroDivisionError]: the remainder of line 151 is only taken
    once lines 122 to 124 have seen a pool that is not empty. *)
Theorem run_never_divides_by_zero flt cfg w :
  (run_main flt cfg w).1 <> Raised ZeroDivisionError
  /\ (run_script flt cfg w).1 <> Raised ZeroDivisionError.
Proof.
  set (Q := fun o : outcome => o <> Raised ZeroDivisionError).
  assert (Q Returned /\ Q (Exited 1) /\ Q (Raised OSError) /\ Q Unmodelled)
    as (Q1 & Q2 & Q3 & Q4) by (by unfold Q).
  split.
  - by apply (ends_run_of Q Q1), (ends_main Q Q1 Q2 Q3 Q4).
  - by apply (ends_run_of Q Q1), (ends_script Q Q1 Q2 Q3 Q4).
Qed.

(** X30.  With a positive batch size, a run never raises [IndexError]:
    the batch that line 115 reads the first and the last location of is
    not empty, and the index of line 151 is in range. *)
Theorem positive_batch_raises_no_index_error flt cfg w :
  (0 < batch_size cfg)%Z ->
  (run_main flt cfg w).1 <> Raised IndexError
  /\ (run_script flt cfg w).1 <> Raised IndexError.
Proof.
  intros Hb.
  set (Q := fun o : outcome => o <> Raised IndexError).
  assert (Q Returned /\ Q (Exited 1) /\ Q (Raised OSError) /\ Q Unmodelled)
    as (Q1 & Q2 & Q3 & Q4) by (by unfold Q).
  assert (forall L P, unprocessed_locations L P <> [] ->
                      current_batch cfg L P = [] -> Q (Raised IndexError))
    as Q5.
  { intros L P HU HB. by apply (current_batch_not_empty cfg L P Hb) in HU. }
  split.
  - by apply (ends_run_of Q Q1), (ends_main Q Q1 Q2 Q3 Q4).
  - by apply (ends_run_of Q Q1), (ends_script Q Q1 Q2 Q3 Q4).
Qed.

Lemma positive_batch_raises_no_index_error_witness :
  (run_main no_faults (Scenario.cfg 2) (Scenario.start Scenario.disk)).1
  <> Raised IndexError.
Proof.
  apply (positive_batch_raises_no_index_error no_faults (Scenario.cfg 2)
           (Scenario.start Scenario.disk)).
  reflexivity.
Defined.

End EndProperties.
